(** * Capability and extension requirements of the SPIR-V backend

    A shallow embedding of

    - [SPIRVEnums.h]: the capability enumeration with its dependency column
      and the requirement tables of the enumerations the requirement pass
      consults;
    - [SPIRVSubtarget.cpp]: version numbers, the target-flavour predicates,
      the recursive enabling of capabilities and the construction of the set
      of available capabilities;
    - [SPIRVAddRequirementsPass.cpp]: the mapping from an instruction to the
      requests it issues to the requirement handler, and the pass itself.

    The requirement handler ([SPIRVCapabilityUtils]) and the table accessors
    ([SPIRVEnumRequirements]) are only declared to the files above; they are
    modelled from the design document and marked as such. *)

From Stdlib Require Import ZArith List Bool Lia.
From stdpp Require Import base tactics option list sets gmap strings relations.

Import ListNotations.
Local Open Scope Z_scope.

(** ** SPIRVEnums.h *)

(** [Extension::Extension] is declared in [SPIRVExtensions.h], which is not
    part of the sources at hand; these are the enumerators the sources at
    hand name. *)
Inductive Extension : Set :=
  | SPV_KHR_shader_ballot | SPV_KHR_shader_draw_parameters
  | SPV_KHR_subgroup_vote | SPV_KHR_16bit_storeage | SPV_KHR_device_group
  | SPV_KHR_multiview | SPV_KHR_variable_pointers
  | SPV_KHR_shader_atomic_counter_ops | SPV_KHR_post_depth_coverage
  | SPV_KHR_8bit_storage | SPV_KHR_float_controls
  | SPV_KHR_no_integer_wrap_decoration | SPV_AMD_shader_trinary_minmax.

#[global] Instance Extension_eq_dec : EqDecision Extension.
Proof. solve_decision. Defined.

Inductive Capability : Set :=
  | Matrix | Shader | Geometry | Tessellation | Addresses | Linkage | Kernel
  | Vector16 | Float16Buffer | Float16 | Float64 | Int64 | Int64Atomics
  | ImageBasic | ImageReadWrite | ImageMipmap | Pipes | Groups
  | DeviceEnqueue | LiteralSampler | AtomicStorage | Int16
  | TessellationPointSize | GeometryPointSize | ImageGatherExtended
  | StorageImageMultisample | UniformBufferArrayDynamicIndexing
  | SampledImageArrayDymnamicIndexing | ClipDistance | CullDistance
  | ImageCubeArray | SampleRateShading | ImageRect | SampledRect
  | GenericPointer | Int8 | InputAttachment | SparseResidency | MinLod
  | Sampled1D | Image1D | SampledCubeArray | SampledBuffer | ImageBuffer
  | ImageMSArray | StorageImageExtendedFormats | ImageQuery
  | DerivativeControl | InterpolationFunction | TransformFeedback
  | GeometryStreams | StorageImageReadWithoutFormat
  | StorageImageWriteWithoutFormat | MultiViewport | SubgroupDispatch
  | NamedBarrier | PipeStorage | GroupNonUniform | GroupNonUniformVote
  | GroupNonUniformArithmetic | GroupNonUniformBallot
  | GroupNonUniformShuffle | GroupNonUniformShuffleRelative
  | GroupNonUniformClustered | GroupNonUniformQuad | SubgroupBallotKHR
  | DrawParameters | SubgroupVoteKHR | StorageBuffer16BitAccess
  | StorageUniform16 | StoragePushConstant16 | StorageInputOutput16
  | DeviceGroup | MultiView | VariablePointersStorageBuffer
  | VariablePointers | AtomicStorageOps | SampleMaskPostDepthCoverage
  | StorageBuffer8BitAccess | UniformAndStorageBuffer8BitAccess
  | StoragePushConstant8 | DenormPreserve | DenormFlushToZero
  | SignedZeroInfNanPreserve | RoundingModeRTE | RoundingModeRTZ
  | Float16ImageAMD | ImageGatherBiasLodAMD | FragmentMaskAMD
  | StencilExportEXT | ImageReadWriteLodAMD | SampleMaskOverrideCoverageNV
  | GeometryShaderPassthroughNV | ShaderViewportIndexLayerEXT
  | ShaderViewportMaskNV | ShaderStereoViewNV | PerViewAttributesNV
  | FragmentFullyCoveredEXT | MeshShadingNV | ShaderNonUniformEXT
  | RuntimeDescriptorArrayEXT | InputAttachmentArrayDynamicIndexingEXT
  | UniformTexelBufferArrayDynamicIndexingEXT
  | StorageTexelBufferArrayDynamicIndexingEXT
  | UniformBufferArrayNonUniformIndexingEXT
  | SampledImageArrayNonUniformIndexingEXT
  | StorageBufferArrayNonUniformIndexingEXT
  | StorageImageArrayNonUniformIndexingEXT
  | InputAttachmentArrayNonUniformIndexingEXT
  | UniformTexelBufferArrayNonUniformIndexingEXT
  | StorageTexelBufferArrayNonUniformIndexingEXT | RayTracingNV
  | SubgroupShuffleINTEL | SubgroupBufferBlockIOINTEL
  | SubgroupImageBlockIOINTEL | SubgroupImageMediaBlockIOINTEL
  | SubgroupAvcMotionEstimationINTEL | SubgroupAvcMotionEstimationIntraINTEL
  | SubgroupAvcMotionEstimationChromaINTEL | GroupNonUniformPartitionedNV
  | VulkanMemoryModelKHR | VulkanMemoryModelDeviceScopeKHR | ImageFootprintNV
  | FragmentBarycentricNV | ComputeDerivativeGroupQuadsNV
  | ComputeDerivativeGroupLinearNV | FragmentDensityEXT
  | PhysicalStorageBufferAddresses | CooperativeMatrixNV.

(** [DEF_Capability], the [Val] column. *)
Definition getCapabilityValue (c : Capability) : Z :=
  match c with
  | Matrix => 0
  | Shader => 1
  | Geometry => 2
  | Tessellation => 3
  | Addresses => 4
  | Linkage => 5
  | Kernel => 6
  | Vector16 => 7
  | Float16Buffer => 8
  | Float16 => 9
  | Float64 => 10
  | Int64 => 11
  | Int64Atomics => 12
  | ImageBasic => 13
  | ImageReadWrite => 14
  | ImageMipmap => 15
  | Pipes => 17
  | Groups => 18
  | DeviceEnqueue => 19
  | LiteralSampler => 20
  | AtomicStorage => 21
  | Int16 => 22
  | TessellationPointSize => 23
  | GeometryPointSize => 24
  | ImageGatherExtended => 25
  | StorageImageMultisample => 27
  | UniformBufferArrayDynamicIndexing => 28
  | SampledImageArrayDymnamicIndexing => 29
  | ClipDistance => 32
  | CullDistance => 33
  | ImageCubeArray => 34
  | SampleRateShading => 35
  | ImageRect => 36
  | SampledRect => 37
  | GenericPointer => 38
  | Int8 => 39
  | InputAttachment => 40
  | SparseResidency => 41
  | MinLod => 42
  | Sampled1D => 43
  | Image1D => 44
  | SampledCubeArray => 45
  | SampledBuffer => 46
  | ImageBuffer => 47
  | ImageMSArray => 48
  | StorageImageExtendedFormats => 49
  | ImageQuery => 50
  | DerivativeControl => 51
  | InterpolationFunction => 52
  | TransformFeedback => 53
  | GeometryStreams => 54
  | StorageImageReadWithoutFormat => 55
  | StorageImageWriteWithoutFormat => 56
  | MultiViewport => 57
  | SubgroupDispatch => 58
  | NamedBarrier => 59
  | PipeStorage => 60
  | GroupNonUniform => 61
  | GroupNonUniformVote => 62
  | GroupNonUniformArithmetic => 63
  | GroupNonUniformBallot => 64
  | GroupNonUniformShuffle => 65
  | GroupNonUniformShuffleRelative => 66
  | GroupNonUniformClustered => 67
  | GroupNonUniformQuad => 68
  | SubgroupBallotKHR => 4423
  | DrawParameters => 4427
  | SubgroupVoteKHR => 4431
  | StorageBuffer16BitAccess => 4433
  | StorageUniform16 => 4434
  | StoragePushConstant16 => 4435
  | StorageInputOutput16 => 4436
  | DeviceGroup => 4437
  | MultiView => 4439
  | VariablePointersStorageBuffer => 4441
  | VariablePointers => 4442
  | AtomicStorageOps => 4445
  | SampleMaskPostDepthCoverage => 4447
  | StorageBuffer8BitAccess => 4448
  | UniformAndStorageBuffer8BitAccess => 4449
  | StoragePushConstant8 => 4450
  | DenormPreserve => 4464
  | DenormFlushToZero => 4465
  | SignedZeroInfNanPreserve => 4466
  | RoundingModeRTE => 4467
  | RoundingModeRTZ => 4468
  | Float16ImageAMD => 5008
  | ImageGatherBiasLodAMD => 5009
  | FragmentMaskAMD => 5010
  | StencilExportEXT => 5013
  | ImageReadWriteLodAMD => 5015
  | SampleMaskOverrideCoverageNV => 5249
  | GeometryShaderPassthroughNV => 5251
  | ShaderViewportIndexLayerEXT => 5254
  | ShaderViewportMaskNV => 5255
  | ShaderStereoViewNV => 5259
  | PerViewAttributesNV => 5260
  | FragmentFullyCoveredEXT => 5265
  | MeshShadingNV => 5266
  | ShaderNonUniformEXT => 5301
  | RuntimeDescriptorArrayEXT => 5302
  | InputAttachmentArrayDynamicIndexingEXT => 5303
  | UniformTexelBufferArrayDynamicIndexingEXT => 5304
  | StorageTexelBufferArrayDynamicIndexingEXT => 5305
  | UniformBufferArrayNonUniformIndexingEXT => 5306
  | SampledImageArrayNonUniformIndexingEXT => 5307
  | StorageBufferArrayNonUniformIndexingEXT => 5308
  | StorageImageArrayNonUniformIndexingEXT => 5309
  | InputAttachmentArrayNonUniformIndexingEXT => 5310
  | UniformTexelBufferArrayNonUniformIndexingEXT => 5311
  | StorageTexelBufferArrayNonUniformIndexingEXT => 5312
  | RayTracingNV => 5340
  | SubgroupShuffleINTEL => 5568
  | SubgroupBufferBlockIOINTEL => 5569
  | SubgroupImageBlockIOINTEL => 5570
  | SubgroupImageMediaBlockIOINTEL => 5579
  | SubgroupAvcMotionEstimationINTEL => 5696
  | SubgroupAvcMotionEstimationIntraINTEL => 5697
  | SubgroupAvcMotionEstimationChromaINTEL => 5698
  | GroupNonUniformPartitionedNV => 5297
  | VulkanMemoryModelKHR => 5345
  | VulkanMemoryModelDeviceScopeKHR => 5346
  | ImageFootprintNV => 5282
  | FragmentBarycentricNV => 5284
  | ComputeDerivativeGroupQuadsNV => 5288
  | ComputeDerivativeGroupLinearNV => 5350
  | FragmentDensityEXT => 5291
  | PhysicalStorageBufferAddresses => 5347
  | CooperativeMatrixNV => 5357
  end.

(** [DEF_Capability], the [Caps] column: the capabilities that declaring
    [c] implicitly declares (its direct prerequisites). *)
Definition getCapabilityCapabilities (c : Capability) : list Capability :=
  match c with
  | Shader => [Matrix]
  | Geometry => [Shader]
  | Tessellation => [Shader]
  | Vector16 => [Kernel]
  | Float16Buffer => [Kernel]
  | Int64Atomics => [Int64]
  | ImageBasic => [Kernel]
  | ImageReadWrite => [ImageBasic]
  | ImageMipmap => [ImageBasic]
  | Pipes => [Kernel]
  | LiteralSampler => [Kernel]
  | AtomicStorage => [Shader]
  | TessellationPointSize => [Tessellation]
  | GeometryPointSize => [Geometry]
  | ImageGatherExtended => [Shader]
  | StorageImageMultisample => [Shader]
  | UniformBufferArrayDynamicIndexing => [Shader]
  | SampledImageArrayDymnamicIndexing => [Shader]
  | ClipDistance => [Shader]
  | CullDistance => [Shader]
  | ImageCubeArray => [SampledCubeArray]
  | SampleRateShading => [Shader]
  | ImageRect => [SampledRect]
  | SampledRect => [Shader]
  | GenericPointer => [Addresses]
  | InputAttachment => [Shader]
  | SparseResidency => [Shader]
  | MinLod => [Shader]
  | Image1D => [Sampled1D]
  | SampledCubeArray => [Shader]
  | ImageBuffer => [SampledBuffer]
  | ImageMSArray => [Shader]
  | StorageImageExtendedFormats => [Shader]
  | ImageQuery => [Shader]
  | DerivativeControl => [Shader]
  | InterpolationFunction => [Shader]
  | TransformFeedback => [Shader]
  | GeometryStreams => [Geometry]
  | StorageImageReadWithoutFormat => [Shader]
  | StorageImageWriteWithoutFormat => [Shader]
  | MultiViewport => [Geometry]
  | SubgroupDispatch => [DeviceEnqueue]
  | NamedBarrier => [Kernel]
  | PipeStorage => [Pipes]
  | GroupNonUniformVote => [GroupNonUniform]
  | GroupNonUniformArithmetic => [GroupNonUniform]
  | GroupNonUniformBallot => [GroupNonUniform]
  | GroupNonUniformShuffle => [GroupNonUniform]
  | GroupNonUniformShuffleRelative => [GroupNonUniform]
  | GroupNonUniformClustered => [GroupNonUniform]
  | GroupNonUniformQuad => [GroupNonUniform]
  | DrawParameters => [Shader]
  | StorageUniform16 => [StorageBuffer16BitAccess]
  | MultiView => [Shader]
  | VariablePointersStorageBuffer => [Shader]
  | VariablePointers => [VariablePointersStorageBuffer]
  | UniformAndStorageBuffer8BitAccess => [StorageBuffer8BitAccess]
  | Float16ImageAMD => [Shader]
  | ImageGatherBiasLodAMD => [Shader]
  | FragmentMaskAMD => [Shader]
  | StencilExportEXT => [Shader]
  | ImageReadWriteLodAMD => [Shader]
  | SampleMaskOverrideCoverageNV => [SampleRateShading]
  | GeometryShaderPassthroughNV => [Geometry]
  | ShaderViewportIndexLayerEXT => [MultiViewport]
  | ShaderViewportMaskNV => [ShaderViewportIndexLayerEXT]
  | ShaderStereoViewNV => [ShaderViewportMaskNV]
  | PerViewAttributesNV => [MultiView]
  | FragmentFullyCoveredEXT => [Shader]
  | MeshShadingNV => [Shader]
  | ShaderNonUniformEXT => [Shader]
  | RuntimeDescriptorArrayEXT => [Shader]
  | InputAttachmentArrayDynamicIndexingEXT => [InputAttachment]
  | UniformTexelBufferArrayDynamicIndexingEXT => [SampledBuffer]
  | StorageTexelBufferArrayDynamicIndexingEXT => [ImageBuffer]
  | UniformBufferArrayNonUniformIndexingEXT => [ShaderNonUniformEXT]
  | SampledImageArrayNonUniformIndexingEXT => [ShaderNonUniformEXT]
  | StorageBufferArrayNonUniformIndexingEXT => [ShaderNonUniformEXT]
  | StorageImageArrayNonUniformIndexingEXT => [ShaderNonUniformEXT]
  | InputAttachmentArrayNonUniformIndexingEXT => [InputAttachment; ShaderNonUniformEXT]
  | UniformTexelBufferArrayNonUniformIndexingEXT => [SampledBuffer; ShaderNonUniformEXT]
  | StorageTexelBufferArrayNonUniformIndexingEXT => [ImageBuffer; ShaderNonUniformEXT]
  | RayTracingNV => [Shader]
  | FragmentDensityEXT => [Shader]
  | PhysicalStorageBufferAddresses => [Shader]
  | CooperativeMatrixNV => [Shader]
  | _ => []
  end.

(** The rows of [DEF_Capability] in the order the macro lists them. *)
Definition DEF_Capability : list Capability :=
  [Matrix; Shader; Geometry; Tessellation; Addresses; Linkage; Kernel
   ; Vector16; Float16Buffer; Float16; Float64; Int64; Int64Atomics
   ; ImageBasic; ImageReadWrite; ImageMipmap; Pipes; Groups; DeviceEnqueue
   ; LiteralSampler; AtomicStorage; Int16; TessellationPointSize
   ; GeometryPointSize; ImageGatherExtended; StorageImageMultisample
   ; UniformBufferArrayDynamicIndexing; SampledImageArrayDymnamicIndexing
   ; ClipDistance; CullDistance; ImageCubeArray; SampleRateShading; ImageRect
   ; SampledRect; GenericPointer; Int8; InputAttachment; SparseResidency
   ; MinLod; Sampled1D; Image1D; SampledCubeArray; SampledBuffer; ImageBuffer
   ; ImageMSArray; StorageImageExtendedFormats; ImageQuery; DerivativeControl
   ; InterpolationFunction; TransformFeedback; GeometryStreams
   ; StorageImageReadWithoutFormat; StorageImageWriteWithoutFormat
   ; MultiViewport; SubgroupDispatch; NamedBarrier; PipeStorage
   ; GroupNonUniform; GroupNonUniformVote; GroupNonUniformArithmetic
   ; GroupNonUniformBallot; GroupNonUniformShuffle
   ; GroupNonUniformShuffleRelative; GroupNonUniformClustered
   ; GroupNonUniformQuad; SubgroupBallotKHR; DrawParameters; SubgroupVoteKHR
   ; StorageBuffer16BitAccess; StorageUniform16; StoragePushConstant16
   ; StorageInputOutput16; DeviceGroup; MultiView
   ; VariablePointersStorageBuffer; VariablePointers; AtomicStorageOps
   ; SampleMaskPostDepthCoverage; StorageBuffer8BitAccess
   ; UniformAndStorageBuffer8BitAccess; StoragePushConstant8; DenormPreserve
   ; DenormFlushToZero; SignedZeroInfNanPreserve; RoundingModeRTE
   ; RoundingModeRTZ; Float16ImageAMD; ImageGatherBiasLodAMD; FragmentMaskAMD
   ; StencilExportEXT; ImageReadWriteLodAMD; SampleMaskOverrideCoverageNV
   ; GeometryShaderPassthroughNV; ShaderViewportIndexLayerEXT
   ; ShaderViewportMaskNV; ShaderStereoViewNV; PerViewAttributesNV
   ; FragmentFullyCoveredEXT; MeshShadingNV; ShaderNonUniformEXT
   ; RuntimeDescriptorArrayEXT; InputAttachmentArrayDynamicIndexingEXT
   ; UniformTexelBufferArrayDynamicIndexingEXT
   ; StorageTexelBufferArrayDynamicIndexingEXT
   ; UniformBufferArrayNonUniformIndexingEXT
   ; SampledImageArrayNonUniformIndexingEXT
   ; StorageBufferArrayNonUniformIndexingEXT
   ; StorageImageArrayNonUniformIndexingEXT
   ; InputAttachmentArrayNonUniformIndexingEXT
   ; UniformTexelBufferArrayNonUniformIndexingEXT
   ; StorageTexelBufferArrayNonUniformIndexingEXT; RayTracingNV
   ; SubgroupShuffleINTEL; SubgroupBufferBlockIOINTEL
   ; SubgroupImageBlockIOINTEL; SubgroupImageMediaBlockIOINTEL
   ; SubgroupAvcMotionEstimationINTEL; SubgroupAvcMotionEstimationIntraINTEL
   ; SubgroupAvcMotionEstimationChromaINTEL; GroupNonUniformPartitionedNV
   ; VulkanMemoryModelKHR; VulkanMemoryModelDeviceScopeKHR; ImageFootprintNV
   ; FragmentBarycentricNV; ComputeDerivativeGroupQuadsNV
   ; ComputeDerivativeGroupLinearNV; FragmentDensityEXT
   ; PhysicalStorageBufferAddresses; CooperativeMatrixNV].

(** One row [X(N, Var, Val, Caps, Exts, MinVer, MaxVer)] of an enumeration
    other than [Capability]. *)
Record EnumEntry : Set := X {
  Var : string;
  Val : Z;
  Caps : list Capability;
  Exts : list Extension;
  MinVer : Z;
  MaxVer : Z
}.

Definition DEF_AddressingModel : list EnumEntry :=
  [ X "Logical" 0 [] [] 0 0
  ; X "Physical32" 1 [Addresses] [] 0 0
  ; X "Physical64" 2 [Addresses] [] 0 0
  ; X "PhysicalStorageBuffer64" 5348 [PhysicalStorageBufferAddresses] [] 0 0
  ].

Definition DEF_ExecutionModel : list EnumEntry :=
  [ X "Vertex" 0 [Shader] [] 0 0
  ; X "TessellationControl" 1 [Tessellation] [] 0 0
  ; X "TessellationEvaluation" 2 [Tessellation] [] 0 0
  ; X "Geometry" 3 [Geometry] [] 0 0
  ; X "Fragment" 4 [Shader] [] 0 0
  ; X "GLCompute" 5 [Shader] [] 0 0
  ; X "Kernel" 6 [Kernel] [] 0 0
  ; X "TaskNV" 5267 [MeshShadingNV] [] 0 0
  ; X "MeshNV" 5268 [MeshShadingNV] [] 0 0
  ; X "RayGenerationNV" 5313 [RayTracingNV] [] 0 0
  ; X "IntersectionNV" 5314 [RayTracingNV] [] 0 0
  ; X "AnyHitNV" 5315 [RayTracingNV] [] 0 0
  ; X "ClosestHitNV" 5316 [RayTracingNV] [] 0 0
  ; X "MissNV" 5317 [RayTracingNV] [] 0 0
  ; X "CallableNV" 5318 [RayTracingNV] [] 0 0
  ].

Definition DEF_MemoryModel : list EnumEntry :=
  [ X "Simple" 0 [Shader] [] 0 0
  ; X "GLSL450" 1 [Shader] [] 0 0
  ; X "OpenCL" 2 [Kernel] [] 0 0
  ; X "VulkanKHR" 3 [VulkanMemoryModelKHR] [] 0 0
  ].

Definition DEF_ExecutionMode : list EnumEntry :=
  [ X "Invocations" 0 [Geometry] [] 0 0
  ; X "SpacingEqual" 1 [Tessellation] [] 0 0
  ; X "SpacingFractionalEven" 2 [Tessellation] [] 0 0
  ; X "SpacingFractionalOdd" 3 [Tessellation] [] 0 0
  ; X "VertexOrderCw" 4 [Tessellation] [] 0 0
  ; X "VertexOrderCcw" 5 [Tessellation] [] 0 0
  ; X "PixelCenterInteger" 6 [Shader] [] 0 0
  ; X "OriginUpperLeft" 7 [Shader] [] 0 0
  ; X "OriginLowerLeft" 8 [Shader] [] 0 0
  ; X "EarlyFragmentTests" 9 [Shader] [] 0 0
  ; X "PointMode" 10 [Tessellation] [] 0 0
  ; X "Xfb" 11 [TransformFeedback] [] 0 0
  ; X "DepthReplacing" 12 [Shader] [] 0 0
  ; X "DepthGreater" 14 [Shader] [] 0 0
  ; X "DepthLess" 15 [Shader] [] 0 0
  ; X "DepthUnchanged" 16 [Shader] [] 0 0
  ; X "LocalSize" 17 [] [] 0 0
  ; X "LocalSizeHint" 18 [Kernel] [] 0 0
  ; X "InputPoints" 19 [Geometry] [] 0 0
  ; X "InputLines" 20 [Geometry] [] 0 0
  ; X "InputLinesAdjacency" 21 [Geometry] [] 0 0
  ; X "Triangles" 22 [Geometry; Tessellation] [] 0 0
  ; X "InputTrianglesAdjacency" 23 [Geometry] [] 0 0
  ; X "Quads" 24 [Tessellation] [] 0 0
  ; X "Isolines" 25 [Tessellation] [] 0 0
  ; X "OutputVertices" 26 [Geometry; Tessellation; MeshShadingNV] [] 0 0
  ; X "OutputPoints" 27 [Geometry; MeshShadingNV] [] 0 0
  ; X "OutputLineStrip" 28 [Geometry] [] 0 0
  ; X "OutputTriangleStrip" 29 [Geometry] [] 0 0
  ; X "VecTypeHint" 30 [Kernel] [] 0 0
  ; X "ContractionOff" 31 [Kernel] [] 0 0
  ; X "Initializer" 33 [Kernel] [] 0 0
  ; X "Finalizer" 34 [Kernel] [] 0 0
  ; X "SubgroupSize" 35 [SubgroupDispatch] [] 0 0
  ; X "SubgroupsPerWorkgroup" 36 [SubgroupDispatch] [] 0 0
  ; X "SubgroupsPerWorkgroupId" 37 [SubgroupDispatch] [] 0 0
  ; X "LocalSizeId" 38 [] [] 0 0
  ; X "LocalSizeHintId" 39 [Kernel] [] 0 0
  ; X "PostDepthCoverage" 4446 [SampleMaskPostDepthCoverage] [] 0 0
  ; X "DenormPreserve" 4459 [DenormPreserve] [] 0 0
  ; X "DenormFlushToZero" 4460 [DenormFlushToZero] [] 0 0
  ; X "SignedZeroInfNanPreserve" 4461 [SignedZeroInfNanPreserve] [] 0 0
  ; X "RoundingModeRTE" 4462 [RoundingModeRTE] [] 0 0
  ; X "RoundingModeRTZ" 4463 [RoundingModeRTZ] [] 0 0
  ; X "StencilRefReplacingEXT" 5027 [StencilExportEXT] [] 0 0
  ; X "OutputLinesNV" 5269 [MeshShadingNV] [] 0 0
  ; X "DerivativeGroupQuadsNV" 5289 [ComputeDerivativeGroupQuadsNV] [] 0 0
  ; X "DerivativeGroupLinearNV" 5290 [ComputeDerivativeGroupLinearNV] [] 0 0
  ; X "OutputTrianglesNV" 5298 [MeshShadingNV] [] 0 0
  ].

Definition DEF_StorageClass : list EnumEntry :=
  [ X "UniformConstant" 0 [] [] 0 0
  ; X "Input" 1 [] [] 0 0
  ; X "Uniform" 2 [Shader] [] 0 0
  ; X "Output" 3 [Shader] [] 0 0
  ; X "Workgroup" 4 [] [] 0 0
  ; X "CrossWorkgroup" 5 [] [] 0 0
  ; X "Private" 6 [Shader] [] 0 0
  ; X "Function" 7 [] [] 0 0
  ; X "Generic" 8 [GenericPointer] [] 0 0
  ; X "PushConstant" 9 [Shader] [] 0 0
  ; X "AtomicCounter" 10 [AtomicStorage] [] 0 0
  ; X "Image" 11 [] [] 0 0
  ; X "StorageBuffer" 12 [Shader] [] 0 0
  ; X "CallableDataNV" 5328 [RayTracingNV] [] 0 0
  ; X "IncomingCallableDataNV" 5329 [RayTracingNV] [] 0 0
  ; X "RayPayloadNV" 5338 [RayTracingNV] [] 0 0
  ; X "HitAttributeNV" 5339 [RayTracingNV] [] 0 0
  ; X "IncomingRayPayloadNV" 5342 [RayTracingNV] [] 0 0
  ; X "ShaderRecordBufferNV" 5343 [RayTracingNV] [] 0 0
  ; X "PhysicalStorageBuffer" 5349 [PhysicalStorageBufferAddresses] [] 0 0
  ].

Definition DEF_ImageFormat : list EnumEntry :=
  [ X "Unknown" 0 [] [] 0 0
  ; X "Rgba32f" 1 [Shader] [] 0 0
  ; X "Rgba16f" 2 [Shader] [] 0 0
  ; X "R32f" 3 [Shader] [] 0 0
  ; X "Rgba8" 4 [Shader] [] 0 0
  ; X "Rgba8Snorm" 5 [Shader] [] 0 0
  ; X "Rg32f" 6 [StorageImageExtendedFormats] [] 0 0
  ; X "Rg16f" 7 [StorageImageExtendedFormats] [] 0 0
  ; X "R11fG11fB10f" 8 [StorageImageExtendedFormats] [] 0 0
  ; X "R16f" 9 [StorageImageExtendedFormats] [] 0 0
  ; X "Rgba16" 10 [StorageImageExtendedFormats] [] 0 0
  ; X "Rgb10A2" 11 [StorageImageExtendedFormats] [] 0 0
  ; X "Rg16" 12 [StorageImageExtendedFormats] [] 0 0
  ; X "Rg8" 13 [StorageImageExtendedFormats] [] 0 0
  ; X "R16" 14 [StorageImageExtendedFormats] [] 0 0
  ; X "R8" 15 [StorageImageExtendedFormats] [] 0 0
  ; X "Rgba16Snorm" 16 [StorageImageExtendedFormats] [] 0 0
  ; X "Rg16Snorm" 17 [StorageImageExtendedFormats] [] 0 0
  ; X "Rg8Snorm" 18 [StorageImageExtendedFormats] [] 0 0
  ; X "R16Snorm" 19 [StorageImageExtendedFormats] [] 0 0
  ; X "R8Snorm" 20 [StorageImageExtendedFormats] [] 0 0
  ; X "Rgba32i" 21 [Shader] [] 0 0
  ; X "Rgba16i" 22 [Shader] [] 0 0
  ; X "Rgba8i" 23 [Shader] [] 0 0
  ; X "R32i" 24 [Shader] [] 0 0
  ; X "Rg32i" 25 [StorageImageExtendedFormats] [] 0 0
  ; X "Rg16i" 26 [StorageImageExtendedFormats] [] 0 0
  ; X "Rg8i" 27 [StorageImageExtendedFormats] [] 0 0
  ; X "R16i" 28 [StorageImageExtendedFormats] [] 0 0
  ; X "R8i" 29 [StorageImageExtendedFormats] [] 0 0
  ; X "Rgba32ui" 30 [Shader] [] 0 0
  ; X "Rgba16ui" 31 [Shader] [] 0 0
  ; X "Rgba8ui" 32 [Shader] [] 0 0
  ; X "R32ui" 33 [Shader] [] 0 0
  ; X "Rgb10a2ui" 34 [StorageImageExtendedFormats] [] 0 0
  ; X "Rg32ui" 35 [StorageImageExtendedFormats] [] 0 0
  ; X "Rg16ui" 36 [StorageImageExtendedFormats] [] 0 0
  ; X "Rg8ui" 37 [StorageImageExtendedFormats] [] 0 0
  ; X "R16ui" 38 [StorageImageExtendedFormats] [] 0 0
  ; X "R8ui" 39 [StorageImageExtendedFormats] [] 0 0
  ].

Definition DEF_Decoration : list EnumEntry :=
  [ X "RelaxedPrecision" 0 [Shader] [] 0 0
  ; X "SpecId" 1 [Shader; Kernel] [] 0 0
  ; X "Block" 2 [Shader] [] 0 0
  ; X "BufferBlock" 3 [Shader] [] 0 0
  ; X "RowMajor" 4 [Matrix] [] 0 0
  ; X "ColMajor" 5 [Matrix] [] 0 0
  ; X "ArrayStride" 6 [Shader] [] 0 0
  ; X "MatrixStride" 7 [Matrix] [] 0 0
  ; X "GLSLShared" 8 [Shader] [] 0 0
  ; X "GLSLPacked" 9 [Shader] [] 0 0
  ; X "CPacked" 10 [Kernel] [] 0 0
  ; X "BuiltIn" 11 [] [] 0 0
  ; X "NoPerspective" 13 [Shader] [] 0 0
  ; X "Flat" 14 [Shader] [] 0 0
  ; X "Patch" 15 [Tessellation] [] 0 0
  ; X "Centroid" 16 [Shader] [] 0 0
  ; X "Sample" 17 [SampleRateShading] [] 0 0
  ; X "Invariant" 18 [Shader] [] 0 0
  ; X "Restrict" 19 [] [] 0 0
  ; X "Aliased" 20 [] [] 0 0
  ; X "Volatile" 21 [] [] 0 0
  ; X "Constant" 22 [Kernel] [] 0 0
  ; X "Coherent" 23 [] [] 0 0
  ; X "NonWritable" 24 [] [] 0 0
  ; X "NonReadable" 25 [] [] 0 0
  ; X "Uniform" 26 [Shader] [] 0 0
  ; X "UniformId" 27 [Shader] [] 0 0
  ; X "SaturatedConversion" 28 [Kernel] [] 0 0
  ; X "Stream" 29 [GeometryStreams] [] 0 0
  ; X "Location" 30 [Shader] [] 0 0
  ; X "Component" 31 [Shader] [] 0 0
  ; X "Index" 32 [Shader] [] 0 0
  ; X "Binding" 33 [Shader] [] 0 0
  ; X "DescriptorSet" 34 [Shader] [] 0 0
  ; X "Offset" 35 [Shader] [] 0 0
  ; X "XfbBuffer" 36 [TransformFeedback] [] 0 0
  ; X "XfbStride" 37 [TransformFeedback] [] 0 0
  ; X "FuncParamAttr" 38 [Kernel] [] 0 0
  ; X "FPRoundingMode" 39 [] [] 0 0
  ; X "FPFastMathMode" 40 [Kernel] [] 0 0
  ; X "LinkageAttributes" 41 [Linkage] [] 0 0
  ; X "NoContraction" 42 [Shader] [] 0 0
  ; X "InputAttachmentIndex" 43 [InputAttachment] [] 0 0
  ; X "Alignment" 44 [Kernel] [] 0 0
  ; X "MaxByteOffset" 45 [Addresses] [] 0 0
  ; X "AlignmentId" 46 [Kernel] [] 0 0
  ; X "MaxByteOffsetId" 47 [Addresses] [] 0 0
  ; X "NoSignedWrap" 4469 [] [SPV_KHR_no_integer_wrap_decoration] 0x10400 0
  ; X "NoUnsignedWrap" 4470 [] [SPV_KHR_no_integer_wrap_decoration] 0x10400 0
  ; X "ExplicitInterpAMD" 4999 [] [] 0 0
  ; X "OverrideCoverageNV" 5248 [SampleMaskOverrideCoverageNV] [] 0 0
  ; X "PassthroughNV" 5250 [GeometryShaderPassthroughNV] [] 0 0
  ; X "ViewportRelativeNV" 5252 [ShaderViewportMaskNV] [] 0 0
  ; X "SecondaryViewportRelativeNV" 5256 [ShaderStereoViewNV] [] 0 0
  ; X "PerPrimitiveNV" 5271 [MeshShadingNV] [] 0 0
  ; X "PerViewNV" 5272 [MeshShadingNV] [] 0 0
  ; X "PerVertexNV" 5273 [FragmentBarycentricNV] [] 0 0
  ; X "NonUniformEXT" 5300 [ShaderNonUniformEXT] [] 0 0
  ; X "CountBuffer" 5634 [] [] 0 0
  ; X "UserSemantic" 5635 [] [] 0 0
  ; X "RestrictPointer" 5355 [PhysicalStorageBufferAddresses] [] 0 0
  ; X "AliasedPointer" 5356 [PhysicalStorageBufferAddresses] [] 0 0
  ].

Definition DEF_BuiltIn : list EnumEntry :=
  [ X "Position" 0 [Shader] [] 0 0
  ; X "PointSize" 1 [Shader] [] 0 0
  ; X "ClipDistance" 3 [ClipDistance] [] 0 0
  ; X "CullDistance" 4 [CullDistance] [] 0 0
  ; X "VertexId" 5 [Shader] [] 0 0
  ; X "InstanceId" 6 [Shader] [] 0 0
  ; X "PrimitiveId" 7 [Geometry; Tessellation; RayTracingNV] [] 0 0
  ; X "InvocationId" 8 [Geometry; Tessellation] [] 0 0
  ; X "Layer" 9 [Geometry] [] 0 0
  ; X "ViewportIndex" 10 [MultiViewport] [] 0 0
  ; X "TessLevelOuter" 11 [Tessellation] [] 0 0
  ; X "TessLevelInner" 12 [Tessellation] [] 0 0
  ; X "TessCoord" 13 [Tessellation] [] 0 0
  ; X "PatchVertices" 14 [Tessellation] [] 0 0
  ; X "FragCoord" 15 [Shader] [] 0 0
  ; X "PointCoord" 16 [Shader] [] 0 0
  ; X "FrontFacing" 17 [Shader] [] 0 0
  ; X "SampleId" 18 [SampleRateShading] [] 0 0
  ; X "SamplePosition" 19 [SampleRateShading] [] 0 0
  ; X "SampleMask" 20 [Shader] [] 0 0
  ; X "FragDepth" 22 [Shader] [] 0 0
  ; X "HelperInvocation" 23 [Shader] [] 0 0
  ; X "NumWorkGroups" 24 [] [] 0 0
  ; X "WorkgroupSize" 25 [] [] 0 0
  ; X "WorkgroupId" 26 [] [] 0 0
  ; X "LocalInvocationId" 27 [] [] 0 0
  ; X "GlobalInvocationId" 28 [] [] 0 0
  ; X "LocalInvocationIndex" 29 [] [] 0 0
  ; X "WorkDim" 30 [Kernel] [] 0 0
  ; X "GlobalSize" 31 [Kernel] [] 0 0
  ; X "EnqueuedWorkgroupSize" 32 [Kernel] [] 0 0
  ; X "GlobalOffset" 33 [Kernel] [] 0 0
  ; X "GlobalLinearId" 34 [Kernel] [] 0 0
  ; X "SubgroupSize" 36 [Kernel; GroupNonUniform; SubgroupBallotKHR] [] 0 0
  ; X "SubgroupMaxSize" 37 [Kernel] [] 0 0
  ; X "NumSubgroups" 38 [Kernel; GroupNonUniform] [] 0 0
  ; X "NumEnqueuedSubgroups" 39 [Kernel] [] 0 0
  ; X "SubgroupId" 40 [Kernel; GroupNonUniform] [] 0 0
  ; X "SubgroupLocalInvocationId" 41 [Kernel; GroupNonUniform; SubgroupBallotKHR] [] 0 0
  ; X "VertexIndex" 42 [Shader] [] 0 0
  ; X "InstanceIndex" 43 [Shader] [] 0 0
  ; X "SubgroupEqMask" 4416 [SubgroupBallotKHR; GroupNonUniformBallot] [] 0 0
  ; X "SubgroupGeMask" 4417 [SubgroupBallotKHR; GroupNonUniformBallot] [] 0 0
  ; X "SubgroupGtMask" 4418 [SubgroupBallotKHR; GroupNonUniformBallot] [] 0 0
  ; X "SubgroupLeMask" 4419 [SubgroupBallotKHR; GroupNonUniformBallot] [] 0 0
  ; X "SubgroupLtMask" 4420 [SubgroupBallotKHR; GroupNonUniformBallot] [] 0 0
  ; X "BaseVertex" 4424 [DrawParameters] [] 0 0
  ; X "BaseInstance" 4425 [DrawParameters] [] 0 0
  ; X "DrawIndex" 4426 [DrawParameters; MeshShadingNV] [] 0 0
  ; X "DeviceIndex" 4438 [DeviceGroup] [] 0 0
  ; X "ViewIndex" 4440 [MultiView] [] 0 0
  ; X "BaryCoordNoPerspAMD" 4492 [] [] 0 0
  ; X "BaryCoordNoPerspCentroidAMD" 4493 [] [] 0 0
  ; X "BaryCoordNoPerspSampleAMD" 4494 [] [] 0 0
  ; X "BaryCoordSmoothAMD" 4495 [] [] 0 0
  ; X "BaryCoordSmoothCentroid" 4496 [] [] 0 0
  ; X "BaryCoordSmoothSample" 4497 [] [] 0 0
  ; X "BaryCoordPullModel" 4498 [] [] 0 0
  ; X "FragStencilRefEXT" 5014 [StencilExportEXT] [] 0 0
  ; X "ViewportMaskNV" 5253 [ShaderViewportMaskNV; MeshShadingNV] [] 0 0
  ; X "SecondaryPositionNV" 5257 [ShaderStereoViewNV] [] 0 0
  ; X "SecondaryViewportMaskNV" 5258 [ShaderStereoViewNV] [] 0 0
  ; X "PositionPerViewNV" 5261 [PerViewAttributesNV; MeshShadingNV] [] 0 0
  ; X "ViewportMaskPerViewNV" 5262 [PerViewAttributesNV; MeshShadingNV] [] 0 0
  ; X "FullyCoveredEXT" 5264 [FragmentFullyCoveredEXT] [] 0 0
  ; X "TaskCountNV" 5274 [MeshShadingNV] [] 0 0
  ; X "PrimitiveCountNV" 5275 [MeshShadingNV] [] 0 0
  ; X "PrimitiveIndicesNV" 5276 [MeshShadingNV] [] 0 0
  ; X "ClipDistancePerViewNV" 5277 [MeshShadingNV] [] 0 0
  ; X "CullDistancePerViewNV" 5278 [MeshShadingNV] [] 0 0
  ; X "LayerPerViewNV" 5279 [MeshShadingNV] [] 0 0
  ; X "MeshViewCountNV" 5280 [MeshShadingNV] [] 0 0
  ; X "MeshViewIndices" 5281 [MeshShadingNV] [] 0 0
  ; X "BaryCoordNV" 5286 [FragmentBarycentricNV] [] 0 0
  ; X "BaryCoordNoPerspNV" 5287 [FragmentBarycentricNV] [] 0 0
  ; X "FragSizeEXT" 5292 [FragmentDensityEXT] [] 0 0
  ; X "FragInvocationCountEXT" 5293 [FragmentDensityEXT] [] 0 0
  ; X "LaunchIdNV" 5319 [RayTracingNV] [] 0 0
  ; X "LaunchSizeNV" 5320 [RayTracingNV] [] 0 0
  ; X "WorldRayOriginNV" 5321 [RayTracingNV] [] 0 0
  ; X "WorldRayDirectionNV" 5322 [RayTracingNV] [] 0 0
  ; X "ObjectRayOriginNV" 5323 [RayTracingNV] [] 0 0
  ; X "ObjectRayDirectionNV" 5324 [RayTracingNV] [] 0 0
  ; X "RayTminNV" 5325 [RayTracingNV] [] 0 0
  ; X "RayTmaxNV" 5326 [RayTracingNV] [] 0 0
  ; X "InstanceCustomIndexNV" 5327 [RayTracingNV] [] 0 0
  ; X "ObjectToWorldNV" 5330 [RayTracingNV] [] 0 0
  ; X "WorldToObjectNV" 5331 [RayTracingNV] [] 0 0
  ; X "HitTNV" 5332 [RayTracingNV] [] 0 0
  ; X "HitKindNV" 5333 [RayTracingNV] [] 0 0
  ; X "IncomingRayFlagsNV" 5351 [RayTracingNV] [] 0 0
  ].
(** The enumerator of a value of the [Capability] column, when there is one. *)
Definition getCapabilityOfValue (v : Z) : option Capability :=
  find (fun c => getCapabilityValue c =? v) DEF_Capability.

Lemma getCapabilityOfValue_Value (c : Capability) :
  getCapabilityOfValue (getCapabilityValue c) = Some c.
Proof. destruct c; reflexivity. Qed.

Lemma getCapabilityValue_inj (a b : Capability) :
  getCapabilityValue a = getCapabilityValue b -> a = b.
Proof.
  intros E. pose proof (getCapabilityOfValue_Value a) as Ha.
  rewrite E, getCapabilityOfValue_Value in Ha. congruence.
Qed.

#[global] Instance Capability_eq_dec : EqDecision Capability.
Proof.
  intros a b.
  destruct (Z.eq_dec (getCapabilityValue a) (getCapabilityValue b)) as [E|N].
  - left. exact (getCapabilityValue_inj a b E).
  - right. intros ->. exact (N eq_refl).
Defined.

#[global] Instance Capability_countable : Countable Capability :=
  inj_countable getCapabilityValue getCapabilityOfValue
    getCapabilityOfValue_Value.

Lemma DEF_Capability_complete (c : Capability) : c ∈ DEF_Capability.
Proof.
  assert (existsb (fun d => bool_decide (d = c)) DEF_Capability = true) as H
    by (destruct c; reflexivity).
  apply existsb_exists in H as (d & Hd & E).
  apply bool_decide_eq_true in E as <-. by apply list_elem_of_In.
Qed.

Lemma DEF_Capability_NoDup : NoDup DEF_Capability.
Proof.
  apply (bool_decide_eq_true_1 (NoDup DEF_Capability)). vm_compute. reflexivity.
Qed.

(** ** SPIRVSubtarget.cpp: version numbers *)

Definition uint8 (x : Z) : Z := x mod 2 ^ 8.
Definition uint32 (x : Z) : Z := x mod 2 ^ 32.

(** [v(Maj, Min, Rev)]: a version as the 32-bit integer |0|Maj|Min|Rev|. *)
Definition v (Maj Min Rev : Z) : Z :=
  uint32 (Z.lor (Z.lor (Z.shiftl (uint8 Maj) 16) (Z.shiftl (uint8 Min) 8))
                (uint8 Rev)).

(** [isAtLeastVer]: compare version numbers, 0 meaning unspecified. *)
Definition isAtLeastVer (target verToCompareTo : Z) : bool :=
  (target =? 0) || (verToCompareTo <=? target).

(** ** SPIRVSubtarget.cpp: the capability flags and the available set *)

(** The part of the subtarget the capability functions work on: the flags
    [Has<Var>] (the set of [Var] whose flag is true) and [availableCaps].
    [expanded] is a ghost log: it records, in order, every capability whose
    [Caps] column was handed to [enableFeatureCapabilities]. *)
Record CapabilityState : Type := mkCapabilityState {
  Has : gset Capability;
  availableCaps : gset Capability;
  expanded : list Capability
}.

Definition noCapabilities : CapabilityState := mkCapabilityState ∅ ∅ [].

Definition setHas (c : Capability) (st : CapabilityState) : CapabilityState :=
  mkCapabilityState ({[c]} ∪ Has st) (availableCaps st) (expanded st).

(** [availableCaps.insert(c)] when it reports a new element, followed by the
    entry in the log. *)
Definition insertCap (c : Capability) (st : CapabilityState) : CapabilityState :=
  mkCapabilityState (Has st) ({[c]} ∪ availableCaps st) (expanded st ++ [c]).

Definition eraseCap (c : Capability) (st : CapabilityState) : CapabilityState :=
  mkCapabilityState (Has st) (availableCaps st ∖ {[c]}) (expanded st).

(** A [for] loop over a list whose body may fail to return. *)
Fixpoint forEach {A S : Type} (body : A -> S -> option S) (l : list A)
    (st : S) : option S :=
  match l with
  | [] => Some st
  | a :: l' =>
      match body a st with
      | Some st' => forEach body l' st'
      | None => None
      end
  end.

Section Closure.

(** The [Caps] column of [DEF_Capability], which the macros of
    [enableFeatureCapability] and [updateCapabilitiesFromFeatures] read. *)
Variable CapabilityCaps : Capability -> list Capability.

(** [enableFeatureCapability] and, through [forEach], the loop of
    [enableFeatureCapabilities].  [depth] bounds the nesting of the
    recursive calls; [None] means that the bound was hit. *)
Fixpoint enableFeatureCapability (depth : nat) (Cap : Capability)
    (st : CapabilityState) : option CapabilityState :=
  match depth with
  | O => None
  | S depth' =>
      if decide (Cap ∈ Has st) then Some st
      else
        let st := setHas Cap st in
        if decide (Cap ∈ availableCaps st) then Some st
        else forEach (enableFeatureCapability depth') (CapabilityCaps Cap)
               (insertCap Cap st)
  end.

Definition enableFeatureCapabilities (depth : nat) (l : list Capability)
    (st : CapabilityState) : option CapabilityState :=
  forEach (enableFeatureCapability depth) l st.

(** One expansion of [MAKE_CAP_FEATURE_CASE] in
    [updateCapabilitiesFromFeatures]. *)
Definition updateCapabilityFromFeature (depth : nat) (c : Capability)
    (st : CapabilityState) : option CapabilityState :=
  if decide (c ∈ Has st) then
    if decide (c ∈ availableCaps st) then Some st
    else enableFeatureCapabilities depth (CapabilityCaps c) (insertCap c st)
  else if decide (availableCaps st = ∅) then Some st
  else Some (eraseCap c st).

Definition updateCapabilitiesFromFeatures (depth : nat)
    (st : CapabilityState) : option CapabilityState :=
  forEach (updateCapabilityFromFeature depth) DEF_Capability st.

(** [b] is a direct prerequisite of [a]. *)
Definition prerequisite (a b : Capability) : Prop := b ∈ CapabilityCaps a.

(** [X] contains the prerequisites of each of its members. *)
Definition closedUnderCaps (X : gset Capability) : Prop :=
  forall a b, a ∈ X -> prerequisite a b -> b ∈ X.

End Closure.

(** A bound on the nesting of [enableFeatureCapability]: a call that goes one
    level deeper has set one more flag. *)
Definition recursionBound : nat := S (length DEF_Capability).

(** ** SPIRVSubtarget.cpp: the subtarget *)

Inductive ArchType : Set := spirv32 | spirv64 | otherArch.

(** What the subtarget asks of the target triple. *)
Record Triple : Set := mkTriple {
  getArch : ArchType;
  isSPIRVLogical : bool;
  isVulkanEnvironment : bool;
  isOpenCLEnvironment : bool
}.

Inductive ExtInstSet : Set :=
  | OpenCL_std | GLSL_std_450 | ExtInst_SPV_AMD_shader_trinary_minmax.

#[global] Instance ExtInstSet_eq_dec : EqDecision ExtInstSet.
Proof. solve_decision. Defined.

Record SPIRVSubtarget : Type := mkSPIRVSubtarget {
  pointerSize : Z;
  usesLogicalAddressing : bool;
  usesVulkanEnv : bool;
  usesOpenCLEnv : bool;
  targetSPIRVVersion : Z;
  targetOpenCLVersion : Z;
  targetVulkanVersion : Z;
  openCLFullProfile : bool;
  openCLImageSupport : bool;
  availableExtensions : list Extension;
  availableExtInstSets : list ExtInstSet;
  capabilities : CapabilityState
}.

Definition computePointerSize (TT : Triple) : Z :=
  match getArch TT with spirv32 => 32 | spirv64 => 64 | otherArch => 8 end.

Definition computeTargetSPIRVVersion (TT : Triple) : Z := v 1 4 0.

Definition computeTargetOpenCLVersion (TT : Triple) : Z :=
  if isVulkanEnvironment TT then 0 else v 2 2 0.

Definition computeTargetVulkanVersion (TT : Triple) : Z :=
  if isVulkanEnvironment TT then v 1 1 0 else 0.

Definition computeOpenCLImageSupport (TT : Triple) : bool := true.
Definition computeOpenCLFullProfile (TT : Triple) : bool := true.

Definition canUseCapability (ST : SPIRVSubtarget) (c : Capability) : bool :=
  bool_decide (c ∈ availableCaps (capabilities ST)).

Definition canUseExtension (ST : SPIRVSubtarget) (e : Extension) : bool :=
  bool_decide (e ∈ availableExtensions ST).

Definition isLogicalAddressing (ST : SPIRVSubtarget) : bool :=
  usesLogicalAddressing ST.

Definition isKernel (ST : SPIRVSubtarget) : bool :=
  usesOpenCLEnv ST || negb (usesLogicalAddressing ST).

Definition isShader (ST : SPIRVSubtarget) : bool :=
  usesVulkanEnv ST || usesLogicalAddressing ST.

Definition canDirectlyComparePointers (ST : SPIRVSubtarget) : bool :=
  isAtLeastVer (targetSPIRVVersion ST) (v 1 4 0).

Definition initAvailableExtensions (TT : Triple) : list Extension :=
  if isVulkanEnvironment TT then [] else [SPV_KHR_no_integer_wrap_decoration].

(** [availableExtInstSets.insert] on a set kept as a list. *)
Definition insertExtInstSet (e : ExtInstSet) (l : list ExtInstSet) :
    list ExtInstSet :=
  if bool_decide (e ∈ l) then l else l ++ [e].

Definition initAvailableExtInstSets (usesVulkan : bool)
    (exts : list Extension) : list ExtInstSet :=
  let sets := insertExtInstSet (if usesVulkan then GLSL_std_450 else OpenCL_std) [] in
  if bool_decide (SPV_AMD_shader_trinary_minmax ∈ exts)
  then insertExtInstSet ExtInst_SPV_AMD_shader_trinary_minmax sets
  else sets.

Definition setHasAll (l : list Capability) (st : CapabilityState) :
    CapabilityState :=
  foldl (fun st c => setHas c st) st l.

(** [initAvailableCapabilities]: the flags a target starts from. *)
Definition initAvailableCapabilities (TT : Triple)
    (fullProfile imageSupport : bool) (spirvVersion openCLVersion : Z)
    (st : CapabilityState) : CapabilityState :=
  if isVulkanEnvironment TT then
    setHasAll [Matrix; Shader; InputAttachment; Sampled1D; Image1D;
               SampledBuffer; ImageBuffer; ImageQuery; DerivativeControl] st
  else
    let st := setHasAll [Addresses; Float16Buffer; Int16; Int8; Kernel;
                         Linkage; Vector16] st in
    let st := if fullProfile then setHas Int64 st else st in
    let st :=
      if imageSupport then
        let st := setHasAll [ImageBasic; LiteralSampler; Image1D;
                             SampledBuffer; ImageBuffer] st in
        if isAtLeastVer openCLVersion (v 2 0 0)
        then setHas ImageReadWrite st else st
      else st in
    let st :=
      if isAtLeastVer spirvVersion (v 1 1 0)
         && isAtLeastVer openCLVersion (v 2 2 0)
      then setHas PipeStorage st else st in
    setHasAll [Float16; Float64] st.

(** The constructor.  [features] stands for the flags that
    [ParseSubtargetFeatures], which is generated, sets after
    [initSubtargetDependencies] has cleared them all. *)
Definition newSPIRVSubtarget (depth : nat) (TT : Triple)
    (features : gset Capability) : option SPIRVSubtarget :=
  let spirvVersion := computeTargetSPIRVVersion TT in
  let openCLVersion := computeTargetOpenCLVersion TT in
  let fullProfile := computeOpenCLFullProfile TT in
  let imageSupport := computeOpenCLImageSupport TT in
  let exts := initAvailableExtensions TT in
  let sets := initAvailableExtInstSets (isVulkanEnvironment TT) exts in
  let st := mkCapabilityState features ∅ [] in
  let st := initAvailableCapabilities TT fullProfile imageSupport
              spirvVersion openCLVersion st in
  match updateCapabilitiesFromFeatures getCapabilityCapabilities depth st with
  | Some st =>
      Some (mkSPIRVSubtarget (computePointerSize TT) (isSPIRVLogical TT)
              (isVulkanEnvironment TT) (isOpenCLEnvironment TT)
              spirvVersion openCLVersion (computeTargetVulkanVersion TT)
              fullProfile imageSupport exts sets st)
  | None => None
  end.

(** The two targets the constructor is written for, and the subtargets it
    makes of them when no feature flag is given. *)
Definition vulkanTriple : Triple := mkTriple otherArch true true false.
Definition openCLTriple : Triple := mkTriple spirv64 false false true.

Definition vulkanCaps : list Capability :=
  [Matrix; Shader; InputAttachment; Sampled1D; Image1D; SampledBuffer;
   ImageBuffer; ImageQuery; DerivativeControl].

Definition openCLCaps : list Capability :=
  [Addresses; Linkage; Kernel; Vector16; Float16Buffer; Float16; Float64;
   Int64; ImageBasic; ImageReadWrite; LiteralSampler; Int16; Int8; Image1D;
   Sampled1D; SampledBuffer; ImageBuffer; PipeStorage; Pipes].

Definition vulkanSubtarget : SPIRVSubtarget :=
  mkSPIRVSubtarget 8 true true false (v 1 4 0) 0 (v 1 1 0) true true []
    [GLSL_std_450]
    (mkCapabilityState (list_to_set vulkanCaps) (list_to_set vulkanCaps)
       vulkanCaps).

Definition openCLSubtarget : SPIRVSubtarget :=
  mkSPIRVSubtarget 64 false false true (v 1 4 0) (v 2 2 0) 0 true true
    [SPV_KHR_no_integer_wrap_decoration] [OpenCL_std]
    (mkCapabilityState (list_to_set openCLCaps) (list_to_set openCLCaps)
       openCLCaps).

(** ** Machine instructions *)

Module SPIRV.
(** The opcodes [addInstrRequirements] and the pass name; [OtherOpcode]
    stands for every other one. *)
Inductive Opcode : Set :=
  | OpMemoryModel | OpEntryPoint | OpExecutionMode | OpExecutionModeId
  | OpTypeMatrix | OpTypeInt | OpTypeFloat | OpTypeVector | OpTypePointer
  | OpTypeRuntimeArray | OpTypeOpaque | OpTypeEvent | OpTypePipe
  | OpTypeReserveId | OpTypeDeviceEvent | OpTypeQueue
  | OpDecorate | OpDecorateId | OpDecorateString
  | OpMemberDecorate | OpMemberDecorateString
  | OpInBoundsPtrAccessChain | OpConstantSampler | OpTypeImage
  | OpTypeSampler | OpTypeForwardPointer
  | OpSelect | OpPhi | OpFunctionCall | OpPtrAccessChain | OpLoad
  | OpConstantNull
  | OpCapability | OpExtension
  | OtherOpcode (n : N).

#[global] Instance Opcode_eq_dec : EqDecision Opcode.
Proof. solve_decision. Defined.
End SPIRV.
Import SPIRV.

Definition Register : Set := N.

Inductive MachineOperand : Set :=
  | MO_Register (Reg : Register)
  | MO_Immediate (Imm : Z).

Record MachineInstr : Set := mkMachineInstr {
  getOpcode : Opcode;
  operands : list MachineOperand
}.

Definition getNumOperands (MI : MachineInstr) : nat := length (operands MI).

(** [getVRegDef]: the instruction that defines a virtual register. *)
Definition MachineRegisterInfo : Type := gmap Register MachineInstr.

Definition MachineBasicBlock : Type := list MachineInstr.

Record MachineFunction : Type := mkMachineFunction {
  getRegInfo : MachineRegisterInfo;
  blocks : list MachineBasicBlock
}.

(** ** Requirements and errors *)

(** Modelled from the spec: the requirement spec of an enumerated constant
    (the type [SPIRVRequirements] is not part of the sources at hand): one
    or more alternative capability sets, the required extensions and the
    version window in which the extension is part of the core format. *)
Record SPIRVRequirements : Set := mkRequirements {
  alternatives : list (list Capability);
  reqExtensions : list Extension;
  minVersion : Z;
  maxVersion : Z
}.

(** Modelled from the spec: the error kinds of a resolution (the handler
    that raises them is not part of the sources at hand), and the two
    assertions of [MachineOperand] and [MachineRegisterInfo] the pass can
    trip besides a missing operand.  [NoFirstInstruction] is the fault of
    the pass where it takes the first instruction of the first block of a
    function that has none. *)
Inductive Error : Set :=
  | UnmetCapabilityRequirement (r : SPIRVRequirements)
  | UnmetExtensionRequirement (e : Extension)
  | MalformedInstruction
  | CyclicDependency
  | WrongOperandAccessor
  | UndefinedRegister
  | NoFirstInstruction.

(** A call the requirement pass makes on the handler [reqs]. *)
Inductive Request : Set :=
  | ReqAddCapability (c : Capability)
  | ReqAddRequirements (r : SPIRVRequirements).

(** Modelled from the spec: the alternative capability sets a [Caps] column
    of a requirement table stands for ([SPIRVEnumRequirements] is not part
    of the sources at hand).  Any one listed capability suffices; an empty
    column asks for nothing. *)
Definition alternativesOf (caps : list Capability) : list (list Capability) :=
  match caps with
  | [] => [[]]
  | _ => map (fun c => [c]) caps
  end.

(** Modelled from the spec: the requirement spec of a constant that asks
    for nothing ([SPIRVEnumRequirements] is not part of the sources at
    hand). *)
Definition noRequirements : SPIRVRequirements := mkRequirements [[]] [] 0 0.

(** Modelled from the spec: the lookup of the requirement spec of the
    constant numbered [i] in a table of [SPIRVEnums.h]
    ([SPIRVEnumRequirements] is not part of the sources at hand).  A number
    without a row has no requirement. *)
Definition getEnumRequirements (table : list EnumEntry) (i : Z) :
    SPIRVRequirements :=
  match find (fun e => Val e =? i) table with
  | Some e =>
      mkRequirements (alternativesOf (Caps e)) (Exts e) (MinVer e) (MaxVer e)
  | None => noRequirements
  end.

(** Modelled from the spec: [getAddressingModelRequirements] of
    [SPIRVEnumRequirements], which is not part of the sources at hand. *)
Definition getAddressingModelRequirements (i : Z) (ST : SPIRVSubtarget) :
    SPIRVRequirements :=
  getEnumRequirements DEF_AddressingModel i.
(** Modelled from the spec: [getMemoryModelRequirements] of
    [SPIRVEnumRequirements], which is not part of the sources at hand. *)
Definition getMemoryModelRequirements (i : Z) (ST : SPIRVSubtarget) :
    SPIRVRequirements :=
  getEnumRequirements DEF_MemoryModel i.
(** Modelled from the spec: [getExecutionModelRequirements] of
    [SPIRVEnumRequirements], which is not part of the sources at hand. *)
Definition getExecutionModelRequirements (i : Z) (ST : SPIRVSubtarget) :
    SPIRVRequirements :=
  getEnumRequirements DEF_ExecutionModel i.
(** Modelled from the spec: [getExecutionModeRequirements] of
    [SPIRVEnumRequirements], which is not part of the sources at hand. *)
Definition getExecutionModeRequirements (i : Z) (ST : SPIRVSubtarget) :
    SPIRVRequirements :=
  getEnumRequirements DEF_ExecutionMode i.
(** Modelled from the spec: [getStorageClassRequirements] of
    [SPIRVEnumRequirements], which is not part of the sources at hand. *)
Definition getStorageClassRequirements (i : Z) (ST : SPIRVSubtarget) :
    SPIRVRequirements :=
  getEnumRequirements DEF_StorageClass i.
(** Modelled from the spec: [getDecorationRequirements] of
    [SPIRVEnumRequirements], which is not part of the sources at hand. *)
Definition getDecorationRequirements (i : Z) (ST : SPIRVSubtarget) :
    SPIRVRequirements :=
  getEnumRequirements DEF_Decoration i.
(** Modelled from the spec: [getBuiltInRequirements] of
    [SPIRVEnumRequirements], which is not part of the sources at hand. *)
Definition getBuiltInRequirements (i : Z) (ST : SPIRVSubtarget) :
    SPIRVRequirements :=
  getEnumRequirements DEF_BuiltIn i.
(** Modelled from the spec: [getImageFormatRequirements] of
    [SPIRVEnumRequirements], which is not part of the sources at hand. *)
Definition getImageFormatRequirements (i : Z) (ST : SPIRVSubtarget) :
    SPIRVRequirements :=
  getEnumRequirements DEF_ImageFormat i.

(** Modelled from the spec: the requirement a single capability converts to
    where the pass hands a [Capability] to [addRequirements]. *)
Definition capabilityRequirements (c : Capability) : SPIRVRequirements :=
  mkRequirements [[c]] [] 0 0.

(** The enumerators of [SPIRVEnums.h] the pass names. *)
Inductive Dim : Set :=
  | DIM_1D | DIM_2D | DIM_3D | DIM_Cube | DIM_Rect | DIM_Buffer
  | DIM_SubpassData.

(** [static_cast<Dim>] of a 32-bit value; [None] for a value that is no
    enumerator, which no [case] of a [switch] matches. *)
Definition toDim (x : Z) : option Dim :=
  match x with
  | 0 => Some DIM_1D
  | 1 => Some DIM_2D
  | 2 => Some DIM_3D
  | 3 => Some DIM_Cube
  | 4 => Some DIM_Rect
  | 5 => Some DIM_Buffer
  | 6 => Some DIM_SubpassData
  | _ => None
  end.

Definition Decoration_BuiltIn : Z := 11.
Definition AccessQualifier_ReadWrite : Z := 2.

(** ** SPIRVAddRequirementsPass.cpp: from an instruction to requests *)

(** The pass only ever writes to the handler, so what it does for one
    instruction is the list of calls it makes, in order, and how it ends:
    normally, or in a fault (a failed assertion) after those calls. *)
Definition Mapper (A : Type) : Type := (list Request * (Error + A))%type.

Definition mret {A} (a : A) : Mapper A := ([], inr a).

Definition mbind {A B} (m : Mapper A) (k : A -> Mapper B) : Mapper B :=
  match m with
  | (l, inl e) => (l, inl e)
  | (l, inr a) => let '(l', r) := k a in (l ++ l', r)
  end.

Definition fault {A} (e : Error) : Mapper A := ([], inl e).
Definition request (r : Request) : Mapper unit := ([r], inr tt).

Declare Scope mapper_scope.
Delimit Scope mapper_scope with mapper.
Notation "x <- m ;; k" := (mbind m (fun x => k))
  (at level 100, m at next level, right associativity) : mapper_scope.
Notation "m ;; k" := (mbind m (fun _ => k))
  (at level 100, right associativity) : mapper_scope.
Local Open Scope mapper_scope.

(** The requests issued, and whether the instruction was mapped without a
    fault. *)
Definition requests {A} (m : Mapper A) : list Request := fst m.
Definition faultOf {A} (m : Mapper A) : option Error :=
  match snd m with inl e => Some e | inr _ => None end.

(** [MI.getOperand(i)] asserts that [i] is in range. *)
Definition getOperand (MI : MachineInstr) (i : nat) : Mapper MachineOperand :=
  match operands MI !! i with
  | Some o => mret o
  | None => fault MalformedInstruction
  end.

(** [getImm] and [getReg] assert the kind of the operand. *)
Definition getImm (o : MachineOperand) : Mapper Z :=
  match o with
  | MO_Immediate i => mret i
  | MO_Register _ => fault WrongOperandAccessor
  end.

Definition getReg (o : MachineOperand) : Mapper Register :=
  match o with
  | MO_Register r => mret r
  | MO_Immediate _ => fault WrongOperandAccessor
  end.

Definition getImmAt (MI : MachineInstr) (i : nat) : Mapper Z :=
  o <- getOperand MI i ;; getImm o.

Definition addCapabilityReq (c : Capability) : Mapper unit :=
  request (ReqAddCapability c).
Definition addRequirementsReq (r : SPIRVRequirements) : Mapper unit :=
  request (ReqAddRequirements r).

(** VariablePointers if the instruction defines a pointer (Logical only). *)
Definition addVariablePtrInstrReqs (MI : MachineInstr)
    (MRI : MachineRegisterInfo) (ST : SPIRVSubtarget) : Mapper unit :=
  if isLogicalAddressing ST then
    o <- getOperand MI 1 ;;
    type <- getReg o ;;
    match MRI !! type with
    | None => fault UndefinedRegister
    | Some def =>
        if decide (getOpcode def = OpTypePointer)
        then addCapabilityReq VariablePointers
        else mret tt
    end
  else mret tt.

Definition addOpDecorateReqs (MI : MachineInstr) (decIndex : nat)
    (ST : SPIRVSubtarget) : Mapper unit :=
  decOp <- getImmAt MI decIndex ;;
  addRequirementsReq (getDecorationRequirements decOp ST) ;;
  if decOp =? Decoration_BuiltIn then
    builtInOp <- getImmAt MI (decIndex + 1) ;;
    addRequirementsReq (getBuiltInRequirements builtInOp ST)
  else mret tt.

Definition addOpTypeImageReqs (MI : MachineInstr) (ST : SPIRVSubtarget) :
    Mapper unit :=
  if negb (8 <=? getNumOperands MI)%nat then fault MalformedInstruction
  else
    imgFormatOp <- getImmAt MI 7 ;;
    let imgFormat := uint32 imgFormatOp in
    addRequirementsReq (getImageFormatRequirements (uint32 imgFormat) ST) ;;
    arrayed <- getImmAt MI 4 ;;
    let isArrayed := arrayed =? 1 in
    multisampled <- getImmAt MI 5 ;;
    let isMultisampled := multisampled =? 1 in
    sampled <- getImmAt MI 6 ;;
    let noSampler := sampled =? 2 in
    dimOp <- getImmAt MI 2 ;;
    match toDim (uint32 dimOp) with
    | Some DIM_1D =>
        addRequirementsReq
          (capabilityRequirements (if noSampler then Image1D else Sampled1D))
    | Some DIM_2D =>
        if isMultisampled && noSampler
        then addRequirementsReq (capabilityRequirements ImageMSArray)
        else mret tt
    | Some DIM_3D => mret tt
    | Some DIM_Cube =>
        addRequirementsReq (capabilityRequirements Shader) ;;
        if isArrayed then
          addRequirementsReq
            (capabilityRequirements
               (if noSampler then ImageCubeArray else SampledCubeArray))
        else mret tt
    | Some DIM_Rect =>
        addRequirementsReq
          (capabilityRequirements (if noSampler then ImageRect else SampledRect))
    | Some DIM_Buffer =>
        addRequirementsReq
          (capabilityRequirements
             (if noSampler then ImageBuffer else SampledBuffer))
    | Some DIM_SubpassData =>
        addRequirementsReq (capabilityRequirements InputAttachment)
    | None => mret tt
    end ;;
    if isKernel ST then
      if (8 <? getNumOperands MI)%nat then
        access <- getImmAt MI 8 ;;
        if access =? AccessQualifier_ReadWrite
        then addRequirementsReq (capabilityRequirements ImageReadWrite)
        else addRequirementsReq (capabilityRequirements ImageBasic)
      else addRequirementsReq (capabilityRequirements ImageBasic)
    else mret tt.

Definition addInstrRequirements (MI : MachineInstr)
    (MRI : MachineRegisterInfo) (ST : SPIRVSubtarget) : Mapper unit :=
  match getOpcode MI with
  | OpMemoryModel =>
      addr <- getImmAt MI 0 ;;
      addRequirementsReq (getAddressingModelRequirements addr ST) ;;
      mem <- getImmAt MI 1 ;;
      addRequirementsReq (getMemoryModelRequirements mem ST)
  | OpEntryPoint =>
      exe <- getImmAt MI 0 ;;
      addRequirementsReq (getExecutionModelRequirements exe ST)
  | OpExecutionMode | OpExecutionModeId =>
      exe <- getImmAt MI 1 ;;
      addRequirementsReq (getExecutionModeRequirements exe ST)
  | OpTypeMatrix => addCapabilityReq Matrix
  | OpTypeInt =>
      imm <- getImmAt MI 1 ;;
      let bitWidth := uint32 imm in
      if bitWidth =? 64 then addCapabilityReq Int64
      else if bitWidth =? 16 then addCapabilityReq Int16
      else if bitWidth =? 8 then addCapabilityReq Int8
      else mret tt
  | OpTypeFloat =>
      imm <- getImmAt MI 1 ;;
      let bitWidth := uint32 imm in
      if bitWidth =? 64 then addCapabilityReq Float64
      else if bitWidth =? 16 then addCapabilityReq Float16
      else mret tt
  | OpTypeVector =>
      imm <- getImmAt MI 2 ;;
      let numComponents := uint32 imm in
      if (numComponents =? 8) || (numComponents =? 16)
      then addCapabilityReq Vector16
      else mret tt
  | OpTypePointer =>
      sc <- getImmAt MI 1 ;;
      addRequirementsReq (getStorageClassRequirements sc ST)
  | OpTypeRuntimeArray => addCapabilityReq Shader
  | OpTypeOpaque | OpTypeEvent => addCapabilityReq Kernel
  | OpTypePipe | OpTypeReserveId => addCapabilityReq Pipes
  | OpTypeDeviceEvent | OpTypeQueue => addCapabilityReq DeviceEnqueue
  | OpDecorate | OpDecorateId | OpDecorateString => addOpDecorateReqs MI 1 ST
  | OpMemberDecorate | OpMemberDecorateString => addOpDecorateReqs MI 2 ST
  | OpInBoundsPtrAccessChain => addCapabilityReq Addresses
  | OpConstantSampler => addCapabilityReq LiteralSampler
  | OpTypeImage => addOpTypeImageReqs MI ST
  | OpTypeSampler => addCapabilityReq ImageBasic
  | OpTypeForwardPointer =>
      if isKernel ST then addCapabilityReq Addresses
      else addCapabilityReq PhysicalStorageBufferAddresses
  | OpSelect | OpPhi | OpFunctionCall | OpPtrAccessChain | OpLoad
  | OpConstantNull => addVariablePtrInstrReqs MI MRI ST
  | _ => mret tt
  end.

(** ** The requirement handler *)

(** Modelled from the spec: the Requirement Accumulator (the class
    [SPIRVRequirementHandler] of [SPIRVCapabilityUtils] is not part of the
    sources at hand): an insertion-ordered set of enabled capabilities and
    an insertion-ordered set of required extensions, read through
    [getMinimalCapabilities] and [getExtensions]. *)
Record SPIRVRequirementHandler : Set := mkHandler {
  getMinimalCapabilities : list Capability;
  getExtensions : list Extension
}.

(** Modelled from the spec: a fresh accumulator, both sets empty. *)
Definition newHandler : SPIRVRequirementHandler := mkHandler [] [].

(** Modelled from the spec: the Closure Algorithm
    [enableCapability(c, enabledSet, graph)] on an insertion-ordered set:
    nothing to do for a member; otherwise insert [c], then enable each
    direct prerequisite of [c].  [depth] bounds the nesting of the calls. *)
Fixpoint enableCapability (graph : Capability -> list Capability)
    (depth : nat) (c : Capability) (enabledSet : list Capability) :
    option (list Capability) :=
  match depth with
  | O => None
  | S depth' =>
      if decide (c ∈ enabledSet) then Some enabledSet
      else forEach (enableCapability graph depth') (graph c)
             (enabledSet ++ [c])
  end.

(** Modelled from the spec: what a call on the handler, whose class is not
    part of the sources at hand, leaves behind: the handler, and the error
    it raised if it failed. *)
Definition Action : Type :=
  SPIRVRequirementHandler -> option Error * SPIRVRequirementHandler.

Definition done_ : Action := fun h => (None, h).
Definition raise (e : Error) : Action := fun h => (Some e, h).

(** Sequencing: an error ends the sequence. *)
Definition andThen (a b : Action) : Action :=
  fun h => match a h with
           | (None, h') => b h'
           | (Some e, h') => (Some e, h')
           end.

Definition forEachAction {A} (body : A -> Action) (l : list A) : Action :=
  foldr (fun a rest => andThen (body a) rest) done_ l.

(** Modelled from the spec: [addCapability(c)] is the Closure Algorithm
    run on the accumulator's capability set.  A closure that does not end
    within [recursionBound] nested calls is reported as a cyclic
    dependency. *)
Definition addCapability (c : Capability) : Action :=
  fun h =>
    match enableCapability getCapabilityCapabilities recursionBound c
            (getMinimalCapabilities h) with
    | Some caps => (None, mkHandler caps (getExtensions h))
    | None => (Some CyclicDependency, h)
    end.

(** Modelled from the spec: insertion into the insertion-ordered set of
    required extensions of the handler, which is not part of the sources at
    hand. *)
Definition addExtension (e : Extension) : Action :=
  fun h =>
    (None,
     if decide (e ∈ getExtensions h) then h
     else mkHandler (getMinimalCapabilities h) (getExtensions h ++ [e])).

(** Modelled from the spec: whether an alternative set is within the
    enabled set, and whether all of it is available on the target. *)
Definition alreadyEnabled (h : SPIRVRequirementHandler)
    (alt : list Capability) : bool :=
  forallb (fun c => bool_decide (c ∈ getMinimalCapabilities h)) alt.

Definition allAvailable (ST : SPIRVSubtarget) (alt : list Capability) : bool :=
  forallb (canUseCapability ST) alt.

(** Modelled from the spec: the target version falls inside
    [[minVersion, maxVersion]], a bound of 0 being no bound. *)
Definition versionInWindow (target minVer maxVer : Z) : bool :=
  ((minVer =? 0) || (minVer <=? target))
  && ((maxVer =? 0) || (target <=? maxVer)).

(** Modelled from the spec: the capability half of [addRequirements]: done
    if some alternative is already enabled; else the first alternative that
    is wholly available is enabled through the Closure Algorithm; else the
    requirement is unmet. *)
Definition addRequiredCapabilities (ST : SPIRVSubtarget)
    (r : SPIRVRequirements) : Action :=
  fun h =>
    if existsb (alreadyEnabled h) (alternatives r) then (None, h)
    else
      match find (allAvailable ST) (alternatives r) with
      | Some alt => forEachAction addCapability alt h
      | None => (Some (UnmetCapabilityRequirement r), h)
      end.

(** Modelled from the spec: an extension is added if it is available, and
    is an unmet requirement if not. *)
Definition requireExtension (ST : SPIRVSubtarget) (e : Extension) : Action :=
  if canUseExtension ST e then addExtension e
  else raise (UnmetExtensionRequirement e).

(** Modelled from the spec: the extension half of [addRequirements]: when
    the target version is outside the window, each extension is required. *)
Definition addRequiredExtensions (ST : SPIRVSubtarget)
    (r : SPIRVRequirements) : Action :=
  if versionInWindow (targetSPIRVVersion ST) (minVersion r) (maxVersion r)
  then done_
  else forEachAction (requireExtension ST) (reqExtensions r).

(** Modelled from the spec:
    [addRequirements(alternativeSets, extensions, minVersion, maxVersion)],
    resolved against the target [ST]. *)
Definition addRequirements (ST : SPIRVSubtarget) (r : SPIRVRequirements) :
    Action :=
  andThen (addRequiredCapabilities ST r) (addRequiredExtensions ST r).

(** A request of the pass, carried out on the handler: the call
    [reqs.addCapability(c)] or [reqs.addRequirements(r)]. *)
Definition perform (ST : SPIRVSubtarget) (q : Request) : Action :=
  match q with
  | ReqAddCapability c => addCapability c
  | ReqAddRequirements r => addRequirements ST r
  end.

(** The effect of [addInstrRequirements(MI, reqs, ST)] on [reqs]: the
    requests in the order they are made, then the fault if there is one. *)
Definition run {A} (ST : SPIRVSubtarget) (m : Mapper A) : Action :=
  andThen (forEachAction (perform ST) (requests m))
    (match faultOf m with Some e => raise e | None => done_ end).

Definition processInstr (ST : SPIRVSubtarget) (MRI : MachineRegisterInfo)
    (MI : MachineInstr) : Action :=
  run ST (addInstrRequirements MI MRI ST).

(** ** SPIRVAddRequirementsPass.cpp: the pass *)

(** The loop of [runOnMachineFunction] over all instructions of all blocks,
    from a fresh handler. *)
Definition resolveFunction (MF : MachineFunction) (ST : SPIRVSubtarget) :
    option Error * SPIRVRequirementHandler :=
  forEachAction (processInstr ST (getRegInfo MF)) (concat (blocks MF))
    newHandler.

(** The instructions the pass builds at the start of the function. *)
Inductive Declaration : Set :=
  | DeclareCapability (id : Z)
  | DeclareExtension (ext : Extension).

Definition declarations (h : SPIRVRequirementHandler) : list Declaration :=
  map (fun cap => DeclareCapability (uint32 (getCapabilityValue cap)))
      (getMinimalCapabilities h)
  ++ map DeclareExtension (getExtensions h).

(** After the loop the pass sets its builder at [*MBB->begin()], the first
    instruction of the first block [MF.begin()], and builds the
    declarations there: a function without a block, or with an empty first
    block, has no such instruction. *)
Definition runOnMachineFunction (MF : MachineFunction) (ST : SPIRVSubtarget) :
    Error + list Declaration :=
  match resolveFunction MF ST with
  | (None, h) =>
      match blocks MF with
      | (_ :: _) :: _ => inr (declarations h)
      | _ => inl NoFirstInstruction
      end
  | (Some e, _) => inl e
  end.

(** * Properties *)

(** ** The recursive enabling of capabilities *)

Section ClosureFacts.

Variable CapabilityCaps : Capability -> list Capability.

Local Abbreviation edge := (prerequisite CapabilityCaps).
Local Abbreviation enable := (enableFeatureCapability CapabilityCaps).

(** Every member of [availableCaps] outside [K] has the flags of its
    prerequisites set: the members of [K] are the capabilities whose
    expansion is still under way. *)
Definition closedExcept (K : gset Capability) (st : CapabilityState) : Prop :=
  forall x y, x ∈ availableCaps st -> x ∉ K -> edge x y -> y ∈ Has st.

(** How a run of the enabling functions started on the roots [T] relates
    the state before to the state after. *)
Record Grows (T : list Capability) (st st' : CapabilityState) : Prop := {
  grows_Has : Has st ⊆ Has st';
  grows_avail : availableCaps st ⊆ availableCaps st';
  grows_flagged : forall x, x ∈ Has st' -> x ∉ Has st ->
    x ∈ availableCaps st' /\ exists t, t ∈ T /\ rtc edge t x;
  grows_inserted : forall x, x ∈ availableCaps st' -> x ∉ availableCaps st ->
    x ∈ Has st' /\ x ∉ Has st;
  grows_roots : forall t, t ∈ T -> t ∈ Has st';
  grows_closed : forall K, closedExcept K st -> closedExcept K st';
  grows_log : exists l, expanded st' = expanded st ++ l /\ NoDup l /\
    forall x, x ∈ l <-> x ∈ availableCaps st' /\ x ∉ availableCaps st
}.

Lemma Grows_nil st : Grows [] st st.
Proof.
  split; try done; try set_solver.
  exists []. rewrite app_nil_r. split; [done|]. split; [constructor|].
  set_solver.
Qed.

Lemma Grows_cons a l st st1 st' :
  Grows [a] st st1 -> Grows l st1 st' -> Grows (a :: l) st st'.
Proof.
  intros [H1 A1 F1 I1 R1 C1 (l1 & E1 & N1 & M1)]
         [H2 A2 F2 I2 R2 C2 (l2 & E2 & N2 & M2)].
  split.
  - set_solver.
  - set_solver.
  - intros x Hx Hn. destruct (decide (x ∈ Has st1)) as [Hm|Hm].
    + destruct (F1 x Hm Hn) as (? & t & Ht & ?). split; [set_solver|].
      exists t. split; [set_solver|done].
    + destruct (F2 x Hx Hm) as (? & t & Ht & ?). split; [done|].
      exists t. split; [set_solver|done].
  - intros x Hx Hn. destruct (decide (x ∈ availableCaps st1)) as [Hm|Hm].
    + destruct (I1 x Hm Hn). set_solver.
    + destruct (I2 x Hx Hm). set_solver.
  - intros t [->|Ht]%elem_of_cons; [|by apply R2].
    apply H2, R1. set_solver.
  - intros K HK. by apply C2, C1.
  - exists (l1 ++ l2). rewrite E2, E1, app_assoc. split; [done|]. split.
    + apply NoDup_app. split; [done|]. split; [|done].
      intros x Hx1 Hx2. apply M1 in Hx1. apply M2 in Hx2. set_solver.
    + intros x. rewrite elem_of_app, M1, M2. split.
      * intros [[? ?]|[? ?]]; set_solver.
      * intros [? ?]. destruct (decide (x ∈ availableCaps st1)); set_solver.
Qed.

Lemma Grows_flagged c st : c ∈ Has st -> Grows [c] st st.
Proof.
  intros Hc. destruct (Grows_nil st) as [? ? ? ? ? ? ?].
  split; try done. set_solver.
Qed.

Lemma Grows_setHas c st :
  c ∈ availableCaps st -> Grows [c] st (setHas c st).
Proof.
  intros Hc. split; simpl.
  - set_solver.
  - done.
  - intros x Hx Hn. assert (x = c) as -> by set_solver.
    split; [done|]. exists c. split; [set_solver|done].
  - done.
  - set_solver.
  - intros K HK x y Hx Hn Hy. simpl in *. specialize (HK x y Hx Hn Hy).
    set_solver.
  - exists []. rewrite app_nil_r. split; [done|]. split; [constructor|].
    set_solver.
Qed.

Lemma Grows_insert c st st' :
  c ∉ availableCaps st ->
  Grows (CapabilityCaps c) (insertCap c (setHas c st)) st' ->
  c ∉ Has st ->
  Grows [c] st st'.
Proof.
  intros Hc [H2 A2 F2 I2 R2 C2 (l2 & E2 & N2 & M2)] Hf. simpl in *.
  split.
  - set_solver.
  - set_solver.
  - intros x Hx Hn. destruct (decide (x = c)) as [->|Hne].
    + split; [set_solver|]. exists c. split; [set_solver|done].
    + destruct (F2 x Hx) as (? & t & Ht & Hr); [set_solver|].
      split; [done|]. exists c. split; [set_solver|].
      by apply rtc_l with t.
  - intros x Hx Hn. destruct (decide (x = c)) as [->|Hne].
    + split; [set_solver|done].
    + destruct (I2 x Hx); set_solver.
  - set_solver.
  - intros K HK.
    assert (closedExcept ({[c]} ∪ K) st') as HK'.
    { apply C2. intros x y Hx Hn Hy. simpl in *.
      assert (y ∈ Has st) by (apply (HK x y); set_solver). set_solver. }
    intros x y Hx Hn Hy. destruct (decide (x = c)) as [->|Hne].
    + by apply R2.
    + apply (HK' x y); set_solver.
  - exists (c :: l2). rewrite E2. simpl. rewrite <- app_assoc. split; [done|].
    split.
    + constructor; [|done]. rewrite M2. set_solver.
    + intros x. rewrite elem_of_cons, M2. split.
      * intros [->|[? ?]]; set_solver.
      * intros [? ?]. destruct (decide (x = c)); set_solver.
Qed.

Lemma forEach_Grows (body : Capability -> CapabilityState -> option CapabilityState) :
  (forall c st st', body c st = Some st' -> Grows [c] st st') ->
  forall l st st', forEach body l st = Some st' -> Grows l st st'.
Proof.
  intros Hbody l. induction l as [|a l IH]; intros st st' E; simpl in E.
  - injection E as <-. apply Grows_nil.
  - destruct (body a st) as [st1|] eqn:E1; [|done].
    eapply Grows_cons; eauto.
Qed.

Lemma enableFeatureCapability_S depth c st :
  enable (S depth) c st =
  if decide (c ∈ Has st) then Some st
  else if decide (c ∈ availableCaps st) then Some (setHas c st)
  else forEach (enable depth) (CapabilityCaps c) (insertCap c (setHas c st)).
Proof. reflexivity. Qed.

Lemma enableFeatureCapability_Grows depth c st st' :
  enable depth c st = Some st' -> Grows [c] st st'.
Proof.
  revert c st st'. induction depth as [|depth IH]; intros c st st' E;
    [done|]. rewrite enableFeatureCapability_S in E.
  destruct (decide (c ∈ Has st)) as [Hc|Hc].
  - injection E as <-. by apply Grows_flagged.
  - destruct (decide (c ∈ availableCaps st)) as [Ha|Ha].
    + injection E as <-. by apply Grows_setHas.
    + apply Grows_insert; [done| |done].
      by apply (forEach_Grows _ IH).
Qed.

Lemma enableFeatureCapabilities_Grows depth l st st' :
  enableFeatureCapabilities CapabilityCaps depth l st = Some st' ->
  Grows l st st'.
Proof. apply forEach_Grows, enableFeatureCapability_Grows. Qed.

(** *** The recursion ends *)

(** The number of flags that are not set. *)
Definition unflagged (st : CapabilityState) : nat :=
  size (list_to_set DEF_Capability ∖ Has st : gset Capability).

Lemma unflagged_bound st : (unflagged st < recursionBound)%nat.
Proof.
  unfold unflagged, recursionBound.
  rewrite <- (size_list_to_set (C := gset Capability) DEF_Capability)
    by apply DEF_Capability_NoDup.
  apply Nat.lt_succ_r, (subseteq_size (C := gset Capability)).
  generalize (list_to_set DEF_Capability : gset Capability).
  intros U. set_solver.
Qed.

Lemma unflagged_mono st st' :
  Has st ⊆ Has st' -> (unflagged st' <= unflagged st)%nat.
Proof.
  intros H. unfold unflagged.
  apply (subseteq_size (C := gset Capability)).
  generalize (list_to_set DEF_Capability : gset Capability).
  intros U. set_solver.
Qed.

Lemma unflagged_setHas c st :
  c ∉ Has st -> (unflagged (insertCap c (setHas c st)) < unflagged st)%nat.
Proof.
  intros Hc. unfold unflagged.
  apply (subset_size (C := gset Capability)).
  assert (c ∈ (list_to_set DEF_Capability : gset Capability)) as HU
    by apply elem_of_list_to_set, DEF_Capability_complete.
  revert HU. generalize (list_to_set DEF_Capability : gset Capability).
  intros U HU. simpl. split; [set_solver|].
  intros Hsub. specialize (Hsub c). set_solver.
Qed.

Lemma forEach_total {A S} (body : A -> S -> option S) (I : S -> Prop) :
  (forall a st, I st -> exists st', body a st = Some st' /\ I st') ->
  forall l st, I st -> exists st', forEach body l st = Some st' /\ I st'.
Proof.
  intros Hbody l. induction l as [|a l IH]; intros st HI; simpl.
  - eauto.
  - destruct (Hbody a st HI) as (st1 & -> & HI1). by apply IH.
Qed.

Lemma enableFeatureCapability_total depth c st :
  (unflagged st < depth)%nat ->
  exists st', enable depth c st = Some st' /\ (unflagged st' < depth)%nat.
Proof.
  revert c st. induction depth as [|depth IH]; intros c st Hlt; [lia|].
  rewrite enableFeatureCapability_S.
  destruct (decide (c ∈ Has st)) as [Hc|Hc]; [eauto|].
  destruct (decide (c ∈ availableCaps st)) as [Ha|Ha].
  - eexists. split; [done|].
    eapply Nat.le_lt_trans; [apply unflagged_mono|exact Hlt].
    simpl. set_solver.
  - pose proof (unflagged_setHas c st Hc) as Hdec.
    destruct (forEach_total (enable depth)
                (fun s => (unflagged s < depth)%nat) IH
                (CapabilityCaps c) (insertCap c (setHas c st)))
      as (st' & E & Hlt'); [lia|].
    exists st'. split; [done|lia].
Qed.

Lemma enableFeatureCapabilities_total depth l st :
  (unflagged st < depth)%nat ->
  exists st', enableFeatureCapabilities CapabilityCaps depth l st = Some st'
              /\ (unflagged st' < depth)%nat.
Proof.
  apply (forEach_total _ (fun s => (unflagged s < depth)%nat)).
  intros a s. apply enableFeatureCapability_total.
Qed.

(** *** What enabling computes *)

(** Enabling a member of [availableCaps] leaves the set as it is. *)
Lemma enableFeatureCapability_member depth c st st' :
  c ∈ availableCaps st -> enable depth c st = Some st' ->
  availableCaps st' = availableCaps st.
Proof.
  intros Hc E. destruct depth as [|depth]; [done|].
  rewrite enableFeatureCapability_S in E.
  destruct (decide (c ∈ Has st)); [by injection E as <-|].
  destruct (decide (c ∈ availableCaps st)) as [|Hn];
    [by injection E as <-|].
  by destruct Hn.
Qed.

(** From no capabilities at all, enabling [c] yields [c] and whatever
    is reachable from it through the [Caps] column, and expands each of
    these once. *)
Lemma enableFeatureCapability_reach depth c st :
  enable depth c noCapabilities = Some st ->
  (forall x, x ∈ availableCaps st <-> rtc edge c x)
  /\ Has st = availableCaps st
  /\ NoDup (expanded st)
  /\ (forall x, x ∈ expanded st <-> x ∈ availableCaps st).
Proof.
  intros E. apply enableFeatureCapability_Grows in E.
  destruct E as [H2 A2 F2 I2 R2 C2 (l2 & E2 & N2 & M2)]. simpl in *.
  assert (Has st = availableCaps st) as HA.
  { apply set_eq. intros x. split.
    - intros Hx. by apply F2.
    - intros Hx. by apply I2. }
  assert (closedExcept ∅ st) as Hcl by (apply C2; intros x y Hx; set_solver).
  split; [|split; [done|split]].
  - intros x. split.
    + intros Hx. destruct (F2 x) as (_ & t & Ht & Hr); [by rewrite HA|done|].
      by apply list_elem_of_singleton in Ht as ->.
    + revert x. apply rtc_ind_r.
      * rewrite <- HA. apply R2. set_solver.
      * intros y z _ Hyz IH. rewrite <- HA.
        apply (Hcl y z); [done|set_solver|done].
  - by rewrite E2.
  - intros x. rewrite E2. simpl. rewrite M2. set_solver.
Qed.

End ClosureFacts.

Lemma rtc_prerequisite_ext (Caps1 Caps2 : Capability -> list Capability) :
  (forall a b, b ∈ Caps1 a -> b ∈ Caps2 a) ->
  forall c x, rtc (prerequisite Caps1) c x -> rtc (prerequisite Caps2) c x.
Proof.
  intros Hsub c x Hr. induction Hr as [|a b z Hab _ IH]; [done|].
  apply rtc_l with b; [|done]. by apply Hsub.
Qed.

(** C1. Started with no capability enabled, [enableFeatureCapability] on
    [c] returns, and leaves in [availableCaps] exactly [c] and the
    transitive prerequisites of [c] in the [Caps] column of
    [DEF_Capability].  The prerequisites of each of these capabilities are
    expanded once and of no other.  The set is the same in whatever order
    the rows list their prerequisites.  Enabling a capability that is
    already in [availableCaps] leaves the set as it is. *)
Theorem enableFeatureCapability_closure (c : Capability) (depth : nat) :
  (recursionBound <= depth)%nat ->
  exists st,
    enableFeatureCapability getCapabilityCapabilities depth c noCapabilities
      = Some st
    /\ (forall x, x ∈ availableCaps st <->
          x = c \/ tc (prerequisite getCapabilityCapabilities) c x)
    /\ NoDup (expanded st)
    /\ (forall x, x ∈ expanded st <-> x ∈ availableCaps st)
    /\ (forall Caps',
          (forall a, Caps' a ≡ₚ getCapabilityCapabilities a) ->
          exists st',
            enableFeatureCapability Caps' depth c noCapabilities = Some st'
            /\ availableCaps st' = availableCaps st)
    /\ (forall st0, c ∈ availableCaps st0 ->
          exists st1,
            enableFeatureCapability getCapabilityCapabilities depth c st0
              = Some st1
            /\ availableCaps st1 = availableCaps st0).
Proof.
  intros Hdepth.
  assert (forall st0, (unflagged st0 < depth)%nat) as Hfuel.
  { intros st0. pose proof (unflagged_bound st0). lia. }
  destruct (enableFeatureCapability_total getCapabilityCapabilities depth c
              noCapabilities (Hfuel _)) as (st & E & _).
  pose proof (enableFeatureCapability_reach _ _ _ _ E) as (Hr & _ & Hn & Hl).
  exists st. split; [done|]. split; [|split; [done|split; [done|split]]].
  - intros x. rewrite Hr, rtc_tc. naive_solver.
  - intros Caps' Hperm.
    destruct (enableFeatureCapability_total Caps' depth c noCapabilities
                (Hfuel _)) as (st' & E' & _).
    pose proof (enableFeatureCapability_reach _ _ _ _ E') as (Hr' & _).
    exists st'. split; [done|]. apply set_eq. intros x. rewrite Hr, Hr'.
    split; apply rtc_prerequisite_ext; intros a b Hb.
    + by rewrite <- (Hperm a).
    + by rewrite (Hperm a).
  - intros st0 Hc.
    destruct (enableFeatureCapability_total getCapabilityCapabilities depth c
                st0 (Hfuel _)) as (st1 & E1 & _).
    exists st1. split; [done|].
    by apply (enableFeatureCapability_member _ _ _ _ _ Hc E1).
Qed.

Lemma enableFeatureCapability_closure_witness :
  exists st,
    enableFeatureCapability getCapabilityCapabilities recursionBound Geometry
      noCapabilities = Some st
    /\ forall x, x ∈ availableCaps st <->
         x = Geometry \/ tc (prerequisite getCapabilityCapabilities) Geometry x.
Proof.
  destruct (enableFeatureCapability_closure Geometry recursionBound
              (Nat.le_refl _)) as (st & E & H & _).
  exists st. split; [exact E|exact H].
Defined.

(** ** The available capabilities of a subtarget *)

Section UpdateFacts.

Variable CapabilityCaps : Capability -> list Capability.

Local Abbreviation updateRow := (updateCapabilityFromFeature CapabilityCaps).

(** What holds between two expansions of the macro in
    [updateCapabilitiesFromFeatures], [P] being the rows already done. *)
Record Updating (P : list Capability) (st : CapabilityState) : Prop := {
  updating_flagged : availableCaps st ⊆ Has st;
  updating_closed : closedExcept CapabilityCaps ∅ st;
  updating_done : forall r, r ∈ P -> r ∈ Has st -> r ∈ availableCaps st
}.

Lemma updateCapabilityFromFeature_Updating depth r P st :
  (unflagged st < depth)%nat -> Updating P st ->
  exists st', updateRow depth r st = Some st'
    /\ (unflagged st' < depth)%nat
    /\ Has st ⊆ Has st'
    /\ Updating (r :: P) st'.
Proof.
  intros Hlt [HF HC HD]. unfold updateCapabilityFromFeature.
  destruct (decide (r ∈ Has st)) as [Hr|Hr].
  - destruct (decide (r ∈ availableCaps st)) as [Ha|Ha].
    + exists st. repeat split; try done.
      intros p [->|Hp]%elem_of_cons; auto.
    + destruct (enableFeatureCapabilities_total CapabilityCaps depth
                  (CapabilityCaps r) (insertCap r st)) as (st' & E & Hlt');
        [done|].
      exists st'. split; [done|]. split; [done|].
      apply enableFeatureCapabilities_Grows in E.
      destruct E as [H2 A2 F2 I2 R2 C2 _]. simpl in *.
      split; [done|]. split.
      * intros x Hx. destruct (decide (x ∈ {[r]} ∪ availableCaps st)).
        -- apply H2. set_solver.
        -- by apply I2.
      * assert (closedExcept CapabilityCaps {[r]} st') as HK.
        { apply C2. intros x y Hx Hn Hy. simpl in *.
          apply (HC x y); set_solver. }
        intros x y Hx _ Hy. destruct (decide (x = r)) as [->|Hne].
        -- by apply R2.
        -- apply (HK x y); set_solver.
      * intros p [->|Hp]%elem_of_cons Hflag; [set_solver|].
        destruct (decide (p ∈ Has st)) as [Hm|Hm].
        -- apply A2. specialize (HD p Hp Hm). set_solver.
        -- by apply F2.
  - assert (r ∉ availableCaps st) as Ha by set_solver.
    assert (availableCaps st ∖ {[r]} = availableCaps st) as He by set_solver.
    destruct (decide (availableCaps st = ∅)).
    + exists st. repeat split; try done.
      intros p [->|Hp]%elem_of_cons; auto. done.
    + exists (eraseCap r st). split; [done|]. split; [done|]. split; [done|].
      split; simpl; rewrite ?He; try done.
      * intros x y. simpl. rewrite He. apply HC.
      * intros p [->|Hp]%elem_of_cons; auto. done.
Qed.

Lemma updateCapabilitiesFromFeatures_Updating depth st :
  (unflagged st < depth)%nat -> Updating [] st ->
  exists st', updateCapabilitiesFromFeatures CapabilityCaps depth st = Some st'
    /\ Has st ⊆ Has st'
    /\ availableCaps st' = Has st'
    /\ closedUnderCaps CapabilityCaps (availableCaps st').
Proof.
  intros Hlt HU. unfold updateCapabilitiesFromFeatures.
  assert (forall l P s, (unflagged s < depth)%nat -> Updating P s ->
            exists s', forEach (updateRow depth) l s = Some s'
              /\ Has s ⊆ Has s' /\ Updating (reverse l ++ P) s') as Hloop.
  { intros l. induction l as [|r l IH]; intros P s Hs HP; simpl.
    - exists s. done.
    - destruct (updateCapabilityFromFeature_Updating depth r P s Hs HP)
        as (s1 & -> & Hs1 & Hsub & HP1).
      destruct (IH (r :: P) s1 Hs1 HP1) as (s' & E & Hsub' & HP').
      exists s'. split; [done|]. split; [set_solver|].
      by rewrite reverse_cons, <- app_assoc. }
  destruct (Hloop DEF_Capability [] st Hlt HU) as (st' & E & Hsub & [HF HC HD]).
  exists st'. split; [done|]. split; [done|].
  assert (availableCaps st' = Has st') as Heq.
  { apply set_eq. intros x. split; [apply HF|]. apply HD.
    rewrite app_nil_r, elem_of_reverse. apply DEF_Capability_complete. }
  split; [done|].
  intros a b Ha Hab. rewrite Heq. apply (HC a b); [done|set_solver|done].
Qed.

End UpdateFacts.

(** ** The closure on an insertion-ordered set *)

(** The capability state whose flags and available set are the members of
    the ordered set [l], and whose log is [l]: the Closure Algorithm on [l]
    and [enableFeatureCapability] on this state go through the same
    steps. *)
Definition ofOrderedSet (l : list Capability) : CapabilityState :=
  mkCapabilityState (list_to_set l) (list_to_set l) l.

Definition closedList (graph : Capability -> list Capability)
    (l : list Capability) : Prop :=
  forall a b, a ∈ l -> b ∈ graph a -> b ∈ l.

Lemma elem_of_ordered_set (x : Capability) (l : list Capability) :
  x ∈ (list_to_set l : gset Capability) <-> x ∈ l.
Proof. apply elem_of_list_to_set. Qed.

Lemma forEach_fmap {A S T} (f : A -> S -> option S) (g : A -> T -> option T)
    (emb : T -> S) :
  (forall a t, f a (emb t) = emb <$> g a t) ->
  forall l t, forEach f l (emb t) = emb <$> forEach g l t.
Proof.
  intros Hfg l. induction l as [|a l IH]; intros t; simpl; [done|].
  rewrite Hfg. destruct (g a t) as [t'|]; simpl; [apply IH|done].
Qed.

Lemma enableCapability_ofOrderedSet graph depth c l :
  enableFeatureCapability graph depth c (ofOrderedSet l)
  = ofOrderedSet <$> enableCapability graph depth c l.
Proof.
  revert c l. induction depth as [|depth IH]; intros c l; [done|].
  rewrite enableFeatureCapability_S. simpl.
  destruct (decide (c ∈ l)) as [Hc|Hc].
  - rewrite decide_True by (by apply elem_of_list_to_set). done.
  - rewrite !decide_False by (by rewrite elem_of_list_to_set).
    rewrite <- (forEach_fmap _ _ ofOrderedSet IH). f_equal.
    unfold insertCap, setHas, ofOrderedSet. simpl.
    assert (list_to_set (l ++ [c]) = ({[c]} ∪ list_to_set l : gset Capability))
      as -> by set_solver.
    done.
Qed.

(** The Closure Algorithm returns within [recursionBound] nested calls, and
    what it returns is the set it was given followed by the new members. *)
Lemma enableCapability_spec graph depth c l :
  (recursionBound <= depth)%nat ->
  exists l2,
    enableCapability graph depth c l = Some (l ++ l2)
    /\ NoDup l2
    /\ (forall x, x ∈ l2 -> x ∉ l)
    /\ (forall x, x ∈ l2 -> rtc (prerequisite graph) c x)
    /\ c ∈ l ++ l2
    /\ (closedList graph l -> closedList graph (l ++ l2)).
Proof.
  intros Hdepth.
  destruct (enableFeatureCapability_total graph depth c (ofOrderedSet l))
    as (st & E & _).
  { pose proof (unflagged_bound (ofOrderedSet l)). lia. }
  pose proof E as E'. rewrite enableCapability_ofOrderedSet in E'.
  destruct (enableCapability graph depth c l) as [l'|]; [|done].
  injection E' as <-. apply enableFeatureCapability_Grows in E.
  destruct E as [H2 A2 F2 I2 R2 C2 (l2 & E2 & N2 & M2)]. simpl in *.
  subst l'. exists l2. split; [done|]. split; [done|].
  assert (forall x, x ∈ l2 -> x ∉ l) as Hnew.
  { intros x Hx. apply M2 in Hx. set_solver. }
  split; [done|]. split; [|split].
  - intros x Hx. destruct (F2 x) as (_ & t & Ht & Hr).
    + apply elem_of_ordered_set. set_solver.
    + rewrite elem_of_ordered_set. by apply Hnew.
    + by apply list_elem_of_singleton in Ht as ->.
  - apply elem_of_ordered_set, R2. set_solver.
  - intros Hcl a b Ha Hb.
    apply elem_of_ordered_set, (C2 ∅) with a;
      [|by apply elem_of_ordered_set|set_solver|done].
    intros x y Hx _ Hy. simpl in *.
    apply elem_of_ordered_set, (Hcl x y); [|done].
    by apply elem_of_ordered_set.
Qed.

Lemma enableCapability_member graph depth c l :
  c ∈ l -> enableCapability graph (S depth) c l = Some l.
Proof. intros Hc. simpl. by rewrite decide_True. Qed.

(** ** The requirement handler *)

Local Abbreviation graph := getCapabilityCapabilities.

(** [h'] is [h] with new members added at the end of its two sets. *)
Record Extends (h h' : SPIRVRequirementHandler) : Prop := {
  extends_caps : exists lc,
    getMinimalCapabilities h' = getMinimalCapabilities h ++ lc
    /\ NoDup lc /\ forall x, x ∈ lc -> x ∉ getMinimalCapabilities h;
  extends_exts : exists le,
    getExtensions h' = getExtensions h ++ le
    /\ NoDup le /\ forall x, x ∈ le -> x ∉ getExtensions h;
  extends_closed :
    closedList graph (getMinimalCapabilities h) ->
    closedList graph (getMinimalCapabilities h')
}.

Lemma Extends_refl h : Extends h h.
Proof.
  split; [exists []|exists []|done]; rewrite app_nil_r;
    (split; [done|split; [constructor|set_solver]]).
Qed.

Lemma Extends_trans h1 h2 h3 : Extends h1 h2 -> Extends h2 h3 -> Extends h1 h3.
Proof.
  intros [(lc & Ec & Nc & Dc) (le & Ee & Ne & De) C]
         [(lc' & Ec' & Nc' & Dc') (le' & Ee' & Ne' & De') C'].
  split; [exists (lc ++ lc')|exists (le ++ le')|auto].
  - rewrite Ec', Ec, app_assoc. split; [done|]. split.
    + apply NoDup_app. split; [done|]. split; [|done].
      intros x Hx Hx'. apply (Dc' x Hx'). rewrite Ec. set_solver.
    + intros x [Hx|Hx]%elem_of_app; [by apply Dc|].
      intros Hin. apply (Dc' x Hx). rewrite Ec. set_solver.
  - rewrite Ee', Ee, app_assoc. split; [done|]. split.
    + apply NoDup_app. split; [done|]. split; [|done].
      intros x Hx Hx'. apply (De' x Hx'). rewrite Ee. set_solver.
    + intros x [Hx|Hx]%elem_of_app; [by apply De|].
      intros Hin. apply (De' x Hx). rewrite Ee. set_solver.
Qed.

Lemma Extends_caps_subseteq h h' x :
  Extends h h' -> x ∈ getMinimalCapabilities h -> x ∈ getMinimalCapabilities h'.
Proof. intros [(lc & -> & _) _ _] Hx. set_solver. Qed.

Lemma Extends_exts_subseteq h h' x :
  Extends h h' -> x ∈ getExtensions h -> x ∈ getExtensions h'.
Proof. intros [_ (le & -> & _) _] Hx. set_solver. Qed.

(** An action only ever extends the handler, also when it fails. *)
Definition Extending (a : Action) : Prop := forall h, Extends h (snd (a h)).

(** An action that has succeeded changes nothing when it is carried out
    again later. *)
Definition Stable (a : Action) : Prop :=
  forall h h1, a h = (None, h1) ->
  forall h2, Extends h1 h2 -> a h2 = (None, h2).

Lemma Extending_done : Extending done_.
Proof. intros h. apply Extends_refl. Qed.

Lemma Extending_raise e : Extending (raise e).
Proof. intros h. apply Extends_refl. Qed.

Lemma Extending_andThen a b : Extending a -> Extending b -> Extending (andThen a b).
Proof.
  intros Ha Hb h. unfold andThen. specialize (Ha h).
  destruct (a h) as [[e|] h']; simpl in *; [done|].
  eapply Extends_trans; [done|apply Hb].
Qed.

Lemma Extending_forEachAction {A} (body : A -> Action) l :
  (forall a, Extending (body a)) -> Extending (forEachAction body l).
Proof.
  intros Hbody. induction l as [|a l IH]; simpl.
  - apply Extending_done.
  - by apply Extending_andThen.
Qed.

Lemma Stable_done : Stable done_.
Proof. by intros h h1 [= <-] h2 _. Qed.

Lemma Stable_raise e : Stable (raise e).
Proof. by intros h h1 [=]. Qed.

Lemma Stable_andThen a b :
  Extending b -> Stable a -> Stable b -> Stable (andThen a b).
Proof.
  intros Eb Sa Sb h h1 E h2 Hext. unfold andThen in *.
  destruct (a h) as [[e|] h'] eqn:Ea; [done|].
  pose proof (Eb h') as Hb. rewrite E in Hb. simpl in Hb.
  rewrite (Sa h h' Ea h2) by (by eapply Extends_trans).
  by apply (Sb h' h1).
Qed.

Lemma Stable_forEachAction {A} (body : A -> Action) l :
  (forall a, Extending (body a)) -> (forall a, Stable (body a)) ->
  Stable (forEachAction body l).
Proof.
  intros Eb Sb. induction l as [|a l IH]; simpl.
  - apply Stable_done.
  - apply Stable_andThen; [by apply Extending_forEachAction|done|done].
Qed.

(** After a sequence that succeeded, every action of it has been carried
    out. *)
Lemma forEachAction_success {A} (body : A -> Action) l h h1 :
  (forall a, Extending (body a)) ->
  forEachAction body l h = (None, h1) ->
  forall a, a ∈ l -> exists h' h'', body a h' = (None, h'') /\ Extends h'' h1.
Proof.
  intros Eb. revert h. induction l as [|b l IH]; intros h E a Ha;
    [by apply elem_of_nil in Ha|].
  simpl in E. unfold andThen in E.
  destruct (body b h) as [[e|] h'] eqn:Eh; [done|].
  apply elem_of_cons in Ha as [->|Ha].
  - exists h, h'. split; [done|].
    pose proof (Extending_forEachAction body l Eb h') as Hx.
    by rewrite E in Hx.
  - by apply (IH h').
Qed.

Lemma addCapability_spec c h :
  exists l2,
    addCapability c h
      = (None, mkHandler (getMinimalCapabilities h ++ l2) (getExtensions h))
    /\ NoDup l2
    /\ (forall x, x ∈ l2 -> x ∉ getMinimalCapabilities h)
    /\ (forall x, x ∈ l2 -> rtc (prerequisite graph) c x)
    /\ c ∈ getMinimalCapabilities h ++ l2
    /\ (closedList graph (getMinimalCapabilities h) ->
        closedList graph (getMinimalCapabilities h ++ l2)).
Proof.
  destruct (enableCapability_spec graph recursionBound c
              (getMinimalCapabilities h) (Nat.le_refl _)) as (l2 & E & H).
  exists l2. unfold addCapability. by rewrite E.
Qed.

Lemma addCapability_member c h :
  c ∈ getMinimalCapabilities h -> addCapability c h = (None, h).
Proof.
  intros Hc. unfold addCapability, recursionBound.
  rewrite enableCapability_member by done. by destruct h.
Qed.

Lemma Extending_addCapability c : Extending (addCapability c).
Proof.
  intros h. destruct (addCapability_spec c h) as (l2 & -> & N & D & _ & _ & C).
  split; simpl; [by exists l2| |done].
  exists []. rewrite app_nil_r. split; [done|]. split; [constructor|set_solver].
Qed.

Lemma Stable_addCapability c : Stable (addCapability c).
Proof.
  intros h h1 E h2 Hext.
  destruct (addCapability_spec c h) as (l2 & E' & _ & _ & _ & Hc & _).
  rewrite E in E'. injection E' as ->.
  apply addCapability_member. by apply (Extends_caps_subseteq _ _ _ Hext).
Qed.

Lemma Extending_addExtension e : Extending (addExtension e).
Proof.
  intros h. unfold addExtension. simpl.
  destruct (decide (e ∈ getExtensions h)); [apply Extends_refl|].
  split; simpl; [exists []|exists [e]|done].
  - rewrite app_nil_r. split; [done|]. split; [constructor|set_solver].
  - split; [done|]. split; [apply NoDup_singleton|set_solver].
Qed.

Lemma Stable_addExtension e : Stable (addExtension e).
Proof.
  intros h h1 E h2 Hext. unfold addExtension in *.
  assert (e ∈ getExtensions h1) as He.
  { injection E as <-. destruct (decide (e ∈ getExtensions h)); [done|].
    simpl. set_solver. }
  by rewrite decide_True by (by apply (Extends_exts_subseteq _ _ _ Hext)).
Qed.

Lemma alreadyEnabled_Extends h h' alt :
  Extends h h' -> alreadyEnabled h alt = true -> alreadyEnabled h' alt = true.
Proof.
  intros Hext. unfold alreadyEnabled. rewrite !forallb_forall.
  intros H x Hx. apply bool_decide_eq_true.
  apply (Extends_caps_subseteq _ _ _ Hext).
  by apply (bool_decide_eq_true_1 _ (H x Hx)).
Qed.

Lemma Extending_addRequiredCapabilities ST r :
  Extending (addRequiredCapabilities ST r).
Proof.
  intros h. unfold addRequiredCapabilities.
  destruct (existsb _ _); [apply Extends_refl|].
  destruct (find _ _); [|apply Extends_refl].
  apply Extending_forEachAction, Extending_addCapability.
Qed.

Lemma Stable_addRequiredCapabilities ST r :
  Stable (addRequiredCapabilities ST r).
Proof.
  intros h h1 E h2 Hext. unfold addRequiredCapabilities in *.
  assert (existsb (alreadyEnabled h2) (alternatives r) = true) as ->; [|done].
  apply existsb_exists.
  destruct (existsb (alreadyEnabled h) (alternatives r)) eqn:Ex.
  - injection E as <-. apply existsb_exists in Ex as (alt & Hin & Hen).
    exists alt. split; [done|]. by apply (alreadyEnabled_Extends h).
  - destruct (find (allAvailable ST) (alternatives r)) as [alt|] eqn:Ef;
      [|done].
    apply find_some in Ef as [Hin _]. exists alt. split; [done|].
    apply forallb_forall. intros c Hc. apply bool_decide_eq_true.
    apply (Extends_caps_subseteq _ _ _ Hext).
    destruct (forEachAction_success addCapability alt h h1
                Extending_addCapability E c) as (h' & h'' & Ec & Hx);
      [by apply list_elem_of_In|].
    apply (Extends_caps_subseteq _ _ _ Hx).
    destruct (addCapability_spec c h') as (l2 & Ec' & _ & _ & _ & Hm & _).
    rewrite Ec in Ec'. by injection Ec' as ->.
Qed.

Lemma Extending_requireExtension ST e : Extending (requireExtension ST e).
Proof.
  unfold requireExtension. destruct (canUseExtension ST e);
    [apply Extending_addExtension|apply Extending_raise].
Qed.

Lemma Stable_requireExtension ST e : Stable (requireExtension ST e).
Proof.
  unfold requireExtension. destruct (canUseExtension ST e);
    [apply Stable_addExtension|apply Stable_raise].
Qed.

Lemma Extending_addRequiredExtensions ST r :
  Extending (addRequiredExtensions ST r).
Proof.
  unfold addRequiredExtensions. destruct (versionInWindow _ _ _);
    [apply Extending_done|].
  apply Extending_forEachAction, Extending_requireExtension.
Qed.

Lemma Stable_addRequiredExtensions ST r :
  Stable (addRequiredExtensions ST r).
Proof.
  unfold addRequiredExtensions. destruct (versionInWindow _ _ _);
    [apply Stable_done|].
  apply Stable_forEachAction;
    auto using Extending_requireExtension, Stable_requireExtension.
Qed.

Lemma Extending_perform ST q : Extending (perform ST q).
Proof.
  destruct q; simpl; [apply Extending_addCapability|].
  apply Extending_andThen;
    [apply Extending_addRequiredCapabilities
    |apply Extending_addRequiredExtensions].
Qed.

Lemma Stable_perform ST q : Stable (perform ST q).
Proof.
  destruct q; simpl; [apply Stable_addCapability|].
  apply Stable_andThen;
    auto using Extending_addRequiredExtensions,
      Stable_addRequiredCapabilities, Stable_addRequiredExtensions.
Qed.

Lemma Extending_run {A} ST (m : Mapper A) : Extending (run ST m).
Proof.
  apply Extending_andThen.
  - apply Extending_forEachAction, Extending_perform.
  - destruct (faultOf m); [apply Extending_raise|apply Extending_done].
Qed.

Lemma Stable_run {A} ST (m : Mapper A) : Stable (run ST m).
Proof.
  assert (Extending (match faultOf m with
                     | Some e => raise e | None => done_ end)) as Hf.
  { destruct (faultOf m); [apply Extending_raise|apply Extending_done]. }
  apply Stable_andThen; [done| |].
  - apply Stable_forEachAction; auto using Extending_perform, Stable_perform.
  - destruct (faultOf m); [apply Stable_raise|apply Stable_done].
Qed.

Lemma Extending_processInstr ST MRI MI : Extending (processInstr ST MRI MI).
Proof. apply Extending_run. Qed.

Lemma Extends_resolveFunction MF ST :
  Extends newHandler (snd (resolveFunction MF ST)).
Proof.
  apply (Extending_forEachAction (processInstr ST (getRegInfo MF))).
  intros MI. apply Extending_processInstr.
Qed.

(** C6. Processing an instruction a second time right after the first
    leaves the handler, and the outcome, as the first processing left them:
    both sets, in their insertion order.  Processing only appends to the two
    sets, and what it appends has no duplicates and was not there before; so
    the sets a function resolves to have no duplicates. *)
Theorem processInstr_idempotent (ST : SPIRVSubtarget)
    (MRI : MachineRegisterInfo) (MI : MachineInstr)
    (h : SPIRVRequirementHandler) :
  andThen (processInstr ST MRI MI) (processInstr ST MRI MI) h
    = processInstr ST MRI MI h
  /\ (exists lc,
        getMinimalCapabilities (snd (processInstr ST MRI MI h))
          = getMinimalCapabilities h ++ lc
        /\ NoDup lc /\ forall x, x ∈ lc -> x ∉ getMinimalCapabilities h)
  /\ (exists le,
        getExtensions (snd (processInstr ST MRI MI h)) = getExtensions h ++ le
        /\ NoDup le /\ forall x, x ∈ le -> x ∉ getExtensions h)
  /\ (forall MF,
        NoDup (getMinimalCapabilities (snd (resolveFunction MF ST)))
        /\ NoDup (getExtensions (snd (resolveFunction MF ST)))).
Proof.
  split; [|split; [|split]].
  - unfold andThen.
    destruct (processInstr ST MRI MI h) as [[e|] h1] eqn:E; [done|].
    apply (Stable_run ST _ h h1 E), Extends_refl.
  - apply Extending_processInstr.
  - apply Extending_processInstr.
  - intros MF.
    destruct (Extends_resolveFunction MF ST)
      as [(lc & -> & Nc & _) (le & -> & Ne & _) _].
    done.
Qed.

(** [initAvailableCapabilities] sets flags and nothing else. *)
Definition FlagsOnly (st st' : CapabilityState) : Prop :=
  Has st ⊆ Has st' /\ availableCaps st' = availableCaps st.

Lemma FlagsOnly_refl st : FlagsOnly st st.
Proof. by split. Qed.

Lemma FlagsOnly_trans st1 st2 st3 :
  FlagsOnly st1 st2 -> FlagsOnly st2 st3 -> FlagsOnly st1 st3.
Proof. intros [H1 E1] [H2 E2]. split; [set_solver|congruence]. Qed.

Lemma FlagsOnly_setHas c st : FlagsOnly st (setHas c st).
Proof. split; simpl; [set_solver|done]. Qed.

Lemma FlagsOnly_setHasAll l st : FlagsOnly st (setHasAll l st).
Proof.
  revert st. induction l as [|c l IH]; intros st; [apply FlagsOnly_refl|].
  eapply FlagsOnly_trans; [apply (FlagsOnly_setHas c)|apply IH].
Qed.

Lemma initAvailableCapabilities_FlagsOnly TT fullProfile imageSupport
    spirvVersion openCLVersion st :
  FlagsOnly st (initAvailableCapabilities TT fullProfile imageSupport
                  spirvVersion openCLVersion st).
Proof.
  unfold initAvailableCapabilities.
  destruct (isVulkanEnvironment TT); [apply FlagsOnly_setHasAll|].
  destruct fullProfile, imageSupport,
    (isAtLeastVer openCLVersion (v 2 0 0)),
    (isAtLeastVer spirvVersion (v 1 1 0)
     && isAtLeastVer openCLVersion (v 2 2 0)); cbv zeta;
    repeat (eapply FlagsOnly_trans;
            [|first [apply FlagsOnly_setHasAll|apply FlagsOnly_setHas]]);
    apply FlagsOnly_refl.
Qed.

Lemma initAvailableCapabilities_flags TT fullProfile imageSupport
    spirvVersion openCLVersion (features : gset Capability) :
  let st := initAvailableCapabilities TT fullProfile imageSupport
              spirvVersion openCLVersion (mkCapabilityState features ∅ []) in
  features ⊆ Has st /\ availableCaps st = ∅.
Proof.
  exact (initAvailableCapabilities_FlagsOnly TT fullProfile imageSupport
           spirvVersion openCLVersion (mkCapabilityState features ∅ [])).
Qed.

(** C7. The constructor of the subtarget returns, whatever the triple and
    the feature flags, and the [availableCaps] it leaves are closed: with a
    capability they hold its direct and so its transitive prerequisites.
    They hold every capability whose flag was set.  The set of capabilities
    a function resolves to is closed as well. *)
Theorem available_capabilities_closed (TT : Triple)
    (features : gset Capability) (depth : nat) :
  (recursionBound <= depth)%nat ->
  exists ST,
    newSPIRVSubtarget depth TT features = Some ST
    /\ closedUnderCaps getCapabilityCapabilities
         (availableCaps (capabilities ST))
    /\ (forall a b,
          canUseCapability ST a = true ->
          rtc (prerequisite getCapabilityCapabilities) a b ->
          canUseCapability ST b = true)
    /\ features ⊆ availableCaps (capabilities ST)
    /\ (forall MF ST', closedList getCapabilityCapabilities
          (getMinimalCapabilities (snd (resolveFunction MF ST')))).
Proof.
  intros Hdepth. unfold newSPIRVSubtarget.
  set (st0 := initAvailableCapabilities _ _ _ _ _ _).
  assert (features ⊆ Has st0 /\ availableCaps st0 = ∅) as [Hfeat Hempty]
    by apply initAvailableCapabilities_flags.
  destruct (updateCapabilitiesFromFeatures_Updating
              getCapabilityCapabilities depth st0)
    as (st & E & Hsub & Heq & Hcl).
  { pose proof (unflagged_bound st0). lia. }
  { split; rewrite ?Hempty; try set_solver.
    intros x y Hx. rewrite Hempty in Hx. set_solver. }
  rewrite E. eexists. split; [done|]. simpl.
  split; [done|]. split; [|split].
  - unfold canUseCapability. simpl. intros a b Ha Hr.
    apply bool_decide_eq_true in Ha. apply bool_decide_eq_true.
    induction Hr as [|a b c Hab _ IH]; [done|]. apply IH. by apply (Hcl a b).
  - rewrite Heq. set_solver.
  - intros MF ST'. apply (Extends_resolveFunction MF ST').
    intros a b Ha. by apply elem_of_nil in Ha.
Qed.

Lemma available_capabilities_closed_witness :
  exists ST,
    newSPIRVSubtarget recursionBound openCLTriple ∅ = Some ST
    /\ closedUnderCaps getCapabilityCapabilities
         (availableCaps (capabilities ST)).
Proof.
  destruct (available_capabilities_closed openCLTriple ∅ recursionBound
              (Nat.le_refl _)) as (ST & E & H & _).
  exists ST. split; [exact E|exact H].
Defined.

(** ** The subtargets of the two targets *)

Lemma newSPIRVSubtarget_vulkan :
  newSPIRVSubtarget recursionBound vulkanTriple ∅ = Some vulkanSubtarget.
Proof. vm_compute. reflexivity. Qed.

Lemma newSPIRVSubtarget_openCL :
  newSPIRVSubtarget recursionBound openCLTriple ∅ = Some openCLSubtarget.
Proof. vm_compute. reflexivity. Qed.

(** ** The target flavours *)

(** C10. [isKernel] holds exactly for a target that uses the OpenCL
    environment or does not use logical addressing, [isShader] exactly for
    one that uses the Vulkan environment or logical addressing.  So one of
    the two holds of every target, and both hold of an OpenCL target with
    logical addressing. *)
Theorem target_flavours (ST : SPIRVSubtarget) :
  (isKernel ST = true <->
     usesOpenCLEnv ST = true \/ usesLogicalAddressing ST = false)
  /\ (isShader ST = true <->
        usesVulkanEnv ST = true \/ usesLogicalAddressing ST = true)
  /\ isKernel ST || isShader ST = true
  /\ implb (usesOpenCLEnv ST && usesLogicalAddressing ST)
           (isKernel ST && isShader ST) = true.
Proof.
  unfold isKernel, isShader.
  destruct (usesOpenCLEnv ST), (usesVulkanEnv ST), (usesLogicalAddressing ST);
    simpl; intuition congruence.
Qed.

(** A subtarget has the flavours of the triple it was made from. *)
Lemma newSPIRVSubtarget_flavours depth TT features ST :
  newSPIRVSubtarget depth TT features = Some ST ->
  isKernel ST = isOpenCLEnvironment TT || negb (isSPIRVLogical TT)
  /\ isShader ST = isVulkanEnvironment TT || isSPIRVLogical TT
  /\ isLogicalAddressing ST = isSPIRVLogical TT
  /\ targetSPIRVVersion ST = v 1 4 0.
Proof.
  unfold newSPIRVSubtarget.
  destruct (updateCapabilitiesFromFeatures _ _ _); [|done].
  by intros [= <-].
Qed.

(** ** What the pass asks for an instruction *)

Lemma getImmAt_immediate MI i z :
  operands MI !! i = Some (MO_Immediate z) -> getImmAt MI i = mret z.
Proof. intros E. unfold getImmAt, getOperand. by rewrite E. Qed.

(** C4. On a target with logical addressing, each of [OpSelect], [OpPhi],
    [OpFunctionCall], [OpPtrAccessChain], [OpLoad] and [OpConstantNull] asks
    for [VariablePointers] exactly when its operand 1 is a register that is
    defined by an [OpTypePointer], and never for anything else; on a target
    without logical addressing it asks for nothing. *)
Theorem variable_pointers_requirement (ST : SPIRVSubtarget)
    (MRI : MachineRegisterInfo) (MI : MachineInstr) :
  getOpcode MI ∈ [OpSelect; OpPhi; OpFunctionCall; OpPtrAccessChain; OpLoad;
                  OpConstantNull] ->
  (isLogicalAddressing ST = false ->
     addInstrRequirements MI MRI ST = ([], inr tt))
  /\ (isLogicalAddressing ST = true ->
      (ReqAddCapability VariablePointers
         ∈ requests (addInstrRequirements MI MRI ST)
       <-> exists type def,
             operands MI !! 1%nat = Some (MO_Register type)
             /\ MRI !! type = Some def
             /\ getOpcode def = OpTypePointer)
      /\ (forall q, q ∈ requests (addInstrRequirements MI MRI ST) ->
             q = ReqAddCapability VariablePointers)
      /\ (forall type def,
             operands MI !! 1%nat = Some (MO_Register type) ->
             MRI !! type = Some def ->
             addInstrRequirements MI MRI ST
             = (if decide (getOpcode def = OpTypePointer)
                then [ReqAddCapability VariablePointers] else [], inr tt))).
Proof.
  intros Hop.
  assert (addInstrRequirements MI MRI ST = addVariablePtrInstrReqs MI MRI ST)
    as ->.
  { unfold addInstrRequirements.
    repeat (apply elem_of_cons in Hop as [->|Hop]; [done|]).
    by apply elem_of_nil in Hop. }
  unfold addVariablePtrInstrReqs. split; intros ->; [done|].
  unfold getOperand.
  destruct (operands MI !! 1%nat) as [[type|imm]|] eqn:Hty; simpl.
  - destruct (MRI !! type) as [def|] eqn:Hdef; simpl.
    + destruct (decide (getOpcode def = OpTypePointer)) as [Hp|Hp]; simpl.
      * split; [|split].
        -- split; [intros _; by exists type, def|intros _; by left].
        -- by intros q ->%list_elem_of_singleton.
        -- intros ? ? [= <-]. rewrite Hdef. intros [= <-].
           by rewrite decide_True.
      * split; [|split].
        -- split; [by intros ?%elem_of_nil|].
           intros (t & d & [= <-] & Hd & Hpd). rewrite Hdef in Hd.
           by injection Hd as <-.
        -- by intros q ?%elem_of_nil.
        -- intros ? ? [= <-]. rewrite Hdef. intros [= <-].
           by rewrite decide_False.
    + split; [|split].
      * split; [by intros ?%elem_of_nil|].
        intros (t & d & [= <-] & Hd & _). by rewrite Hdef in Hd.
      * by intros q ?%elem_of_nil.
      * intros ? ? [= <-]. by rewrite Hdef.
  - split; [|split].
    + split; [by intros ?%elem_of_nil|]. by intros (t & d & [=] & _).
    + by intros q ?%elem_of_nil.
    + by intros ? ? [=].
  - split; [|split].
    + split; [by intros ?%elem_of_nil|]. by intros (t & d & [=] & _).
    + by intros q ?%elem_of_nil.
    + by intros ? ? [=].
Qed.

Lemma variable_pointers_requirement_witness :
  let MI := mkMachineInstr OpLoad [MO_Register 7%N; MO_Register 3%N; MO_Register 5%N] in
  let MRI : MachineRegisterInfo :=
    {[ 3%N := mkMachineInstr OpTypePointer
                [MO_Register 3%N; MO_Immediate 7; MO_Register 2%N] ]} in
  let logical :=
    mkSPIRVSubtarget 8 true true false (v 1 4 0) 0 (v 1 1 0) true true [] []
      noCapabilities in
  addInstrRequirements MI MRI logical
    = ([ReqAddCapability VariablePointers], inr tt).
Proof.
  intros MI MRI logical.
  destruct (variable_pointers_requirement logical MRI MI) as [_ H].
  - refine (bool_decide_unpack _ _). vm_compute. exact I.
  - destruct (H eq_refl) as (_ & _ & E).
    exact (E 3%N
             (mkMachineInstr OpTypePointer
                [MO_Register 3%N; MO_Immediate 7; MO_Register 2%N])
             eq_refl eq_refl).
Defined.

(** No access to an operand was out of range. *)
Definition inBounds {A} (m : Mapper A) : Prop :=
  faultOf m <> Some MalformedInstruction.

(** The instruction was mapped without any fault. *)
Definition unfaulted {A} (m : Mapper A) : Prop := faultOf m = None.

Lemma faultOf_mbind {A B} (m : Mapper A) (k : A -> Mapper B) :
  faultOf (mbind m k)
  = match snd m with
    | inl e => Some e
    | inr a => faultOf (k a)
    end.
Proof.
  destruct m as [l [e|a]]; simpl; [done|].
  unfold faultOf. by destruct (k a).
Qed.

Lemma inBounds_mbind {A B} (m : Mapper A) (k : A -> Mapper B) :
  inBounds m -> (forall a, inBounds (k a)) -> inBounds (mbind m k).
Proof.
  unfold inBounds. rewrite faultOf_mbind. unfold faultOf.
  destruct (snd m); auto.
Qed.

Lemma unfaulted_mbind {A B} (m : Mapper A) (k : A -> Mapper B) :
  unfaulted m -> (forall a, unfaulted (k a)) -> unfaulted (mbind m k).
Proof.
  unfold unfaulted. rewrite faultOf_mbind. unfold faultOf.
  destruct (snd m); auto.
Qed.

Lemma inBounds_getImmAt MI i :
  (i < getNumOperands MI)%nat -> inBounds (getImmAt MI i).
Proof.
  intros Hi. apply lookup_lt_is_Some_2 in Hi as [o Ho].
  unfold getImmAt, getOperand. rewrite Ho. by destruct o.
Qed.

Lemma unfaulted_getImmAt MI i :
  (exists z, operands MI !! i = Some (MO_Immediate z)) ->
  unfaulted (getImmAt MI i).
Proof. intros [z Hz]. by rewrite (getImmAt_immediate _ _ _ Hz). Qed.

Lemma inBounds_request r : inBounds (addRequirementsReq r).
Proof. done. Qed.

Lemma unfaulted_request r : unfaulted (addRequirementsReq r).
Proof. done. Qed.

(** C8. An [OpTypeImage] with fewer than 8 operands is a malformed
    instruction.  With 8 operands or more no operand is read out of range,
    the ninth being read only when there are more than 8; and the rule ends
    without any fault when the operands it reads are immediates. *)
Theorem image_type_operands (ST : SPIRVSubtarget) (MRI : MachineRegisterInfo)
    (MI : MachineInstr) :
  getOpcode MI = OpTypeImage ->
  ((getNumOperands MI < 8)%nat ->
     addInstrRequirements MI MRI ST = ([], inl MalformedInstruction))
  /\ ((8 <= getNumOperands MI)%nat ->
      (forall i, i ∈ [2; 4; 5; 6; 7]%nat -> is_Some (operands MI !! i))
      /\ faultOf (addInstrRequirements MI MRI ST) <> Some MalformedInstruction
      /\ ((forall i, i ∈ [2; 4; 5; 6; 7; 8]%nat ->
             (i < getNumOperands MI)%nat ->
             exists z, operands MI !! i = Some (MO_Immediate z)) ->
          faultOf (addInstrRequirements MI MRI ST) = None)).
Proof.
  intros Hop. unfold addInstrRequirements. rewrite Hop.
  unfold addOpTypeImageReqs. split.
  - intros Hlt. by rewrite (proj2 (Nat.leb_gt 8 _) Hlt).
  - intros Hge. rewrite (proj2 (Nat.leb_le 8 _) Hge). simpl negb. cbv iota.
    split; [|split].
    + intros i Hi. apply lookup_lt_is_Some_2. fold (getNumOperands MI).
      repeat (apply elem_of_cons in Hi as [->|Hi]; [lia|]).
      by apply elem_of_nil in Hi.
    + match goal with |- faultOf ?m <> _ => change (inBounds m) end.
      repeat (apply inBounds_mbind;
              [first [apply inBounds_getImmAt; lia|apply inBounds_request]
              |intros ?]).
      apply inBounds_mbind.
      * destruct (toDim _) as [[]|]; try done.
        -- destruct (_ && _); done.
        -- apply inBounds_mbind; [done|intros _]. by destruct (_ =? _).
      * intros _. destruct (isKernel ST); [|done].
        destruct (8 <? getNumOperands MI)%nat eqn:E8; [|done].
        apply Nat.ltb_lt in E8.
        apply inBounds_mbind; [by apply inBounds_getImmAt|intros z].
        by destruct (z =? _).
    + intros Himm.
      assert (forall i, i ∈ [2; 4; 5; 6; 7]%nat -> unfaulted (getImmAt MI i))
        as Hread.
      { intros i Hi. apply unfaulted_getImmAt, Himm; [set_solver|].
        repeat (apply elem_of_cons in Hi as [->|Hi]; [lia|]).
        by apply elem_of_nil in Hi. }
      match goal with |- faultOf ?m = None => change (unfaulted m) end.
      apply unfaulted_mbind; [apply Hread; set_solver|intros ?].
      apply unfaulted_mbind; [done|intros ?].
      do 4 (apply unfaulted_mbind; [apply Hread; set_solver|intros ?]).
      apply unfaulted_mbind.
      * destruct (toDim _) as [[]|]; try done.
        -- destruct (_ && _); done.
        -- apply unfaulted_mbind; [done|intros _]. by destruct (_ =? _).
      * intros _. destruct (isKernel ST); [|done].
        destruct (8 <? getNumOperands MI)%nat eqn:E8; [|done].
        apply Nat.ltb_lt in E8.
        apply unfaulted_mbind;
          [apply unfaulted_getImmAt, Himm; [set_solver|done]|intros z].
        by destruct (z =? _).
Qed.

Lemma image_type_operands_witness :
  let MI := mkMachineInstr OpTypeImage
              [MO_Register 9%N; MO_Register 4%N; MO_Immediate 1;
               MO_Immediate 0; MO_Immediate 0; MO_Immediate 0;
               MO_Immediate 2; MO_Immediate 0; MO_Immediate 2] in
  let ST := mkSPIRVSubtarget 64 false false true (v 1 4 0) (v 2 2 0) 0 true
              true [] [OpenCL_std] noCapabilities in
  faultOf (addInstrRequirements MI ∅ ST) = None.
Proof.
  intros MI ST.
  destruct (image_type_operands ST ∅ MI eq_refl) as [_ H].
  destruct H as (_ & _ & H); [vm_compute; lia|].
  apply H. intros i Hi _.
  repeat (apply elem_of_cons in Hi as [->|Hi]; [by eexists|]).
  by apply elem_of_nil in Hi.
Defined.

(** C9. [OpTypeInt] asks for [Int64], [Int16] or [Int8] when its width,
    read as an unsigned 32-bit number, is 64, 16 or 8, and for nothing at
    any other width; [OpTypeFloat] asks for [Float64] or [Float16] at width
    64 or 16 and for nothing otherwise; [OpTypeVector] asks for [Vector16]
    when it has 8 or 16 components and for nothing otherwise.  A function
    that consists of a 64-bit [OpTypeInt] resolves to [Int64] alone. *)
Theorem width_rules (ST : SPIRVSubtarget) (MRI : MachineRegisterInfo)
    (MI : MachineInstr) (imm : Z) :
  (getOpcode MI = OpTypeInt ->
   operands MI !! 1%nat = Some (MO_Immediate imm) ->
   addInstrRequirements MI MRI ST
   = (if decide (uint32 imm = 64) then [ReqAddCapability Int64]
      else if decide (uint32 imm = 16) then [ReqAddCapability Int16]
      else if decide (uint32 imm = 8) then [ReqAddCapability Int8]
      else [], inr tt))
  /\ (getOpcode MI = OpTypeFloat ->
      operands MI !! 1%nat = Some (MO_Immediate imm) ->
      addInstrRequirements MI MRI ST
      = (if decide (uint32 imm = 64) then [ReqAddCapability Float64]
         else if decide (uint32 imm = 16) then [ReqAddCapability Float16]
         else [], inr tt))
  /\ (getOpcode MI = OpTypeVector ->
      operands MI !! 2%nat = Some (MO_Immediate imm) ->
      addInstrRequirements MI MRI ST
      = (if decide (uint32 imm = 8 \/ uint32 imm = 16)
         then [ReqAddCapability Vector16] else [], inr tt))
  /\ (forall r,
        let MF := mkMachineFunction MRI
                    [[mkMachineInstr OpTypeInt
                        [MO_Register r; MO_Immediate 64]]] in
        resolveFunction MF ST = (None, mkHandler [Int64] [])
        /\ runOnMachineFunction MF ST = inr [DeclareCapability 11]).
Proof.
  split; [|split; [|split]].
  - intros Hop Himm. unfold addInstrRequirements. rewrite Hop.
    rewrite (getImmAt_immediate _ _ _ Himm). unfold mbind, mret.
    generalize (uint32 imm). intros w.
    destruct (Z.eqb_spec w 64), (Z.eqb_spec w 16), (Z.eqb_spec w 8);
      repeat case_decide; try done; lia.
  - intros Hop Himm. unfold addInstrRequirements. rewrite Hop.
    rewrite (getImmAt_immediate _ _ _ Himm). unfold mbind, mret.
    generalize (uint32 imm). intros w.
    destruct (Z.eqb_spec w 64), (Z.eqb_spec w 16), (Z.eqb_spec w 8);
      repeat case_decide; try done; lia.
  - intros Hop Himm. unfold addInstrRequirements. rewrite Hop.
    rewrite (getImmAt_immediate _ _ _ Himm). unfold mbind, mret.
    generalize (uint32 imm). intros w.
    destruct (Z.eqb_spec w 8), (Z.eqb_spec w 16);
      repeat case_decide; simpl; try done; lia.
  - intros r MF. assert (resolveFunction MF ST = (None, mkHandler [Int64] []))
      as E by (vm_compute; reflexivity).
    split; [done|]. unfold runOnMachineFunction. by rewrite E.
Qed.

Lemma width_rules_witness :
  let ST := mkSPIRVSubtarget 64 false false true (v 1 4 0) (v 2 2 0) 0 true
              true [] [OpenCL_std] noCapabilities in
  addInstrRequirements
    (mkMachineInstr OpTypeInt [MO_Register 1%N; MO_Immediate 64]) ∅ ST
  = ([ReqAddCapability Int64], inr tt).
Proof.
  intros ST.
  destruct (width_rules ST ∅
              (mkMachineInstr OpTypeInt [MO_Register 1%N; MO_Immediate 64])
              64) as [H _].
  exact (H eq_refl eq_refl).
Defined.

(** ** Requirements against the target *)

Lemma addRequiredCapabilities_exts ST r h :
  getExtensions (snd (addRequiredCapabilities ST r h)) = getExtensions h.
Proof.
  unfold addRequiredCapabilities. destruct (existsb _ _); [done|].
  destruct (find _ _) as [alt|]; [|done]. clear. revert h.
  induction alt as [|c alt IH]; intros h; simpl; [done|].
  unfold andThen. destruct (addCapability_spec c h) as (l2 & -> & _).
  by rewrite IH.
Qed.

Lemma requireExtension_available ST e h :
  canUseExtension ST e = true ->
  exists h', requireExtension ST e h = (None, h') /\ e ∈ getExtensions h'.
Proof.
  intros Hav. unfold requireExtension, addExtension. rewrite Hav.
  eexists. split; [done|].
  destruct (decide (e ∈ getExtensions h)); [done|]. simpl. set_solver.
Qed.

Lemma addRequiredExtensions_available ST l h :
  (forall e, e ∈ l -> canUseExtension ST e = true) ->
  exists h',
    forEachAction (requireExtension ST) l h = (None, h')
    /\ forall e, e ∈ l -> e ∈ getExtensions h'.
Proof.
  revert h. induction l as [|a l IH]; intros h Hav; simpl.
  - exists h. split; [done|]. intros e He. by apply elem_of_nil in He.
  - unfold andThen.
    destruct (requireExtension_available ST a h) as (h1 & -> & Ha);
      [apply Hav; set_solver|].
    destruct (IH h1) as (h' & E & Hin); [intros; apply Hav; set_solver|].
    exists h'. split; [done|].
    intros x [->|Hx]%elem_of_cons; [|by apply Hin].
    pose proof (Extending_forEachAction (requireExtension ST) l
                  (Extending_requireExtension ST) h1) as Hext.
    rewrite E in Hext. by apply (Extends_exts_subseteq _ _ _ Hext).
Qed.

Lemma addRequiredExtensions_unavailable ST l h x :
  x ∈ l -> canUseExtension ST x = false ->
  exists e h',
    forEachAction (requireExtension ST) l h
    = (Some (UnmetExtensionRequirement e), h')
    /\ e ∈ l /\ canUseExtension ST e = false
    /\ (l = [x] -> e = x /\ h' = h).
Proof.
  revert h. induction l as [|a l IH]; intros h Hx Hun;
    [by apply elem_of_nil in Hx|].
  simpl. unfold andThen. destruct (canUseExtension ST a) eqn:Ea.
  - apply elem_of_cons in Hx as [->|Hx]; [congruence|].
    destruct (requireExtension_available ST a h Ea) as (h1 & -> & _).
    destruct (IH h1 Hx Hun) as (e & h' & E & He & Hune & _).
    exists e, h'. split; [done|]. split; [set_solver|]. split; [done|].
    intros [= -> ->]. by apply elem_of_nil in Hx.
  - exists a, h. unfold requireExtension. rewrite Ea.
    split; [done|]. split; [set_solver|]. split; [done|].
    by intros [= -> _].
Qed.

(** C3. A requirement carries the extension [E], and its window has no
    upper bound.  When the version of the target is at least the lower
    bound, no extension is added.  When it is below, and the capabilities of
    the requirement are resolved: [E] is added if the extensions of the
    requirement are available; if [E] is not available, resolution fails
    with an unmet-extension error, naming [E] when the requirement carries
    [E] alone. *)
Theorem version_gated_extension (ST : SPIRVSubtarget) (r : SPIRVRequirements)
    (h : SPIRVRequirementHandler) (E : Extension) :
  E ∈ reqExtensions r -> maxVersion r = 0 -> 0 <= targetSPIRVVersion ST ->
  (minVersion r <= targetSPIRVVersion ST ->
     getExtensions (snd (addRequirements ST r h)) = getExtensions h)
  /\ (targetSPIRVVersion ST < minVersion r ->
      forall h1, addRequiredCapabilities ST r h = (None, h1) ->
        ((forall e, e ∈ reqExtensions r -> canUseExtension ST e = true) ->
           exists h', addRequirements ST r h = (None, h')
                      /\ E ∈ getExtensions h')
        /\ (canUseExtension ST E = false ->
            exists e h',
              addRequirements ST r h = (Some (UnmetExtensionRequirement e), h')
              /\ e ∈ reqExtensions r /\ canUseExtension ST e = false
              /\ (reqExtensions r = [E] -> e = E /\ h' = h1))).
Proof.
  intros HE Hmax Hpos. unfold addRequirements, andThen. split.
  - intros Hge. pose proof (addRequiredCapabilities_exts ST r h) as Hx.
    destruct (addRequiredCapabilities ST r h) as [[e|] h1]; [done|].
    unfold addRequiredExtensions, versionInWindow. rewrite Hmax.
    replace (minVersion r <=? targetSPIRVVersion ST) with true
      by (symmetry; by apply Z.leb_le).
    by rewrite orb_true_r.
  - intros Hlt h1 ->. unfold addRequiredExtensions, versionInWindow.
    replace (minVersion r =? 0) with false by (symmetry; apply Z.eqb_neq; lia).
    replace (minVersion r <=? targetSPIRVVersion ST) with false
      by (symmetry; apply Z.leb_gt; lia).
    simpl. split.
    + intros Hav.
      destruct (addRequiredExtensions_available ST (reqExtensions r) h1 Hav)
        as (h' & Eh & Hin).
      exists h'. split; [done|]. by apply Hin.
    + intros Hun.
      by apply (addRequiredExtensions_unavailable ST (reqExtensions r) h1 E).
Qed.

Lemma version_gated_extension_witness :
  let ST := mkSPIRVSubtarget 64 false false true (v 1 3 0) (v 2 2 0) 0 true
              true [SPV_KHR_no_integer_wrap_decoration] [OpenCL_std]
              noCapabilities in
  exists h',
    addRequirements ST (getDecorationRequirements 4469 ST) newHandler
      = (None, h')
    /\ SPV_KHR_no_integer_wrap_decoration ∈ getExtensions h'.
Proof.
  intros ST.
  destruct (version_gated_extension ST (getDecorationRequirements 4469 ST)
              newHandler SPV_KHR_no_integer_wrap_decoration) as [_ H].
  - refine (bool_decide_unpack _ _). vm_compute. exact I.
  - reflexivity.
  - vm_compute. discriminate.
  - destruct (H eq_refl newHandler eq_refl) as [H1 _].
    apply H1. intros e He. vm_compute in He.
    apply list_elem_of_singleton in He as ->. reflexivity.
Defined.

(** ** Availability containment *)



Lemma closedUnderCaps_rtc CapabilityCaps (X : gset Capability) a b :
  closedUnderCaps CapabilityCaps X -> a ∈ X ->
  rtc (prerequisite CapabilityCaps) a b -> b ∈ X.
Proof.
  intros HX Ha Hr. induction Hr as [|a b c Hab _ IH]; [done|].
  apply IH. by apply (HX a b).
Qed.


















Lemma noRequirements_done ST h : addRequirements ST noRequirements h = (None, h).
Proof. reflexivity. Qed.

(** C5. A decorating instruction ([OpDecorate], [OpDecorateId] and
    [OpDecorateString] with the decoration at operand 1, [OpMemberDecorate]
    and [OpMemberDecorateString] with it at operand 2) asks for the
    requirements of the decoration, and when the decoration is [BuiltIn]
    also, next, for the requirements of the built-in the following operand
    names.  With a built-in that requires [Shader], on a target where
    [Shader] is available and from a closed set, resolution succeeds and
    leaves [Shader] and its prerequisite [Matrix] enabled. *)
Theorem decoration_requirements (ST : SPIRVSubtarget)
    (MRI : MachineRegisterInfo) (MI : MachineInstr) (decIndex : nat)
    (decOp : Z) :
  (getOpcode MI ∈ [OpDecorate; OpDecorateId; OpDecorateString]
   /\ decIndex = 1%nat
   \/ getOpcode MI ∈ [OpMemberDecorate; OpMemberDecorateString]
      /\ decIndex = 2%nat) ->
  operands MI !! decIndex = Some (MO_Immediate decOp) ->
  (decOp <> Decoration_BuiltIn ->
     addInstrRequirements MI MRI ST
     = ([ReqAddRequirements (getDecorationRequirements decOp ST)], inr tt))
  /\ (decOp = Decoration_BuiltIn ->
      forall builtInOp,
        operands MI !! (decIndex + 1)%nat = Some (MO_Immediate builtInOp) ->
        addInstrRequirements MI MRI ST
        = ([ReqAddRequirements (getDecorationRequirements decOp ST);
            ReqAddRequirements (getBuiltInRequirements builtInOp ST)],
           inr tt)
        /\ (getBuiltInRequirements builtInOp ST = capabilityRequirements Shader ->
            canUseCapability ST Shader = true ->
            forall h,
              closedList getCapabilityCapabilities (getMinimalCapabilities h) ->
              exists h',
                processInstr ST MRI MI h = (None, h')
                /\ Shader ∈ getMinimalCapabilities h'
                /\ Matrix ∈ getMinimalCapabilities h')).
Proof.
  intros Hop Hdec.
  assert (addInstrRequirements MI MRI ST = addOpDecorateReqs MI decIndex ST)
    as Hadd.
  { unfold addInstrRequirements. destruct Hop as [[Hop ->]|[Hop ->]];
      repeat (apply elem_of_cons in Hop as [->|Hop]; [done|]);
      by apply elem_of_nil in Hop. }
  assert (forall b, operands MI !! (decIndex + 1)%nat = Some (MO_Immediate b) ->
            decOp = Decoration_BuiltIn ->
            addInstrRequirements MI MRI ST
            = ([ReqAddRequirements (getDecorationRequirements decOp ST);
                ReqAddRequirements (getBuiltInRequirements b ST)], inr tt))
    as Htwo.
  { intros b Hb ->. rewrite Hadd. unfold addOpDecorateReqs.
    rewrite (getImmAt_immediate _ _ _ Hdec), (getImmAt_immediate _ _ _ Hb).
    reflexivity. }
  split.
  - intros Hne. rewrite Hadd. unfold addOpDecorateReqs.
    rewrite (getImmAt_immediate _ _ _ Hdec). unfold mbind, mret.
    simpl. by rewrite (proj2 (Z.eqb_neq _ _) Hne).
  - intros Heq b Hb. split; [by apply Htwo|].
    intros Hreq Hav h Hcl. unfold processInstr, run.
    rewrite (Htwo b Hb Heq), Hreq, Heq. simpl.
    unfold andThen at 1 2.
    change (getDecorationRequirements Decoration_BuiltIn ST)
      with noRequirements.
    rewrite noRequirements_done.
    unfold addRequirements, andThen, addRequiredCapabilities,
      capabilityRequirements, addRequiredExtensions. simpl.
    rewrite andb_true_r.
    destruct (bool_decide (Shader ∈ getMinimalCapabilities h)) eqn:Hin; simpl.
    + apply bool_decide_eq_true in Hin. exists h. split; [done|].
      split; [done|]. apply (Hcl Shader Matrix Hin). simpl. set_solver.
    + unfold allAvailable. simpl. rewrite Hav. simpl. unfold andThen.
      destruct (addCapability_spec Shader h)
        as (l2 & -> & _ & _ & _ & Hsh & Hcl2).
      simpl. eexists. split; [done|]. simpl. split; [done|].
      apply (Hcl2 Hcl Shader Matrix Hsh). simpl. set_solver.
Qed.

Lemma decoration_requirements_witness :
  exists h',
    processInstr vulkanSubtarget ∅
      (mkMachineInstr OpDecorate
         [MO_Register 1%N; MO_Immediate 11; MO_Immediate 0])
      newHandler = (None, h')
    /\ Shader ∈ getMinimalCapabilities h'
    /\ Matrix ∈ getMinimalCapabilities h'.
Proof.
  destruct (decoration_requirements vulkanSubtarget ∅
              (mkMachineInstr OpDecorate
                 [MO_Register 1%N; MO_Immediate 11; MO_Immediate 0])
              1%nat 11) as [_ H].
  - left. split; [|reflexivity].
    refine (bool_decide_unpack _ _). vm_compute. exact I.
  - reflexivity.
  - destruct (H eq_refl 0 eq_refl) as [_ H2].
    apply H2.
    + reflexivity.
    + vm_compute. reflexivity.
    + intros a b Ha. exfalso. exact (proj1 (elem_of_nil a) Ha).
Defined.

(** ** Worked examples *)

Example enable_ShaderStereoViewNV :
  availableCaps
    <$> enableFeatureCapability getCapabilityCapabilities recursionBound
          ShaderStereoViewNV noCapabilities
  = Some (list_to_set [ShaderStereoViewNV; ShaderViewportMaskNV;
                       ShaderViewportIndexLayerEXT; MultiViewport; Geometry;
                       Shader; Matrix]).
Proof. vm_compute. reflexivity. Qed.

(** A 64-bit integer type, then a [BuiltIn] decoration with [Position]. *)
Example int64_and_builtin_position :
  resolveFunction
    (mkMachineFunction ∅
       [[mkMachineInstr OpTypeInt [MO_Register 1%N; MO_Immediate 64];
         mkMachineInstr OpDecorate
           [MO_Register 2%N; MO_Immediate 11; MO_Immediate 0]]])
    vulkanSubtarget
  = (None, mkHandler [Int64; Shader; Matrix] []).
Proof. vm_compute. reflexivity. Qed.

(** [NoSignedWrap] on a constructed target, whose version is 1.4: the
    extension is part of the core format and is not declared. *)
Example noSignedWrap_at_1_4 :
  resolveFunction
    (mkMachineFunction ∅
       [[mkMachineInstr OpDecorate [MO_Register 2%N; MO_Immediate 4469]]])
    openCLSubtarget
  = (None, mkHandler [] []).
Proof. vm_compute. reflexivity. Qed.

(** * Further properties of the code *)

(** ** Version numbers *)

Lemma lor_shiftl_small (x y n : Z) :
  0 <= n -> 0 <= y < 2 ^ n -> Z.lor (Z.shiftl x n) y = x * 2 ^ n + y.
Proof.
  intros Hn Hy. rewrite Z.shiftl_mul_pow2 by done.
  assert (Z.land (x * 2 ^ n) y = 0) as H.
  { apply Z.bits_inj'. intros i Hi. rewrite Z.land_spec, Z.bits_0.
    destruct (Z.lt_ge_cases i n) as [Hlt|Hge].
    - by rewrite Z.mul_pow2_bits_low by lia.
    - destruct (Z.eq_dec y 0) as [->|Hy0];
        [by rewrite Z.bits_0, andb_false_r|].
      rewrite (Z.bits_above_log2 y i); [by rewrite andb_false_r|lia|].
      assert (Z.log2 y < n) by (apply Z.log2_lt_pow2; lia). lia. }
  by rewrite <- (Z.lxor_lor _ _ H), <- (Z.add_nocarry_lxor _ _ H).
Qed.

Lemma uint8_range (x : Z) : 0 <= uint8 x < 256.
Proof. unfold uint8. apply Z.mod_pos_bound. lia. Qed.

(** [v] as arithmetic on the three bytes. *)
Lemma v_bytes (Maj Min Rev : Z) :
  v Maj Min Rev = uint8 Maj * 65536 + uint8 Min * 256 + uint8 Rev.
Proof.
  unfold v, uint32.
  pose proof (uint8_range Maj) as Ha. pose proof (uint8_range Min) as Hb.
  pose proof (uint8_range Rev) as Hc.
  rewrite <- Z.lor_assoc.
  rewrite (lor_shiftl_small (uint8 Min) (uint8 Rev) 8) by lia.
  rewrite (lor_shiftl_small (uint8 Maj) _ 16) by lia.
  rewrite Z.mod_small by lia. lia.
Qed.

Lemma v_byte_args (a b c : Z) :
  0 <= a < 256 -> 0 <= b < 256 -> 0 <= c < 256 ->
  v a b c = a * 65536 + b * 256 + c.
Proof.
  intros Ha Hb Hc. rewrite v_bytes. unfold uint8.
  by rewrite !Z.mod_small by lia.
Qed.

(** X1. [v] packs three bytes without loss: the bytes are read back by
    shifting and masking, the number fits 24 bits, and the order of the
    numbers is the order of the versions (major, then minor, then
    revision). *)
Theorem v_round_trip_and_order (a b c a' b' c' : Z) :
  0 <= a < 256 -> 0 <= b < 256 -> 0 <= c < 256 ->
  0 <= a' < 256 -> 0 <= b' < 256 -> 0 <= c' < 256 ->
  Z.shiftr (v a b c) 16 = a
  /\ Z.land (Z.shiftr (v a b c) 8) 255 = b
  /\ Z.land (v a b c) 255 = c
  /\ 0 <= v a b c < 2 ^ 24
  /\ (v a b c <= v a' b' c' <->
      a < a' \/ a = a' /\ (b < b' \/ b = b' /\ c <= c'))
  /\ (v a b c = v a' b' c' <-> a = a' /\ b = b' /\ c = c').
Proof.
  intros Ha Hb Hc Ha' Hb' Hc'.
  rewrite (v_byte_args a b c), (v_byte_args a' b' c') by done.
  split; [|split; [|split; [|split; [|split]]]].
  - rewrite Z.shiftr_div_pow2 by lia.
    symmetry. apply (Z.div_unique _ _ a (b * 256 + c)); lia.
  - rewrite Z.shiftr_div_pow2 by lia. change 255 with (Z.ones 8).
    rewrite Z.land_ones by lia.
    replace ((a * 65536 + b * 256 + c) / 2 ^ 8) with (a * 256 + b)
      by (apply (Z.div_unique _ _ _ c); lia).
    symmetry. apply (Z.mod_unique _ _ a); lia.
  - change 255 with (Z.ones 8). rewrite Z.land_ones by lia.
    symmetry. apply (Z.mod_unique _ _ (a * 256 + b)); lia.
  - lia.
  - lia.
  - lia.
Qed.

Lemma v_round_trip_and_order_witness :
  Z.shiftr (v 1 4 0) 16 = 1 /\ (v 1 1 0 <= v 1 4 0).
Proof.
  destruct (v_round_trip_and_order 1 1 0 1 4 0) as (_ & _ & _ & _ & H & _);
    [lia..|].
  destruct (v_round_trip_and_order 1 4 0 1 1 0) as (H1 & _); [lia..|].
  split; [exact H1|]. apply H. right. split; [reflexivity|]. left. lia.
Defined.

(** X2. On packed versions [isAtLeastVer] compares major, then minor, then
    revision, except that the target version 0.0.0 is at least every
    version. *)
Theorem isAtLeastVer_versions (a b c a' b' c' : Z) :
  0 <= a < 256 -> 0 <= b < 256 -> 0 <= c < 256 ->
  0 <= a' < 256 -> 0 <= b' < 256 -> 0 <= c' < 256 ->
  (isAtLeastVer (v a b c) (v a' b' c') = true <->
   (a = 0 /\ b = 0 /\ c = 0)
   \/ a' < a \/ a' = a /\ (b' < b \/ b' = b /\ c' <= c)).
Proof.
  intros Ha Hb Hc Ha' Hb' Hc'. unfold isAtLeastVer.
  rewrite (v_byte_args a b c), (v_byte_args a' b' c') by done.
  rewrite orb_true_iff, Z.eqb_eq, Z.leb_le. lia.
Qed.

Lemma isAtLeastVer_versions_witness :
  isAtLeastVer (v 0 0 0) (v 2 2 0) = true
  /\ isAtLeastVer (v 1 4 0) (v 1 1 0) = true.
Proof.
  split.
  - apply (isAtLeastVer_versions 0 0 0 2 2 0); lia.
  - apply (isAtLeastVer_versions 1 4 0 1 1 0); lia.
Defined.

(** ** The fields of a constructed subtarget *)

(** [canUseExtInstSet]: membership in [availableExtInstSets]. *)
Definition canUseExtInstSet (ST : SPIRVSubtarget) (e : ExtInstSet) : bool :=
  bool_decide (e ∈ availableExtInstSets ST).

Lemma newSPIRVSubtarget_fields depth TT features ST :
  newSPIRVSubtarget depth TT features = Some ST ->
  pointerSize ST = computePointerSize TT
  /\ usesVulkanEnv ST = isVulkanEnvironment TT
  /\ targetSPIRVVersion ST = v 1 4 0
  /\ targetOpenCLVersion ST = computeTargetOpenCLVersion TT
  /\ targetVulkanVersion ST = computeTargetVulkanVersion TT
  /\ availableExtensions ST = initAvailableExtensions TT
  /\ availableExtInstSets ST
     = initAvailableExtInstSets (isVulkanEnvironment TT)
         (initAvailableExtensions TT).
Proof.
  unfold newSPIRVSubtarget.
  destruct (updateCapabilitiesFromFeatures _ _ _); [|done].
  by intros [= <-].
Qed.

(** X3. Whatever the triple and the feature flags, a constructed subtarget
    has SPIR-V version 1.4 and so can compare pointers directly; it has the
    OpenCL version 2.2 and no Vulkan version, or on a Vulkan triple the
    Vulkan version 1.1 and no OpenCL version; and its pointers have 32 or
    64 bits on the architectures [spirv32] and [spirv64] and 8 bits on every
    other one. *)
Theorem constructed_subtarget_versions (depth : nat) (TT : Triple)
    (features : gset Capability) (ST : SPIRVSubtarget) :
  newSPIRVSubtarget depth TT features = Some ST ->
  canDirectlyComparePointers ST = true
  /\ targetSPIRVVersion ST = 66560
  /\ (usesVulkanEnv ST = true ->
      targetVulkanVersion ST = 65792 /\ targetOpenCLVersion ST = 0)
  /\ (usesVulkanEnv ST = false ->
      targetVulkanVersion ST = 0 /\ targetOpenCLVersion ST = 131584)
  /\ (pointerSize ST = 32 <-> getArch TT = spirv32)
  /\ (pointerSize ST = 64 <-> getArch TT = spirv64)
  /\ (pointerSize ST = 8 <-> getArch TT = otherArch).
Proof.
  intros E.
  destruct (newSPIRVSubtarget_fields _ _ _ _ E)
    as (Hp & Hv & Hs & Ho & Hvk & _).
  unfold canDirectlyComparePointers.
  rewrite Hp, Hv, Hs, Ho, Hvk.
  unfold computePointerSize, computeTargetOpenCLVersion,
    computeTargetVulkanVersion.
  split; [reflexivity|]. split; [reflexivity|].
  destruct (isVulkanEnvironment TT), (getArch TT); repeat split; done.
Qed.

Lemma constructed_subtarget_versions_witness :
  canDirectlyComparePointers openCLSubtarget = true
  /\ targetSPIRVVersion openCLSubtarget = 66560.
Proof.
  destruct (constructed_subtarget_versions recursionBound openCLTriple ∅
              openCLSubtarget newSPIRVSubtarget_openCL) as (H1 & H2 & _).
  split; [exact H1|exact H2].
Defined.

(** X4. A constructed subtarget can use one extension,
    [SPV_KHR_no_integer_wrap_decoration], and only off Vulkan; it can use
    exactly one extended instruction set, [GLSL_std_450] on a Vulkan triple
    and [OpenCL_std] on any other, and never that of
    [SPV_AMD_shader_trinary_minmax]. *)
Theorem constructed_subtarget_extensions (depth : nat) (TT : Triple)
    (features : gset Capability) (ST : SPIRVSubtarget) :
  newSPIRVSubtarget depth TT features = Some ST ->
  (forall e, canUseExtension ST e = true <->
     usesVulkanEnv ST = false /\ e = SPV_KHR_no_integer_wrap_decoration)
  /\ (forall s, canUseExtInstSet ST s = true <->
        s = if usesVulkanEnv ST then GLSL_std_450 else OpenCL_std)
  /\ canUseExtInstSet ST ExtInst_SPV_AMD_shader_trinary_minmax = false.
Proof.
  intros E.
  destruct (newSPIRVSubtarget_fields _ _ _ _ E)
    as (_ & Hv & _ & _ & _ & He & Hs).
  unfold canUseExtension, canUseExtInstSet. rewrite He, Hs, Hv.
  unfold initAvailableExtensions.
  destruct (isVulkanEnvironment TT); (split; [|split]).
  - intros e. split; [by intros ?%bool_decide_eq_true%elem_of_nil|].
    by intros [? _].
  - intros s. destruct s; vm_compute; intuition congruence.
  - reflexivity.
  - intros e. destruct e; vm_compute; intuition congruence.
  - intros s. destruct s; vm_compute; intuition congruence.
  - reflexivity.
Qed.

Lemma constructed_subtarget_extensions_witness :
  canUseExtInstSet vulkanSubtarget GLSL_std_450 = true
  /\ canUseExtInstSet vulkanSubtarget ExtInst_SPV_AMD_shader_trinary_minmax
     = false.
Proof.
  destruct (constructed_subtarget_extensions recursionBound vulkanTriple ∅
              vulkanSubtarget newSPIRVSubtarget_vulkan) as (_ & H & H').
  split; [|exact H']. apply H. reflexivity.
Defined.

(** ** Enabling capabilities, from any state *)

Section EnablingFacts.

Variable CapabilityCaps : Capability -> list Capability.

Local Abbreviation edge := (prerequisite CapabilityCaps).

(** Flags and set agree and hold the prerequisites of their members. *)
Definition Settled (st : CapabilityState) : Prop :=
  Has st = availableCaps st
  /\ closedUnderCaps CapabilityCaps (availableCaps st).

Lemma Settled_closedExcept st : Settled st -> closedExcept CapabilityCaps ∅ st.
Proof. intros [E C] x y Hx _ Hy. rewrite E. by apply (C x y). Qed.

Lemma Grows_Settled T st st' :
  Settled st -> Grows CapabilityCaps T st st' ->
  Settled st'
  /\ forall x, x ∈ availableCaps st' <->
       x ∈ availableCaps st \/ exists t, t ∈ T /\ rtc edge t x.
Proof.
  intros HS [H2 A2 F2 I2 R2 C2 _]. pose proof HS as [E C].
  assert (Has st' = availableCaps st') as E'.
  { apply set_eq. intros x. split; intros Hx.
    - destruct (decide (x ∈ Has st)) as [Hm|Hm]; [|by apply F2].
      apply A2. by rewrite <- E.
    - destruct (decide (x ∈ availableCaps st)) as [Hm|Hm]; [|by apply I2].
      apply H2. by rewrite E. }
  assert (closedUnderCaps CapabilityCaps (availableCaps st')) as C'.
  { intros a b Ha Hab. rewrite <- E'.
    apply (C2 ∅ (Settled_closedExcept _ HS) a b); [done|set_solver|done]. }
  split; [done|]. intros x. split.
  - intros Hx. destruct (decide (x ∈ availableCaps st)) as [Hm|Hm]; [by left|].
    right. destruct (F2 x) as (_ & t & Ht & Hr); [by rewrite E'|by rewrite E|].
    by exists t.
  - intros [Hx|(t & Ht & Hr)]; [by apply A2|].
    apply (closedUnderCaps_rtc CapabilityCaps _ t); [done| |done].
    rewrite <- E'. by apply R2.
Qed.

(** *** [updateCapabilitiesFromFeatures], from any state *)

Lemma updateCapabilityFromFeature_reconciles depth r P st0 st :
  (unflagged st < depth)%nat ->
  (forall p, p ∈ P -> p ∈ availableCaps st <-> p ∈ Has st) ->
  (forall x, x ∈ Has st -> exists r0, r0 ∈ Has st0 /\ rtc edge r0 x) ->
  exists st',
    updateCapabilityFromFeature CapabilityCaps depth r st = Some st'
    /\ (unflagged st' < depth)%nat
    /\ Has st ⊆ Has st'
    /\ (forall p, p ∈ r :: P -> p ∈ availableCaps st' <-> p ∈ Has st')
    /\ (forall x, x ∈ Has st' -> exists r0, r0 ∈ Has st0 /\ rtc edge r0 x).
Proof.
  intros Hlt HP Hreach. unfold updateCapabilityFromFeature.
  destruct (decide (r ∈ Has st)) as [Hr|Hr].
  - destruct (decide (r ∈ availableCaps st)) as [Ha|Ha].
    + exists st. split; [done|]. split; [done|]. split; [done|].
      split; [|done]. intros p Hp.
      apply elem_of_cons in Hp as [->|Hin]; [tauto|by apply HP].
    + destruct (enableFeatureCapabilities_total CapabilityCaps depth
                  (CapabilityCaps r) (insertCap r st)) as (st' & E & Hlt');
        [done|].
      exists st'. split; [done|]. split; [done|].
      apply enableFeatureCapabilities_Grows in E.
      destruct E as [H2 A2 F2 I2 R2 C2 _]. simpl in *.
      split; [done|]. split.
      * intros p Hp. split; intros Hx.
        -- destruct (decide (p ∈ {[r]} ∪ availableCaps st)) as [Hm|Hm];
             [|by apply I2].
           apply H2. apply elem_of_union in Hm as [->%elem_of_singleton|Hm];
             [done|].
           apply elem_of_cons in Hp as [->|Hp]; [done|]. by apply HP.
        -- apply elem_of_cons in Hp as [->|Hp]; [apply A2; set_solver|].
           destruct (decide (p ∈ Has st)) as [Hm|Hm]; [|by apply F2].
           apply A2. apply elem_of_union. right. by apply HP.
      * intros x Hx. destruct (decide (x ∈ Has st)) as [Hm|Hm];
          [by apply Hreach|].
        destruct (F2 x Hx Hm) as (_ & t & Ht & Hrt).
        destruct (Hreach r Hr) as (r0 & Hr0 & Hrr).
        exists r0. split; [done|].
        eapply rtc_trans; [exact Hrr|]. by apply rtc_l with t.
  - destruct (decide (availableCaps st = ∅)) as [He|He].
    + exists st. split; [done|]. split; [done|]. split; [done|].
      split; [|done]. intros p Hp.
      apply elem_of_cons in Hp as [->|Hin]; [|by apply HP].
      rewrite He. split; [|done]. intros Hp. by apply elem_of_empty in Hp.
    + exists (eraseCap r st). split; [done|]. split; [done|].
      split; [done|]. split; [|done]. simpl.
      intros p Hp. rewrite elem_of_difference, elem_of_singleton.
      apply elem_of_cons in Hp as [->|Hp]; [tauto|].
      specialize (HP p Hp). split; [tauto|].
      intros Hx. split; [tauto|]. by intros ->.
Qed.

Lemma updateCapabilitiesFromFeatures_reconciles depth st :
  (unflagged st < depth)%nat ->
  exists st',
    updateCapabilitiesFromFeatures CapabilityCaps depth st = Some st'
    /\ availableCaps st' = Has st'
    /\ Has st ⊆ Has st'
    /\ (forall x, x ∈ Has st' -> exists r0, r0 ∈ Has st /\ rtc edge r0 x).
Proof.
  intros Hlt. unfold updateCapabilitiesFromFeatures.
  assert (forall l P s, (unflagged s < depth)%nat ->
            (forall p, p ∈ P -> p ∈ availableCaps s <-> p ∈ Has s) ->
            (forall x, x ∈ Has s -> exists r0, r0 ∈ Has st /\ rtc edge r0 x) ->
            exists s',
              forEach (updateCapabilityFromFeature CapabilityCaps depth) l s
                = Some s'
              /\ Has s ⊆ Has s'
              /\ (forall p, p ∈ reverse l ++ P ->
                    p ∈ availableCaps s' <-> p ∈ Has s')
              /\ (forall x, x ∈ Has s' ->
                    exists r0, r0 ∈ Has st /\ rtc edge r0 x)) as Hloop.
  { intros l. induction l as [|r l IH]; intros P s Hs HP Hre; simpl.
    - exists s. done.
    - destruct (updateCapabilityFromFeature_reconciles depth r P st s Hs HP Hre)
        as (s1 & -> & Hs1 & Hsub & HP1 & Hre1).
      destruct (IH (r :: P) s1 Hs1 HP1 Hre1) as (s' & E & Hsub' & HP' & Hre').
      exists s'. split; [done|]. split; [set_solver|].
      split; [|done]. by rewrite reverse_cons, <- app_assoc. }
  destruct (Hloop DEF_Capability [] st Hlt) as (st' & E & Hsub & HP & Hre).
  { intros p Hp. by apply elem_of_nil in Hp. }
  { intros x Hx. by exists x. }
  exists st'. split; [done|]. split; [|done].
  apply set_eq. intros x. apply HP.
  rewrite app_nil_r, elem_of_reverse. apply DEF_Capability_complete.
Qed.

Lemma forEach_fixed {A S} (body : A -> S -> option S) (l : list A) (s : S) :
  (forall a, a ∈ l -> body a s = Some s) -> forEach body l s = Some s.
Proof.
  induction l as [|a l IH]; intros H; simpl; [done|].
  rewrite (H a) by apply list_elem_of_here.
  apply IH. intros a' Ha'. by apply H, list_elem_of_further.
Qed.

Lemma updateCapabilityFromFeature_fixed depth c st :
  availableCaps st = Has st ->
  updateCapabilityFromFeature CapabilityCaps depth c st = Some st.
Proof.
  intros E. unfold updateCapabilityFromFeature.
  destruct (decide (c ∈ Has st)) as [Hc|Hc].
  - destruct (decide (c ∈ availableCaps st)) as [Ha|Ha]; [done|].
    by rewrite E in Ha.
  - destruct (decide (availableCaps st = ∅)); [done|]. f_equal.
    rewrite <- E in Hc. destruct st as [H A L]. unfold eraseCap. simpl in *.
    f_equal. set_solver.
Qed.

Lemma updateCapabilitiesFromFeatures_fixed depth st :
  availableCaps st = Has st ->
  updateCapabilitiesFromFeatures CapabilityCaps depth st = Some st.
Proof.
  intros E. apply forEach_fixed. intros c _.
  by apply updateCapabilityFromFeature_fixed.
Qed.

End EnablingFacts.

Lemma depth_suffices depth st :
  (recursionBound <= depth)%nat -> (unflagged st < depth)%nat.
Proof. intros H. pose proof (unflagged_bound st). lia. Qed.

(** X5. Whatever the flags and whatever [availableCaps] held before,
    [updateCapabilitiesFromFeatures] returns and leaves in [availableCaps]
    exactly the capabilities whose flag is set: a stale member without a
    flag is erased.  No flag is cleared, and every flag that is set is one
    that was set or that of a transitive prerequisite of such a one. *)
Theorem updateCapabilitiesFromFeatures_reconciled (depth : nat)
    (st : CapabilityState) :
  (recursionBound <= depth)%nat ->
  exists st',
    updateCapabilitiesFromFeatures getCapabilityCapabilities depth st = Some st'
    /\ availableCaps st' = Has st'
    /\ Has st ⊆ Has st'
    /\ (forall x, x ∈ Has st' ->
          exists r, r ∈ Has st
                    /\ rtc (prerequisite getCapabilityCapabilities) r x).
Proof.
  intros Hd. by apply updateCapabilitiesFromFeatures_reconciles, depth_suffices.
Qed.

Lemma updateCapabilitiesFromFeatures_reconciled_witness :
  exists st',
    updateCapabilitiesFromFeatures getCapabilityCapabilities recursionBound
      (mkCapabilityState {[Shader]} {[Kernel]} []) = Some st'
    /\ availableCaps st' = Has st'.
Proof.
  destruct (updateCapabilitiesFromFeatures_reconciled recursionBound
              (mkCapabilityState {[Shader]} {[Kernel]} []) (Nat.le_refl _))
    as (st' & E & H & _).
  exists st'. split; [exact E|exact H].
Defined.

(** X6. The states [updateCapabilitiesFromFeatures] returns unchanged are
    those whose [availableCaps] holds exactly the flagged capabilities,
    whether or not the prerequisites of its members are among them; so a
    second run changes nothing. *)
Theorem updateCapabilitiesFromFeatures_fixed_points (depth : nat)
    (st : CapabilityState) :
  (recursionBound <= depth)%nat ->
  (updateCapabilitiesFromFeatures getCapabilityCapabilities depth st = Some st
   <-> availableCaps st = Has st)
  /\ (forall st',
        updateCapabilitiesFromFeatures getCapabilityCapabilities depth st
        = Some st' ->
        updateCapabilitiesFromFeatures getCapabilityCapabilities depth st'
        = Some st').
Proof.
  intros Hd.
  destruct (updateCapabilitiesFromFeatures_reconciles
              getCapabilityCapabilities depth st (depth_suffices _ _ Hd))
    as (st1 & E & Heq & _).
  split.
  - split; [|apply updateCapabilitiesFromFeatures_fixed].
    intros E'. rewrite E in E'. by injection E' as <-.
  - intros st' E'. rewrite E in E'. injection E' as <-.
    by apply updateCapabilitiesFromFeatures_fixed.
Qed.

Lemma updateCapabilitiesFromFeatures_fixed_points_witness :
  updateCapabilitiesFromFeatures getCapabilityCapabilities recursionBound
    (mkCapabilityState {[Shader]} {[Shader]} [])
  = Some (mkCapabilityState {[Shader]} {[Shader]} []).
Proof.
  apply (proj1 (updateCapabilitiesFromFeatures_fixed_points recursionBound
                  (mkCapabilityState {[Shader]} {[Shader]} [])
                  (Nat.le_refl _))).
  reflexivity.
Defined.

(** X7. From any state [enableFeatureCapability] returns.  It clears no
    flag and removes no member; afterwards the flag of [Cap] is set; every
    flag it sets and every member it inserts is [Cap] or a transitive
    prerequisite of [Cap], and it inserts no capability whose flag was set
    before.  When the flag of [Cap] is set already it changes nothing, also
    when [Cap] is not in [availableCaps]; so a second call changes
    nothing. *)
Theorem enableFeatureCapability_effect (depth : nat) (Cap : Capability)
    (st : CapabilityState) :
  (recursionBound <= depth)%nat ->
  exists st',
    enableFeatureCapability getCapabilityCapabilities depth Cap st = Some st'
    /\ Has st ⊆ Has st' /\ availableCaps st ⊆ availableCaps st'
    /\ Cap ∈ Has st'
    /\ (forall x, x ∈ Has st' -> x ∉ Has st ->
          rtc (prerequisite getCapabilityCapabilities) Cap x)
    /\ (forall x, x ∈ availableCaps st' -> x ∉ availableCaps st ->
          x ∉ Has st /\ rtc (prerequisite getCapabilityCapabilities) Cap x)
    /\ (Cap ∈ Has st -> st' = st)
    /\ enableFeatureCapability getCapabilityCapabilities depth Cap st'
       = Some st'.
Proof.
  intros Hd.
  destruct (enableFeatureCapability_total getCapabilityCapabilities depth Cap
              st (depth_suffices _ _ Hd)) as (st' & E & _).
  exists st'. split; [done|].
  pose proof (enableFeatureCapability_Grows _ _ _ _ _ E)
    as [H2 A2 F2 I2 R2 _ _].
  assert (forall x, x ∈ Has st' -> x ∉ Has st ->
            rtc (prerequisite getCapabilityCapabilities) Cap x) as Hnew.
  { intros x Hx Hn. destruct (F2 x Hx Hn) as (_ & t & Ht & Hr).
    by apply list_elem_of_singleton in Ht as ->. }
  assert (Cap ∈ Has st') as Hc by (apply R2; set_solver).
  destruct depth as [|depth]; [done|].
  split; [done|]. split; [done|]. split; [done|]. split; [done|].
  split; [|split].
  - intros x Hx Hn. destruct (I2 x Hx Hn) as [Hf Hnf]. split; [done|].
    by apply Hnew.
  - intros Hin. rewrite enableFeatureCapability_S in E.
    rewrite decide_True in E by done. by injection E as <-.
  - rewrite enableFeatureCapability_S. by rewrite decide_True.
Qed.

Lemma enableFeatureCapability_effect_witness :
  exists st',
    enableFeatureCapability getCapabilityCapabilities recursionBound Shader
      (mkCapabilityState {[Matrix]} ∅ []) = Some st'
    /\ Shader ∈ Has st'.
Proof.
  destruct (enableFeatureCapability_effect recursionBound Shader
              (mkCapabilityState {[Matrix]} ∅ []) (Nat.le_refl _))
    as (st' & E & _ & _ & H & _).
  exists st'. split; [exact E|exact H].
Defined.

(** X8. From a state in which flags and [availableCaps] agree and are
    closed under prerequisites, [enableFeatureCapabilities] on a list adds
    to [availableCaps] exactly the listed capabilities and their transitive
    prerequisites, and leaves flags and set in agreement and closed.  The
    set it leaves does not depend on the order of the list. *)
Theorem enableFeatureCapabilities_union (depth : nat) (l : list Capability)
    (st : CapabilityState) :
  (recursionBound <= depth)%nat ->
  Has st = availableCaps st ->
  closedUnderCaps getCapabilityCapabilities (availableCaps st) ->
  exists st',
    enableFeatureCapabilities getCapabilityCapabilities depth l st = Some st'
    /\ Has st' = availableCaps st'
    /\ closedUnderCaps getCapabilityCapabilities (availableCaps st')
    /\ (forall x, x ∈ availableCaps st' <->
          x ∈ availableCaps st
          \/ exists t, t ∈ l
               /\ rtc (prerequisite getCapabilityCapabilities) t x)
    /\ (forall l', l' ≡ₚ l ->
          exists st'',
            enableFeatureCapabilities getCapabilityCapabilities depth l' st
              = Some st''
            /\ availableCaps st'' = availableCaps st').
Proof.
  intros Hd HE HC.
  assert (forall k, exists s,
            enableFeatureCapabilities getCapabilityCapabilities depth k st
              = Some s
            /\ Settled getCapabilityCapabilities s
            /\ forall x, x ∈ availableCaps s <->
                 x ∈ availableCaps st
                 \/ exists t, t ∈ k
                      /\ rtc (prerequisite getCapabilityCapabilities) t x)
    as Hany.
  { intros k.
    destruct (enableFeatureCapabilities_total getCapabilityCapabilities depth
                k st (depth_suffices _ _ Hd)) as (s & E & _).
    exists s. split; [done|].
    apply (Grows_Settled getCapabilityCapabilities k st s); [by split|].
    by apply enableFeatureCapabilities_Grows in E. }
  destruct (Hany l) as (st' & E & [HE' HC'] & Hx).
  exists st'. split; [done|]. split; [done|]. split; [done|]. split; [done|].
  intros l' Hperm. destruct (Hany l') as (st'' & E' & _ & Hx').
  exists st''. split; [done|]. apply set_eq. intros x. rewrite Hx, Hx'.
  split; (intros [?|(t & Ht & Hr)]; [by left|right; exists t; split; [|done]]).
  - by rewrite <- Hperm.
  - by rewrite Hperm.
Qed.

Lemma enableFeatureCapabilities_union_witness :
  exists st',
    enableFeatureCapabilities getCapabilityCapabilities recursionBound
      [Geometry; Kernel] noCapabilities = Some st'
    /\ Has st' = availableCaps st'.
Proof.
  destruct (enableFeatureCapabilities_union recursionBound [Geometry; Kernel]
              noCapabilities (Nat.le_refl _) eq_refl)
    as (st' & E & H & _).
  - intros a b Ha. exfalso. exact (proj1 (elem_of_empty a) Ha).
  - exists st'. split; [exact E|exact H].
Defined.

(** ** The available capabilities of a subtarget, exactly *)

(** The flags [initAvailableCapabilities] sets when it is called from the
    constructor: the profile switches are on and the version tests pass. *)
Definition baseCapabilities (TT : Triple) : list Capability :=
  if isVulkanEnvironment TT then
    [Matrix; Shader; InputAttachment; Sampled1D; Image1D; SampledBuffer;
     ImageBuffer; ImageQuery; DerivativeControl]
  else
    [Addresses; Float16Buffer; Int16; Int8; Kernel; Linkage; Vector16; Int64;
     ImageBasic; LiteralSampler; Image1D; SampledBuffer; ImageBuffer;
     ImageReadWrite; PipeStorage; Float16; Float64].

Lemma Has_setHasAll l st :
  Has (setHasAll l st) = list_to_set l ∪ Has st.
Proof.
  revert st. induction l as [|c l IH]; intros st; simpl; [set_solver|].
  rewrite IH. simpl. set_solver.
Qed.

Lemma Has_setHas c st : Has (setHas c st) = {[c]} ∪ Has st.
Proof. reflexivity. Qed.

Lemma initAvailableCapabilities_base TT (features : gset Capability) :
  Has (initAvailableCapabilities TT (computeOpenCLFullProfile TT)
         (computeOpenCLImageSupport TT) (computeTargetSPIRVVersion TT)
         (computeTargetOpenCLVersion TT) (mkCapabilityState features ∅ []))
  = features ∪ list_to_set (baseCapabilities TT).
Proof.
  unfold initAvailableCapabilities, baseCapabilities,
    computeOpenCLFullProfile, computeOpenCLImageSupport,
    computeTargetSPIRVVersion, computeTargetOpenCLVersion.
  destruct (isVulkanEnvironment TT).
  - rewrite Has_setHasAll. simpl. set_solver.
  - change (isAtLeastVer (v 2 2 0) (v 2 0 0)) with true.
    change (isAtLeastVer (v 1 4 0) (v 1 1 0)) with true.
    change (isAtLeastVer (v 2 2 0) (v 2 2 0)) with true.
    cbv zeta. simpl andb. cbv iota.
    repeat first [rewrite Has_setHasAll|rewrite Has_setHas]. simpl.
    set_solver.
Qed.

Lemma newSPIRVSubtarget_available depth TT features ST :
  (recursionBound <= depth)%nat ->
  newSPIRVSubtarget depth TT features = Some ST ->
  closedUnderCaps getCapabilityCapabilities (availableCaps (capabilities ST))
  /\ forall x, x ∈ availableCaps (capabilities ST) <->
       exists r, (r ∈ features \/ r ∈ baseCapabilities TT)
                 /\ rtc (prerequisite getCapabilityCapabilities) r x.
Proof.
  intros Hd. unfold newSPIRVSubtarget.
  pose proof (initAvailableCapabilities_base TT features) as Hbase.
  pose proof (initAvailableCapabilities_flags TT (computeOpenCLFullProfile TT)
                (computeOpenCLImageSupport TT) (computeTargetSPIRVVersion TT)
                (computeTargetOpenCLVersion TT) features) as [_ Hempty].
  cbv zeta in Hempty.
  set (st0 := initAvailableCapabilities _ _ _ _ _ _) in *.
  destruct (updateCapabilitiesFromFeatures_reconciles
              getCapabilityCapabilities depth st0 (depth_suffices _ _ Hd))
    as (st & E & Heq & Hsub & Hre).
  destruct (updateCapabilitiesFromFeatures_Updating
              getCapabilityCapabilities depth st0 (depth_suffices _ _ Hd))
    as (st1 & E1 & _ & _ & Hcl).
  { clear Hbase Heq Hsub Hre E. split; rewrite ?Hempty; try set_solver.
    intros x y Hx. rewrite Hempty in Hx. set_solver. }
  rewrite E in E1. injection E1 as <-. rewrite E. intros [= <-]. simpl.
  split; [done|]. intros x. rewrite Heq. split.
  - intros Hx. destruct (Hre x Hx) as (r & Hr & Hrx). exists r.
    split; [|done]. rewrite Hbase in Hr. set_solver.
  - intros (r & Hr & Hrx). rewrite <- Heq.
    apply (closedUnderCaps_rtc getCapabilityCapabilities _ r); [done| |done].
    rewrite Heq. apply Hsub. rewrite Hbase. set_solver.
Qed.

(** X9. The capabilities a constructed subtarget can use are exactly the
    capabilities named by the feature flags, those the constructor flags for
    the environment of the triple, and the transitive prerequisites of
    these. *)
Theorem constructed_subtarget_capabilities (depth : nat) (TT : Triple)
    (features : gset Capability) (ST : SPIRVSubtarget) :
  (recursionBound <= depth)%nat ->
  newSPIRVSubtarget depth TT features = Some ST ->
  forall x, canUseCapability ST x = true <->
    exists r, (r ∈ features \/ r ∈ baseCapabilities TT)
              /\ rtc (prerequisite getCapabilityCapabilities) r x.
Proof.
  intros Hd E x. unfold canUseCapability. rewrite bool_decide_eq_true.
  by apply (newSPIRVSubtarget_available depth TT features ST Hd E).
Qed.

Lemma constructed_subtarget_capabilities_witness :
  canUseCapability openCLSubtarget Pipes = true.
Proof.
  apply (constructed_subtarget_capabilities recursionBound openCLTriple ∅
           openCLSubtarget (Nat.le_refl _) newSPIRVSubtarget_openCL).
  exists PipeStorage. split.
  - right. refine (bool_decide_unpack _ _). vm_compute. exact I.
  - apply rtc_once. unfold prerequisite.
    refine (bool_decide_unpack _ _). vm_compute. exact I.
Defined.

Lemma Settled_noCapabilities CapabilityCaps :
  Settled CapabilityCaps noCapabilities.
Proof. split; [done|]. intros a b Ha. by apply elem_of_empty in Ha. Qed.

Lemma reachable_from_base (isVulkan : bool) :
  availableCaps
    <$> enableFeatureCapabilities getCapabilityCapabilities recursionBound
          (baseCapabilities (mkTriple otherArch false isVulkan false))
          noCapabilities
  = Some (list_to_set (if isVulkan then vulkanCaps else openCLCaps)).
Proof. destruct isVulkan; vm_compute; reflexivity. Qed.

Lemma newSPIRVSubtarget_default (depth : nat) (TT : Triple)
    (ST : SPIRVSubtarget) :
  (recursionBound <= depth)%nat ->
  newSPIRVSubtarget depth TT ∅ = Some ST ->
  availableCaps (capabilities ST)
  = list_to_set (if isVulkanEnvironment TT then vulkanCaps else openCLCaps).
Proof.
  intros Hd E.
  destruct (newSPIRVSubtarget_available depth TT ∅ ST Hd E) as [_ Hx].
  pose proof (reachable_from_base (isVulkanEnvironment TT)) as Hc.
  change (baseCapabilities (mkTriple otherArch false (isVulkanEnvironment TT)
                              false))
    with (baseCapabilities TT) in Hc.
  destruct (enableFeatureCapabilities getCapabilityCapabilities
              recursionBound (baseCapabilities TT) noCapabilities)
    as [st'|] eqn:Een; [|done].
  injection Hc as Hc. rewrite <- Hc.
  apply enableFeatureCapabilities_Grows in Een.
  destruct (Grows_Settled getCapabilityCapabilities _ _ _
              (Settled_noCapabilities _) Een) as [_ Hst'].
  apply set_eq. intros x. rewrite Hx, Hst'. simpl. set_solver.
Qed.

(** X10. Without feature flags a subtarget of a Vulkan triple can use
    exactly the nine capabilities of [vulkanCaps], and a subtarget of any
    other triple exactly the nineteen of [openCLCaps]; so its capabilities
    depend on the environment alone, and no such subtarget can use both
    [Shader] and [Kernel]. *)
Theorem default_subtarget_capabilities (depth : nat) (TT : Triple)
    (ST : SPIRVSubtarget) :
  (recursionBound <= depth)%nat ->
  newSPIRVSubtarget depth TT ∅ = Some ST ->
  availableCaps (capabilities ST)
    = list_to_set (if isVulkanEnvironment TT then vulkanCaps else openCLCaps)
  /\ canUseCapability ST Shader = isVulkanEnvironment TT
  /\ canUseCapability ST Kernel = negb (isVulkanEnvironment TT).
Proof.
  intros Hd E. pose proof (newSPIRVSubtarget_default depth TT ST Hd E) as Heq.
  split; [done|]. unfold canUseCapability. rewrite Heq.
  by destruct (isVulkanEnvironment TT).
Qed.

Lemma default_subtarget_capabilities_witness :
  canUseCapability vulkanSubtarget Shader = true
  /\ canUseCapability vulkanSubtarget Kernel = false.
Proof.
  destruct (default_subtarget_capabilities recursionBound vulkanTriple
              vulkanSubtarget (Nat.le_refl _) newSPIRVSubtarget_vulkan)
    as (_ & H1 & H2).
  split; [exact H1|exact H2].
Defined.

(** ** The capability table and the declarations *)

(** The length of the longest chain of prerequisites that starts at [c],
    counted in capabilities and looked for [n] deep. *)
Fixpoint heightWithin (n : nat) (c : Capability) : nat :=
  match n with
  | O => O
  | S n' =>
      S (foldr (fun d m => Nat.max (heightWithin n' d) m) O
           (getCapabilityCapabilities c))
  end.

Definition prerequisiteHeight (c : Capability) : nat := heightWithin 8 c.

Lemma prerequisiteHeight_edge (a b : Capability) :
  prerequisite getCapabilityCapabilities a b ->
  (prerequisiteHeight b < prerequisiteHeight a)%nat.
Proof.
  assert (forallb (fun d => prerequisiteHeight d <? prerequisiteHeight a)%nat
            (getCapabilityCapabilities a) = true) as H
    by (destruct a; vm_compute; reflexivity).
  intros Hb. rewrite forallb_forall in H.
  apply Nat.ltb_lt, H. by apply list_elem_of_In.
Qed.

Lemma prerequisiteHeight_tc (a b : Capability) :
  tc (prerequisite getCapabilityCapabilities) a b ->
  (prerequisiteHeight b < prerequisiteHeight a)%nat.
Proof.
  intros H. induction H as [a b Hab|a b c Hab _ IH].
  - by apply prerequisiteHeight_edge.
  - apply prerequisiteHeight_edge in Hab. lia.
Qed.

Lemma prerequisiteHeight_le (c : Capability) :
  (1 <= prerequisiteHeight c <= 7)%nat.
Proof. destruct c; vm_compute; lia. Qed.

(** X11. The [Caps] column of [DEF_Capability] has no cycle: a capability
    is never among its own transitive prerequisites, and a transitive
    prerequisite of a capability never has that capability among its own.
    A chain of prerequisites has at most 7 capabilities. *)
Theorem capability_graph_acyclic (a b : Capability) :
  tc (prerequisite getCapabilityCapabilities) a b ->
  a <> b
  /\ ~ tc (prerequisite getCapabilityCapabilities) b a
  /\ (prerequisiteHeight b < prerequisiteHeight a <= 7)%nat.
Proof.
  intros H. pose proof (prerequisiteHeight_tc a b H) as Hlt.
  split; [|split].
  - intros ->. lia.
  - intros H'. apply prerequisiteHeight_tc in H'. lia.
  - pose proof (prerequisiteHeight_le a). lia.
Qed.

Lemma capability_graph_acyclic_witness :
  Shader <> Matrix
  /\ ~ tc (prerequisite getCapabilityCapabilities) Matrix Shader.
Proof.
  destruct (capability_graph_acyclic Shader Matrix) as (H1 & H2 & _).
  - apply tc_once. unfold prerequisite.
    refine (bool_decide_unpack _ _). vm_compute. exact I.
  - split; [exact H1|exact H2].
Defined.

Lemma getCapabilityValue_range (c : Capability) :
  0 <= getCapabilityValue c < 2 ^ 32.
Proof. destruct c; vm_compute; split; congruence. Qed.

(** X12. The pass declares the capabilities, in their order, and then the
    extensions, in theirs.  The immediate of an [OpCapability] is the value
    of the capability, which fits 32 bits, and no two capabilities have the
    same value: so a capability is declared exactly when it is in the set,
    an extension exactly when it is in the other, and sets without
    duplicates give declarations without duplicates. *)
Theorem declarations_faithful (h : SPIRVRequirementHandler) :
  NoDup (getMinimalCapabilities h) -> NoDup (getExtensions h) ->
  NoDup (declarations h)
  /\ length (declarations h)
     = (length (getMinimalCapabilities h) + length (getExtensions h))%nat
  /\ (forall c, DeclareCapability (getCapabilityValue c) ∈ declarations h
                <-> c ∈ getMinimalCapabilities h)
  /\ (forall e, DeclareExtension e ∈ declarations h <-> e ∈ getExtensions h)
  /\ (forall i c, getMinimalCapabilities h !! i = Some c ->
        declarations h !! i = Some (DeclareCapability (getCapabilityValue c)))
  /\ (forall i e, getExtensions h !! i = Some e ->
        declarations h !! (length (getMinimalCapabilities h) + i)%nat
        = Some (DeclareExtension e)).
Proof.
  intros Hc He. unfold declarations.
  assert (forall c, uint32 (getCapabilityValue c) = getCapabilityValue c)
    as Hu.
  { intros c. unfold uint32. apply Z.mod_small, getCapabilityValue_range. }
  assert (map (fun cap => DeclareCapability (uint32 (getCapabilityValue cap)))
            (getMinimalCapabilities h)
          = (fun cap => DeclareCapability (getCapabilityValue cap))
              <$> getMinimalCapabilities h) as ->.
  { apply map_ext. intros c. by rewrite Hu. }
  change (map DeclareExtension (getExtensions h))
    with (DeclareExtension <$> getExtensions h).
  assert (Inj (=) (=) (fun cap => DeclareCapability (getCapabilityValue cap)))
    as Hinj1.
  { intros a b [= E]. by apply getCapabilityValue_inj. }
  assert (Inj (=) (=) DeclareExtension) as Hinj2 by (by intros a b [= E]).
  split; [|split; [|split; [|split; [|split]]]].
  - apply NoDup_app. split; [by apply NoDup_fmap_2|].
    split; [|by apply NoDup_fmap_2].
    intros d (c & -> & _)%list_elem_of_fmap (e & [=] & _)%list_elem_of_fmap.
  - by rewrite length_app, !length_fmap.
  - intros c. rewrite elem_of_app, !list_elem_of_fmap. split.
    + intros [(c' & [= E] & Hin)|(e & [=] & _)].
      by rewrite (getCapabilityValue_inj _ _ E).
    + intros Hin. left. by exists c.
  - intros e. rewrite elem_of_app, !list_elem_of_fmap. split.
    + by intros [(c' & [=] & _)|(e' & [= ->] & Hin)].
    + intros Hin. right. by exists e.
  - intros i c Hi. rewrite lookup_app_l.
    + by rewrite list_lookup_fmap, Hi.
    + rewrite length_fmap. by apply lookup_lt_Some in Hi.
  - intros i e Hi. rewrite lookup_app_r by (rewrite length_fmap; lia).
    rewrite length_fmap, list_lookup_fmap.
    replace (length (getMinimalCapabilities h) + i
             - length (getMinimalCapabilities h))%nat with i by lia.
    by rewrite Hi.
Qed.

Lemma declarations_faithful_witness :
  NoDup (declarations (mkHandler [Int64; Shader; Matrix]
                         [SPV_KHR_no_integer_wrap_decoration])).
Proof.
  apply declarations_faithful.
  - refine (bool_decide_unpack _ _). vm_compute. exact I.
  - refine (bool_decide_unpack _ _). vm_compute. exact I.
Defined.

(** ** How deep the enabling recursion goes *)

Lemma forEach_weaken {A S} (f g : A -> S -> option S) (l : list A) st st' :
  (forall a s s', f a s = Some s' -> g a s = Some s') ->
  forEach f l st = Some st' -> forEach g l st = Some st'.
Proof.
  intros Hfg. revert st. induction l as [|a l IH]; intros st; simpl; [done|].
  destruct (f a st) as [s1|] eqn:E; [|done].
  rewrite (Hfg _ _ _ E). apply IH.
Qed.

(** More nested calls than a run needs change nothing. *)
Lemma enableFeatureCapability_deeper CapabilityCaps depth depth' Cap st st' :
  enableFeatureCapability CapabilityCaps depth Cap st = Some st' ->
  (depth <= depth')%nat ->
  enableFeatureCapability CapabilityCaps depth' Cap st = Some st'.
Proof.
  revert depth' Cap st st'.
  induction depth as [|depth IH]; intros depth' Cap st st' E Hle; [done|].
  destruct depth' as [|depth']; [lia|].
  rewrite enableFeatureCapability_S in *.
  destruct (decide (Cap ∈ Has st)); [done|].
  destruct (decide (Cap ∈ availableCaps st)); [done|].
  revert E. apply forEach_weaken. intros a s s' Ea. apply (IH _ _ _ _ Ea). lia.
Qed.

Lemma enableFeatureCapability_height depth Cap st :
  (prerequisiteHeight Cap <= depth)%nat ->
  is_Some (enableFeatureCapability getCapabilityCapabilities depth Cap st).
Proof.
  revert Cap st. induction depth as [|depth IH]; intros Cap st Hh.
  - pose proof (prerequisiteHeight_le Cap). lia.
  - rewrite enableFeatureCapability_S.
    destruct (decide (Cap ∈ Has st)); [done|].
    destruct (decide (Cap ∈ availableCaps st)); [done|].
    assert (forall l, (forall d, d ∈ l -> d ∈ getCapabilityCapabilities Cap) ->
              forall s, is_Some (forEach
                (enableFeatureCapability getCapabilityCapabilities depth) l s))
      as Hloop.
    { induction l as [|d l IHl]; intros Hl s; simpl; [done|].
      destruct (IH d s) as [s1 ->].
      - assert (prerequisiteHeight d < prerequisiteHeight Cap)%nat; [|lia].
        apply prerequisiteHeight_edge, Hl, list_elem_of_here.
      - apply IHl. intros d' Hd'. by apply Hl, list_elem_of_further. }
    by apply Hloop.
Qed.

(** X13. Enabling a capability never nests calls deeper than the longest
    chain of prerequisites below it, which has at most 7 capabilities: from
    any state, as many nested calls as that chain is long are enough for
    the call to return, and it returns the same state however many more are
    allowed.  With no nested call allowed it does not return. *)
Theorem enableFeatureCapability_depth (depth : nat) (Cap : Capability)
    (st : CapabilityState) :
  (prerequisiteHeight Cap <= depth)%nat ->
  (exists st',
     enableFeatureCapability getCapabilityCapabilities depth Cap st = Some st'
     /\ enableFeatureCapability getCapabilityCapabilities
          (prerequisiteHeight Cap) Cap st = Some st'
     /\ enableFeatureCapability getCapabilityCapabilities 7 Cap st = Some st'
     /\ enableFeatureCapability getCapabilityCapabilities recursionBound Cap st
        = Some st')
  /\ enableFeatureCapability getCapabilityCapabilities 0 Cap st = None.
Proof.
  intros Hh. split; [|done].
  destruct (enableFeatureCapability_height (prerequisiteHeight Cap) Cap st
              (Nat.le_refl _)) as [st' E].
  pose proof (prerequisiteHeight_le Cap) as Hle.
  exists st'. repeat split;
    try (apply (enableFeatureCapability_deeper _ _ _ _ _ _ E));
    try done; try lia.
  unfold recursionBound. simpl length. lia.
Qed.

Lemma enableFeatureCapability_depth_witness :
  exists st',
    enableFeatureCapability getCapabilityCapabilities 2 Shader noCapabilities
    = Some st'
    /\ enableFeatureCapability getCapabilityCapabilities 7 Shader noCapabilities
       = Some st'.
Proof.
  destruct (enableFeatureCapability_depth 2 Shader noCapabilities)
    as [(st' & E & _ & E7 & _) _].
  - vm_compute. lia.
  - exists st'. split; [exact E|exact E7].
Defined.

(** ** SPIRVEnums.h: the other tables *)

Definition DEF_SourceLanguage : list EnumEntry :=
  [ X "Unknown" 0 [] [] 0 0
  ; X "ESSL" 1 [] [] 0 0
  ; X "GLSL" 2 [] [] 0 0
  ; X "OpenCL_C" 3 [] [] 0 0
  ; X "OpenCL_CPP" 4 [] [] 0 0
  ; X "HLSL" 5 [] [] 0 0
  ].

Definition DEF_SamplerAddressingMode : list EnumEntry :=
  [ X "None" 0 [Kernel] [] 0 0
  ; X "ClampToEdge" 1 [Kernel] [] 0 0
  ; X "Clamp" 2 [Kernel] [] 0 0
  ; X "Repeat" 3 [Kernel] [] 0 0
  ; X "RepeatMirrored" 4 [Kernel] [] 0 0
  ].

Definition DEF_SamplerFilterMode : list EnumEntry :=
  [ X "Nearest" 0 [Kernel] [] 0 0
  ; X "Linear" 1 [Kernel] [] 0 0
  ].

Definition DEF_ImageChannelOrder : list EnumEntry :=
  [ X "R" 0 [Kernel] [] 0 0
  ; X "A" 1 [Kernel] [] 0 0
  ; X "RG" 2 [Kernel] [] 0 0
  ; X "RA" 3 [Kernel] [] 0 0
  ; X "RGB" 4 [Kernel] [] 0 0
  ; X "RGBA" 5 [Kernel] [] 0 0
  ; X "BGRA" 6 [Kernel] [] 0 0
  ; X "ARGB" 7 [Kernel] [] 0 0
  ; X "Intensity" 8 [Kernel] [] 0 0
  ; X "Luminance" 9 [Kernel] [] 0 0
  ; X "Rx" 10 [Kernel] [] 0 0
  ; X "RGx" 11 [Kernel] [] 0 0
  ; X "RGBx" 12 [Kernel] [] 0 0
  ; X "Depth" 13 [Kernel] [] 0 0
  ; X "DepthStencil" 14 [Kernel] [] 0 0
  ; X "sRGB" 15 [Kernel] [] 0 0
  ; X "sRGBx" 16 [Kernel] [] 0 0
  ; X "sRGBA" 17 [Kernel] [] 0 0
  ; X "sBGRA" 18 [Kernel] [] 0 0
  ; X "ABGR" 19 [Kernel] [] 0 0
  ].

Definition DEF_ImageChannelDataType : list EnumEntry :=
  [ X "SnormInt8" 0 [] [] 0 0
  ; X "SnormInt16" 1 [] [] 0 0
  ; X "UnormInt8" 2 [Kernel] [] 0 0
  ; X "UnormInt16" 3 [Kernel] [] 0 0
  ; X "UnormShort565" 4 [Kernel] [] 0 0
  ; X "UnormShort555" 5 [Kernel] [] 0 0
  ; X "UnormInt101010" 6 [Kernel] [] 0 0
  ; X "SignedInt8" 7 [Kernel] [] 0 0
  ; X "SignedInt16" 8 [Kernel] [] 0 0
  ; X "SignedInt32" 9 [Kernel] [] 0 0
  ; X "UnsignedInt8" 10 [Kernel] [] 0 0
  ; X "UnsignedInt16" 11 [Kernel] [] 0 0
  ; X "UnsigendInt32" 12 [Kernel] [] 0 0
  ; X "HalfFloat" 13 [Kernel] [] 0 0
  ; X "Float" 14 [Kernel] [] 0 0
  ; X "UnormInt24" 15 [Kernel] [] 0 0
  ; X "UnormInt101010_2" 16 [Kernel] [] 0 0
  ].

Definition DEF_FPRoundingMode : list EnumEntry :=
  [ X "RTE" 0 [] [] 0 0
  ; X "RTZ" 1 [] [] 0 0
  ; X "RTP" 2 [] [] 0 0
  ; X "RTN" 3 [] [] 0 0
  ].

Definition DEF_LinkageType : list EnumEntry :=
  [ X "Export" 0 [Linkage] [] 0 0
  ; X "Import" 1 [Linkage] [] 0 0
  ].

Definition DEF_AccessQualifier : list EnumEntry :=
  [ X "ReadOnly" 0 [Kernel] [] 0 0
  ; X "WriteOnly" 1 [Kernel] [] 0 0
  ; X "ReadWrite" 2 [Kernel] [] 0 0
  ].

Definition DEF_FunctionParameterAttribute : list EnumEntry :=
  [ X "Zext" 0 [Kernel] [] 0 0
  ; X "Sext" 1 [Kernel] [] 0 0
  ; X "ByVal" 2 [Kernel] [] 0 0
  ; X "Sret" 3 [Kernel] [] 0 0
  ; X "NoAlias" 4 [Kernel] [] 0 0
  ; X "NoCapture" 5 [Kernel] [] 0 0
  ; X "NoWrite" 6 [Kernel] [] 0 0
  ; X "NoReadWrite" 7 [Kernel] [] 0 0
  ].

Definition DEF_Scope : list EnumEntry :=
  [ X "CrossDevice" 0 [] [] 0 0
  ; X "Device" 1 [] [] 0 0
  ; X "Workgroup" 2 [] [] 0 0
  ; X "Subgroup" 3 [] [] 0 0
  ; X "Invocation" 4 [] [] 0 0
  ; X "QueueFamilyKHR" 5 [VulkanMemoryModelKHR] [] 0 0
  ].

Definition DEF_GroupOperation : list EnumEntry :=
  [ X "Reduce" 0
      [Kernel; GroupNonUniformArithmetic; GroupNonUniformBallot] [] 0 0
  ; X "InclusiveScan" 1
      [Kernel; GroupNonUniformArithmetic; GroupNonUniformBallot] [] 0 0
  ; X "ExclusiveScan" 2
      [Kernel; GroupNonUniformArithmetic; GroupNonUniformBallot] [] 0 0
  ; X "ClusteredReduce" 3 [GroupNonUniformClustered] [] 0 0
  ; X "PartitionedReduceNV" 6 [GroupNonUniformPartitionedNV] [] 0 0
  ; X "PartitionedInclusiveScanNV" 7 [GroupNonUniformPartitionedNV] [] 0 0
  ; X "PartitionedExclusiveScanNV" 8 [GroupNonUniformPartitionedNV] [] 0 0
  ].

Definition DEF_KernelEnqueueFlags : list EnumEntry :=
  [ X "NoWait" 0 [Kernel] [] 0 0
  ; X "WaitKernel" 1 [Kernel] [] 0 0
  ; X "WaitWorkGroup" 2 [Kernel] [] 0 0
  ].

Definition DEF_ImageOperand : list EnumEntry :=
  [ X "None" 0 [] [] 0 0
  ; X "Bias" 1 [Shader] [] 0 0
  ; X "Lod" 2 [] [] 0 0
  ; X "Grad" 4 [] [] 0 0
  ; X "ConstOffset" 8 [] [] 0 0
  ; X "Offset" 16 [ImageGatherExtended] [] 0 0
  ; X "ConstOffsets" 32 [ImageGatherExtended] [] 0 0
  ; X "Sample" 64 [] [] 0 0
  ; X "MinLod" 128 [MinLod] [] 0 0
  ; X "MakeTexelAvailableKHR" 256 [VulkanMemoryModelKHR] [] 0 0
  ; X "MakeTexelVisibleKHR" 512 [VulkanMemoryModelKHR] [] 0 0
  ; X "NonPrivateTexelKHR" 1024 [VulkanMemoryModelKHR] [] 0 0
  ; X "VolatileTexelKHR" 2048 [VulkanMemoryModelKHR] [] 0 0
  ; X "SignExtend" 4096 [] [] 0 0
  ; X "ZeroExtend" 8192 [] [] 0 0
  ].

Definition DEF_FPFastMathMode : list EnumEntry :=
  [ X "None" 0 [] [] 0 0
  ; X "NotNaN" 1 [Kernel] [] 0 0
  ; X "NotInf" 2 [Kernel] [] 0 0
  ; X "NSZ" 4 [Kernel] [] 0 0
  ; X "AllowRecip" 8 [Kernel] [] 0 0
  ; X "Fast" 16 [Kernel] [] 0 0
  ].

Definition DEF_SelectionControl : list EnumEntry :=
  [ X "None" 0 [] [] 0 0
  ; X "Flatten" 1 [] [] 0 0
  ; X "DontFlatten" 2 [] [] 0 0
  ].

Definition DEF_LoopControl : list EnumEntry :=
  [ X "None" 0 [] [] 0 0
  ; X "Unroll" 1 [] [] 0 0
  ; X "DontUnroll" 2 [] [] 0 0
  ; X "DependencyInfinite" 4 [] [] 0 0
  ; X "DependencyLength" 8 [] [] 0 0
  ; X "MinIterations" 16 [] [] 0 0
  ; X "MaxIterations" 32 [] [] 0 0
  ; X "IterationMultiple" 64 [] [] 0 0
  ; X "PeelCount" 128 [] [] 0 0
  ; X "PartialCount" 256 [] [] 0 0
  ].

Definition DEF_FunctionControl : list EnumEntry :=
  [ X "None" 0 [] [] 0 0
  ; X "Inline" 1 [] [] 0 0
  ; X "DontInline" 2 [] [] 0 0
  ; X "Pure" 4 [] [] 0 0
  ; X "Const" 8 [] [] 0 0
  ].

Definition DEF_MemorySemantics : list EnumEntry :=
  [ X "None" 0 [] [] 0 0
  ; X "Acquire" 2 [] [] 0 0
  ; X "Release" 4 [] [] 0 0
  ; X "AcquireRelease" 8 [] [] 0 0
  ; X "SequentiallyConsistent" 16 [] [] 0 0
  ; X "UniformMemory" 64 [Shader] [] 0 0
  ; X "SubgroupMemory" 128 [] [] 0 0
  ; X "WorkgroupMemory" 256 [] [] 0 0
  ; X "CrossWorkgroupMemory" 512 [] [] 0 0
  ; X "AtomicCounterMemory" 1024 [AtomicStorage] [] 0 0
  ; X "ImageMemory" 2048 [] [] 0 0
  ; X "OutputMemoryKHR" 4096 [VulkanMemoryModelKHR] [] 0 0
  ; X "MakeAvailableKHR" 8192 [VulkanMemoryModelKHR] [] 0 0
  ; X "MakeVisibleKHR" 16384 [VulkanMemoryModelKHR] [] 0 0
  ].

Definition DEF_MemoryOperand : list EnumEntry :=
  [ X "None" 0 [] [] 0 0
  ; X "Volatile" 1 [] [] 0 0
  ; X "Aligned" 2 [] [] 0 0
  ; X "Nontemporal" 4 [] [] 0 0
  ; X "MakePointerAvailableKHR" 8 [VulkanMemoryModelKHR] [] 0 0
  ; X "MakePointerVisibleKHR" 16 [VulkanMemoryModelKHR] [] 0 0
  ; X "NonPrivatePointerKHR" 32 [VulkanMemoryModelKHR] [] 0 0
  ].

Definition DEF_KernelProfilingInfo : list EnumEntry :=
  [ X "None" 0 [] [] 0 0
  ; X "CmdExecTime" 1 [Kernel] [] 0 0
  ].

(** ** SPIRVEnums.h: the functions the macros generate *)

(** The [case] labels of a generated [switch], in the order of the rows:
    the first row that has the value decides, with [default] for a value
    no row has. *)
Fixpoint switchCases {A} (rows : list EnumEntry) (e : Z)
    (result : EnumEntry -> A) (default : A) : A :=
  match rows with
  | [] => default
  | r :: rows' =>
      if e =? Val r then result r else switchCases rows' e result default
  end.

(** [DEF_NAME_FUNC_BODY]. *)
Definition getEnumName (table : list EnumEntry) (e : Z) : string :=
  switchCases table e Var "UNKNOWN_ENUM".

(** Two of the functions [DEF_NAME_FUNC_HEADER] declares, with the body
    the header gives for an enumeration that takes a single value. *)
Definition getStorageClassName := getEnumName DEF_StorageClass.
Definition getBuiltInName := getEnumName DEF_BuiltIn.

(** [DEF_BUILTIN_LINK_STR_FUNC_BODY]. *)
Definition getLinkStrForBuiltIn (builtIn : Z) : string :=
  switchCases DEF_BuiltIn builtIn (fun r => "__spirv_BuiltIn" +:+ Var r)
    "UNKNOWN_BUILTIN".

(** The second test of [MAKE_MASK_ENUM_NAME_CASE]. *)
Definition overlaps (e : Z) (r : EnumEntry) : bool :=
  negb (uint32 (Val r) =? 0)
  && negb (Z.land (uint32 e) (uint32 (Val r)) =? 0).

(** The expansions of [MAKE_MASK_ENUM_NAME_CASE], one for each row, on the
    two local variables of the function. *)
Fixpoint maskCases (rows : list EnumEntry) (e : Z)
    (nameString sep : string) : string :=
  match rows with
  | [] => nameString
  | r :: rows' =>
      if e =? Val r then Var r
      else if overlaps e r
      then maskCases rows' e (nameString +:+ sep +:+ Var r) "|"
      else maskCases rows' e nameString sep
  end.

(** [DEF_MASK_NAME_FUNC_BODY]. *)
Definition getMaskEnumName (table : list EnumEntry) (e : Z) : string :=
  maskCases table e "" "".

(** The function of the mask the header gives as its example. *)
Definition getFunctionControlName := getMaskEnumName DEF_FunctionControl.

(** The tables of the enumerations that take a single value and whose name
    function the macros generate.  [DEF_Dim] is not among them: the header
    says that [getDimName] is written by hand. *)
Definition enumTables : list (list EnumEntry) :=
  [DEF_SourceLanguage; DEF_AddressingModel; DEF_ExecutionModel;
   DEF_MemoryModel; DEF_ExecutionMode; DEF_StorageClass;
   DEF_SamplerAddressingMode; DEF_SamplerFilterMode; DEF_ImageFormat;
   DEF_ImageChannelOrder; DEF_ImageChannelDataType; DEF_FPRoundingMode;
   DEF_LinkageType; DEF_AccessQualifier; DEF_FunctionParameterAttribute;
   DEF_Decoration; DEF_BuiltIn; DEF_Scope; DEF_GroupOperation;
   DEF_KernelEnqueueFlags].

(** The tables of the enumerations that are masks of bits. *)
Definition maskTables : list (list EnumEntry) :=
  [DEF_ImageOperand; DEF_FPFastMathMode; DEF_SelectionControl;
   DEF_LoopControl; DEF_FunctionControl; DEF_MemorySemantics;
   DEF_MemoryOperand; DEF_KernelProfilingInfo].

Lemma switchCases_unknown {A} rows e (result : EnumEntry -> A) default :
  e ∉ map Val rows -> switchCases rows e result default = default.
Proof.
  induction rows as [|r rows IH]; simpl; [done|]. intros Hn.
  apply not_elem_of_cons in Hn as [Hne Hn].
  destruct (Z.eqb_spec e (Val r)); [done|]. by apply IH.
Qed.

Lemma switchCases_known {A} rows r (result : EnumEntry -> A) default :
  NoDup (map Val rows) -> r ∈ rows ->
  switchCases rows (Val r) result default = result r.
Proof.
  induction rows as [|r' rows IH]; simpl; intros Hnd Hin.
  - by apply elem_of_nil in Hin.
  - apply NoDup_cons in Hnd as [Hnotin Hnd].
    apply elem_of_cons in Hin as [->|Hin].
    + by rewrite Z.eqb_refl.
    + destruct (Z.eqb_spec (Val r) (Val r')) as [E|_]; [|by apply IH].
      exfalso. apply Hnotin. rewrite <- E.
      change (map Val rows) with (Val <$> rows). by apply list_elem_of_fmap_2.
Qed.

Lemma switchCases_cases {A} rows e (result : EnumEntry -> A) default :
  (e ∉ map Val rows /\ switchCases rows e result default = default)
  \/ (exists r, r ∈ rows /\ Val r = e
                /\ switchCases rows e result default = result r).
Proof.
  induction rows as [|r rows IH]; simpl.
  - left. split; [apply not_elem_of_nil|done].
  - destruct (Z.eqb_spec e (Val r)) as [->|Hne].
    + right. exists r. split; [apply list_elem_of_here|done].
    + destruct IH as [[Hn E]|(r' & Hin & Hv & E)].
      * left. split; [|done]. by apply not_elem_of_cons.
      * right. exists r'. split; [by apply list_elem_of_further|done].
Qed.

Lemma NoDup_inj_on {A B} `{EqDecision B} (f : A -> B) (l : list A) x y :
  NoDup (map f l) -> x ∈ l -> y ∈ l -> f x = f y -> x = y.
Proof.
  induction l as [|a l IH]; simpl; intros Hnd Hx Hy E.
  - by apply elem_of_nil in Hx.
  - apply NoDup_cons in Hnd as [Hnotin Hnd].
    change (map f l) with (f <$> l) in Hnotin.
    apply elem_of_cons in Hx as [->|Hx]; apply elem_of_cons in Hy as [->|Hy].
    + done.
    + exfalso. apply Hnotin. rewrite E. by apply list_elem_of_fmap_2.
    + exfalso. apply Hnotin. rewrite <- E. by apply list_elem_of_fmap_2.
    + by apply IH.
Qed.

(** A table whose rows differ in their values and in their names, and
    which has no row of the name [unknown]. *)
Definition wellNamed (unknown : string) (table : list EnumEntry) : bool :=
  bool_decide (NoDup (map Val table))
  && bool_decide (NoDup (map Var table))
  && bool_decide (unknown ∉ map Var table).

Lemma enumTables_wellNamed table :
  table ∈ enumTables -> wellNamed "UNKNOWN_ENUM" table = true.
Proof.
  intros H. unfold enumTables in H.
  repeat (apply elem_of_cons in H as [->|H]; [vm_compute; reflexivity|]).
  by apply elem_of_nil in H.
Qed.

Lemma wellNamed_spec unknown table :
  wellNamed unknown table = true ->
  NoDup (map Val table) /\ NoDup (map Var table) /\ unknown ∉ map Var table.
Proof.
  unfold wellNamed. rewrite !andb_true_iff, !bool_decide_eq_true. tauto.
Qed.

Lemma Var_in_table (table : list EnumEntry) r :
  r ∈ table -> Var r ∈ map Var table.
Proof.
  intros H. change (map Var table) with (Var <$> table).
  by apply list_elem_of_fmap_2.
Qed.

(** X14. In each of the 20 tables of single-valued enumerations with a
    generated name function, that function gives the name of the row that
    has the value, and ["UNKNOWN_ENUM"] exactly for a value no row has; two
    values with the same name are equal or both unknown, so a printed name
    identifies the value. *)
Theorem enum_names_identify_values (table : list EnumEntry) (a b : Z) :
  table ∈ enumTables ->
  (getEnumName table a = "UNKNOWN_ENUM" <-> a ∉ map Val table)
  /\ (forall r, r ∈ table -> getEnumName table (Val r) = Var r)
  /\ (getEnumName table a = getEnumName table b ->
      a = b \/ (a ∉ map Val table /\ b ∉ map Val table)).
Proof.
  intros Ht. apply enumTables_wellNamed, wellNamed_spec in Ht
    as (HV & HN & HU).
  unfold getEnumName. split; [|split].
  - split; [|apply switchCases_unknown].
    destruct (switchCases_cases table a Var "UNKNOWN_ENUM")
      as [[Hn _]|(r & Hin & _ & ->)]; [done|].
    intros E. exfalso. apply HU. rewrite <- E. by apply Var_in_table.
  - intros r Hr. by apply switchCases_known.
  - destruct (switchCases_cases table a Var "UNKNOWN_ENUM")
      as [[Ha ->]|(ra & Hina & <- & ->)];
    destruct (switchCases_cases table b Var "UNKNOWN_ENUM")
      as [[Hb ->]|(rb & Hinb & <- & ->)]; intros E.
    + by right.
    + exfalso. apply HU. rewrite E. by apply Var_in_table.
    + exfalso. apply HU. rewrite <- E. by apply Var_in_table.
    + left. f_equal. by apply (NoDup_inj_on Var table).
Qed.

Lemma enum_names_identify_values_witness :
  getStorageClassName 12 = "StorageBuffer"
  /\ (getStorageClassName 13 = "UNKNOWN_ENUM"
      <-> 13 ∉ map Val DEF_StorageClass).
Proof.
  assert (DEF_StorageClass ∈ enumTables) as Ht.
  { apply (list_elem_of_lookup_2 _ 5%nat). reflexivity. }
  split.
  - apply (proj1 (proj2 (enum_names_identify_values DEF_StorageClass 0 0 Ht))
             (X "StorageBuffer" 12 [Shader] [] 0 0)).
    apply (list_elem_of_lookup_2 _ 12%nat). reflexivity.
  - exact (proj1 (enum_names_identify_values DEF_StorageClass 13 0 Ht)).
Defined.

Lemma append_assoc (s1 s2 s3 : string) :
  (s1 +:+ s2) +:+ s3 = s1 +:+ s2 +:+ s3.
Proof.
  induction s1 as [|a s1 IH]; [done|].
  change (String a ((s1 +:+ s2) +:+ s3) = String a (s1 +:+ s2 +:+ s3)).
  by f_equal.
Qed.

Lemma append_empty_r (s : string) : s +:+ "" = s.
Proof.
  induction s as [|a s IH]; [done|].
  change (String a (s +:+ "") = String a s). by f_equal.
Qed.

(** What the rows after an exact match or, without one, the rows that
    overlap add to [nameString]. *)
Definition joined (sep : string) (names : list string) : string :=
  match names with
  | [] => ""
  | _ => sep +:+ String.concat "|" names
  end.

Lemma maskCases_joined rows e nameString sep :
  maskCases rows e nameString sep
  = match find (fun r => e =? Val r) rows with
    | Some r => Var r
    | None => nameString +:+ joined sep (map Var (filter (overlaps e) rows))
    end.
Proof.
  revert nameString sep.
  induction rows as [|r rows IH]; intros nameString sep; simpl.
  - by rewrite append_empty_r.
  - destruct (e =? Val r); [done|].
    unfold filter. simpl. fold (filter (overlaps e) rows).
    destruct (decide (overlaps e r)) as [Ho|Ho].
    + apply Is_true_eq_true in Ho. rewrite Ho, IH.
      destruct (find _ rows); [done|]. simpl.
      destruct (filter (overlaps e) rows) as [|r' l]; simpl.
      * by rewrite append_empty_r.
      * by rewrite !append_assoc.
    + destruct (overlaps e r); [by destruct Ho|]. apply IH.
Qed.

Lemma filter_bool_ext {A} (f g : A -> bool) (l : list A) :
  (forall x, x ∈ l -> f x = g x) -> filter f l = filter g l.
Proof.
  induction l as [|a l IH]; intros H; [done|].
  rewrite !filter_cons, (H a) by apply list_elem_of_here.
  rewrite IH by (intros x Hx; apply H; by apply list_elem_of_further).
  done.
Qed.

Lemma filter_bool_none {A} (f : A -> bool) (l : list A) :
  (forall x, x ∈ l -> f x = false) -> filter f l = [].
Proof.
  induction l as [|a l IH]; intros H; [done|].
  rewrite filter_cons, (H a) by apply list_elem_of_here.
  apply IH. intros x Hx. apply H. by apply list_elem_of_further.
Qed.

Lemma getMaskEnumName_form (table : list EnumEntry) (e : Z) :
  getMaskEnumName table e
  = match find (fun r => e =? Val r) table with
    | Some r => Var r
    | None => String.concat "|" (map Var (filter (overlaps e) table))
    end.
Proof.
  unfold getMaskEnumName. rewrite maskCases_joined.
  destruct (find _ table); [done|]. simpl.
  by destruct (filter (overlaps e) table).
Qed.

Lemma find_exact_None (table : list EnumEntry) (e : Z) :
  (forall r, r ∈ table -> Val r <> e) ->
  find (fun r => e =? Val r) table = None.
Proof.
  intros Hx. destruct (find _ table) as [r|] eqn:E; [|done].
  apply find_some in E as [Hin E]. apply Z.eqb_eq in E.
  apply list_elem_of_In in Hin. by destruct (Hx r Hin).
Qed.

(** X15. The name of a mask value is the name of the first row that has
    exactly this value; without such a row it is made of the names of the
    rows of non-zero value that share a bit with it, in the order of the
    table and with ["|"] between them.  So a value that shares no bit with
    a row has the empty name, and bits that no row has are left out of the
    name. *)
Theorem getMaskEnumName_joins (table : list EnumEntry) (e : Z) :
  getMaskEnumName table e
  = match find (fun r => e =? Val r) table with
    | Some r => Var r
    | None => String.concat "|" (map Var (filter (overlaps e) table))
    end
  /\ ((forall r, r ∈ table -> Val r <> e /\ overlaps e r = false) ->
      getMaskEnumName table e = "")
  /\ (forall e',
        (forall r, r ∈ table ->
           Val r <> e /\ Val r <> e' /\ overlaps e r = overlaps e' r) ->
        getMaskEnumName table e = getMaskEnumName table e').
Proof.
  split; [apply getMaskEnumName_form|]. split.
  - intros H.
    rewrite getMaskEnumName_form, find_exact_None
      by (intros r Hr; apply (H r Hr)).
    assert (filter (overlaps e) table = []) as ->; [|done].
    apply filter_bool_none. intros r Hr. apply (H r Hr).
  - intros e' H.
    rewrite !getMaskEnumName_form, !find_exact_None
      by (intros r Hr; apply (H r Hr)).
    f_equal. f_equal. apply filter_bool_ext. intros r Hr. apply (H r Hr).
Qed.

Lemma getMaskEnumName_joins_witness :
  getFunctionControlName 16 = ""
  /\ getFunctionControlName 10 = getFunctionControlName 26.
Proof.
  split.
  - apply (proj1 (proj2 (getMaskEnumName_joins DEF_FunctionControl 16))).
    intros r Hr. unfold DEF_FunctionControl in Hr.
    repeat (apply elem_of_cons in Hr as [->|Hr];
            [split; [discriminate|reflexivity]|]).
    by apply elem_of_nil in Hr.
  - apply (proj2 (proj2 (getMaskEnumName_joins DEF_FunctionControl 10))).
    intros r Hr. unfold DEF_FunctionControl in Hr.
    repeat (apply elem_of_cons in Hr as [->|Hr];
            [split; [discriminate|split; [discriminate|reflexivity]]|]).
    by apply elem_of_nil in Hr.
Defined.

(** The example of the header: [DontInline|Const]. *)
Example getFunctionControlName_examples :
  getFunctionControlName 10 = "DontInline|Const"
  /\ getFunctionControlName 0 = "None"
  /\ getFunctionControlName 8 = "Const"
  /\ getFunctionControlName 15 = "Inline|DontInline|Pure|Const".
Proof. repeat split. Qed.

(** X16. The link name of a built-in is ["__spirv_BuiltIn"] followed by
    the name [getBuiltInName] gives it, and ["UNKNOWN_BUILTIN"] exactly for
    a value that is no built-in; two values with the same link name are
    equal or both unknown. *)
Theorem getLinkStrForBuiltIn_identifies (a b : Z) :
  (a ∈ map Val DEF_BuiltIn ->
   getLinkStrForBuiltIn a = "__spirv_BuiltIn" +:+ getBuiltInName a)
  /\ (getLinkStrForBuiltIn a = "UNKNOWN_BUILTIN" <-> a ∉ map Val DEF_BuiltIn)
  /\ (getLinkStrForBuiltIn a = getLinkStrForBuiltIn b ->
      a = b \/ (a ∉ map Val DEF_BuiltIn /\ b ∉ map Val DEF_BuiltIn)).
Proof.
  assert (wellNamed "UNKNOWN_ENUM" DEF_BuiltIn = true) as Hw
    by (vm_compute; reflexivity).
  apply wellNamed_spec in Hw as (HV & HN & _).
  unfold getLinkStrForBuiltIn, getBuiltInName, getEnumName.
  set (link := fun r => "__spirv_BuiltIn" +:+ Var r).
  assert (forall r, link r <> "UNKNOWN_BUILTIN") as Hlink by done.
  assert (forall r r', link r = link r' -> Var r = Var r') as Hinj.
  { intros r r' E. by apply (String.app_inj "__spirv_BuiltIn"). }
  split; [|split].
  - intros Ha.
    destruct (switchCases_cases DEF_BuiltIn a link "UNKNOWN_BUILTIN")
      as [[Hn _]|(r & Hin & <- & ->)]; [done|].
    by rewrite switchCases_known.
  - split; [|apply switchCases_unknown].
    destruct (switchCases_cases DEF_BuiltIn a link "UNKNOWN_BUILTIN")
      as [[Hn _]|(r & Hin & _ & ->)]; [done|].
    intros E. by destruct (Hlink r).
  - destruct (switchCases_cases DEF_BuiltIn a link "UNKNOWN_BUILTIN")
      as [[Ha ->]|(ra & Hina & <- & ->)];
    destruct (switchCases_cases DEF_BuiltIn b link "UNKNOWN_BUILTIN")
      as [[Hb ->]|(rb & Hinb & <- & ->)]; intros E.
    + by right.
    + by destruct (Hlink rb).
    + by destruct (Hlink ra).
    + left. f_equal. apply (NoDup_inj_on Var DEF_BuiltIn); auto.
Qed.

Lemma getLinkStrForBuiltIn_identifies_witness :
  getLinkStrForBuiltIn 0 = "__spirv_BuiltIn" +:+ getBuiltInName 0.
Proof.
  apply (proj1 (getLinkStrForBuiltIn_identifies 0 0)).
  apply (list_elem_of_lookup_2 _ 0%nat). reflexivity.
Defined.

(** ** The name of a mask identifies the mask *)

(** The bits the rows of a table name. *)
Definition tableBits (table : list EnumEntry) : Z :=
  foldr Z.lor 0 (map Val table).

Fixpoint hasChar (c : Ascii.ascii) (s : string) : bool :=
  match s with
  | EmptyString => false
  | String a s' => Ascii.eqb a c || hasChar c s'
  end.

(** The character ["|"]. *)
Definition bar : Ascii.ascii := Ascii.ascii_of_nat 124.

(** The parts of [s] between the occurrences of [c]. *)
Fixpoint splitOn (c : Ascii.ascii) (s : string) : list string :=
  match s with
  | EmptyString => [EmptyString]
  | String a s' =>
      if Ascii.eqb a c then EmptyString :: splitOn c s'
      else match splitOn c s' with
           | [] => [String a EmptyString]
           | x :: xs => String a x :: xs
           end
  end.

(** The value of the row of the name [n], and the mask of a list of
    names. *)
Definition valueOfName (table : list EnumEntry) (n : string) : Z :=
  match find (fun r => String.eqb (Var r) n) table with
  | Some r => Val r
  | None => 0
  end.

Definition maskOfNames (table : list EnumEntry) (names : list string) : Z :=
  foldr Z.lor 0 (map (valueOfName table) names).

(** A row of a table of bits: its value is zero or a single bit of a
    32-bit word, and its name is not empty and has no ["|"]. *)
Definition bitRow (r : EnumEntry) : bool :=
  (0 <=? Val r) && (Val r <? 2 ^ 32)
  && ((Val r =? 0) || (Val r =? 2 ^ Z.log2 (Val r)))
  && negb (hasChar bar (Var r)) && negb (String.eqb (Var r) "").

Definition bitTable (table : list EnumEntry) : bool :=
  forallb bitRow table && bool_decide (NoDup (map Var table)).

Lemma maskTables_bitTable table :
  table ∈ maskTables -> bitTable table = true.
Proof.
  intros H. unfold maskTables in H.
  repeat (apply elem_of_cons in H as [->|H]; [vm_compute; reflexivity|]).
  by apply elem_of_nil in H.
Qed.

Lemma bitRow_spec r :
  bitRow r = true ->
  0 <= Val r < 2 ^ 32
  /\ (Val r = 0 \/ Val r = 2 ^ Z.log2 (Val r))
  /\ hasChar bar (Var r) = false /\ Var r <> "".
Proof.
  unfold bitRow. rewrite !andb_true_iff, orb_true_iff, !negb_true_iff.
  rewrite Z.leb_le, Z.ltb_lt, !Z.eqb_eq, String.eqb_neq. tauto.
Qed.

Lemma bitTable_spec table :
  bitTable table = true ->
  (forall r, r ∈ table -> bitRow r = true) /\ NoDup (map Var table).
Proof.
  unfold bitTable. rewrite andb_true_iff, bool_decide_eq_true, forallb_forall.
  intros [H1 H2]. split; [|done]. intros r Hr. by apply H1, list_elem_of_In.
Qed.

Lemma land_single_bit (e v : Z) :
  v = 2 ^ Z.log2 v -> Z.land e v = 0 \/ Z.land e v = v.
Proof.
  intros Hv. pose proof (Z.log2_nonneg v) as Hk. rewrite Hv.
  generalize dependent (Z.log2 v). intros k _ Hk.
  destruct (Z.testbit e k) eqn:Eb; [right|left]; apply Z.bits_inj';
    intros m Hm; rewrite Z.land_spec, ?Z.bits_0, Z.pow2_bits_eqb by lia;
    destruct (Z.eqb_spec k m) as [->|Hne]; rewrite ?Eb, ?andb_false_r; done.
Qed.

Lemma overlaps_land (e : Z) (r : EnumEntry) :
  bitRow r = true ->
  (overlaps e r = true -> Z.land e (Val r) = Val r)
  /\ (overlaps e r = false -> Z.land e (Val r) = 0).
Proof.
  intros (Hr & Hbit & _)%bitRow_spec. unfold overlaps, uint32.
  rewrite (Z.mod_small (Val r)) by done.
  assert (Z.land (e mod 2 ^ 32) (Val r) = Z.land e (Val r)) as ->.
  { rewrite <- Z.land_ones, <- Z.land_assoc by lia. f_equal.
    rewrite Z.land_comm, Z.land_ones by lia. by apply Z.mod_small. }
  destruct (Z.eqb_spec (Val r) 0) as [E0|Hne0]; simpl.
  - split; [done|]. intros _. rewrite E0. apply Z.land_0_r.
  - destruct Hbit as [?|Hbit]; [done|].
    destruct (land_single_bit e (Val r) Hbit) as [E|E]; rewrite E.
    + simpl. split; done.
    + rewrite (proj2 (Z.eqb_neq _ _) Hne0). split; done.
Qed.

Lemma land_tableBits (e : Z) (rows : list EnumEntry) :
  (forall r, r ∈ rows -> bitRow r = true) ->
  Z.land e (tableBits rows)
  = foldr Z.lor 0 (map Val (filter (overlaps e) rows)).
Proof.
  unfold tableBits. induction rows as [|r rows IH]; intros Hrows; simpl.
  - apply Z.land_0_r.
  - rewrite Z.land_lor_distr_r, IH
      by (intros r' Hr'; by apply Hrows, list_elem_of_further).
    destruct (overlaps_land e r) as [Ht Hf];
      [apply Hrows, list_elem_of_here|].
    rewrite filter_cons. destruct (overlaps e r) eqn:Eo; simpl.
    + by rewrite Ht.
    + by rewrite Hf.
Qed.

Lemma splitOn_free (c : Ascii.ascii) (s : string) :
  hasChar c s = false -> splitOn c s = [s].
Proof.
  induction s as [|a s IH]; simpl; [done|].
  intros [Ha Hs]%orb_false_iff. by rewrite Ha, IH.
Qed.

Lemma splitOn_append (c : Ascii.ascii) (s1 s2 : string) :
  hasChar c s1 = false ->
  splitOn c (s1 +:+ String c s2) = s1 :: splitOn c s2.
Proof.
  induction s1 as [|a s1 IH]; intros H.
  - change (splitOn c (String c s2) = "" :: splitOn c s2).
    simpl. by rewrite Ascii.eqb_refl.
  - simpl in H. apply orb_false_iff in H as [Ha Hs].
    change (splitOn c (String a (s1 +:+ String c s2))
            = String a s1 :: splitOn c s2).
    simpl. by rewrite Ha, IH.
Qed.

Lemma splitOn_concat (names : list string) :
  names <> [] -> (forall n, n ∈ names -> hasChar bar n = false) ->
  splitOn bar (String.concat "|" names) = names.
Proof.
  induction names as [|x names IH]; intros Hne Hfree; [done|].
  destruct names as [|y names].
  - simpl. apply splitOn_free, Hfree, list_elem_of_here.
  - change (String.concat "|" (x :: y :: names))
      with (x +:+ String bar (String.concat "|" (y :: names))).
    rewrite splitOn_append by apply Hfree, list_elem_of_here.
    f_equal. apply IH; [done|].
    intros n Hn. by apply Hfree, list_elem_of_further.
Qed.

Lemma valueOfName_known (table : list EnumEntry) (r : EnumEntry) :
  NoDup (map Var table) -> r ∈ table -> valueOfName table (Var r) = Val r.
Proof.
  unfold valueOfName. induction table as [|r' table IH]; simpl;
    intros Hnd Hin.
  - by apply elem_of_nil in Hin.
  - apply NoDup_cons in Hnd as [Hnotin Hnd].
    destruct (String.eqb_spec (Var r') (Var r)) as [E|Hne].
    + apply elem_of_cons in Hin as [->|Hin]; [done|].
      exfalso. apply Hnotin. rewrite E. by apply Var_in_table.
    + apply elem_of_cons in Hin as [->|Hin]; [done|]. by apply IH.
Qed.

Lemma valueOfName_empty (table : list EnumEntry) :
  (forall r, r ∈ table -> Var r <> "") -> valueOfName table "" = 0.
Proof.
  intros H. unfold valueOfName.
  destruct (find _ table) as [r|] eqn:E; [|done].
  apply find_some in E as [Hin E]. apply String.eqb_eq in E.
  apply list_elem_of_In in Hin. by destruct (H r Hin).
Qed.

(** Reading the name of a mask back gives the mask, when the mask has no
    bit outside the table. *)
Lemma maskOfNames_getMaskEnumName (table : list EnumEntry) (e : Z) :
  bitTable table = true ->
  Z.land e (tableBits table) = e ->
  maskOfNames table (splitOn bar (getMaskEnumName table e)) = e.
Proof.
  intros [Hrows Hnd]%bitTable_spec He.
  assert (forall r, r ∈ table ->
            0 <= Val r /\ hasChar bar (Var r) = false /\ Var r <> "") as Hrow.
  { intros r Hr. destruct (bitRow_spec r (Hrows r Hr)) as (? & _ & ? & ?).
    split; [lia|done]. }
  rewrite getMaskEnumName_form. unfold maskOfNames.
  destruct (find _ table) as [r|] eqn:Ef.
  - apply find_some in Ef as [Hin Ee]. apply Z.eqb_eq in Ee.
    apply list_elem_of_In in Hin. destruct (Hrow r Hin) as (H0 & Hfree & _).
    rewrite splitOn_free by done. simpl.
    rewrite valueOfName_known by done. rewrite Z.lor_0_r. done.
  - transitivity (Z.land e (tableBits table)); [|exact He].
    rewrite land_tableBits by done. clear He Ef.
    assert (forall r, r ∈ filter (overlaps e) table -> r ∈ table) as Hsub.
    { intros r Hr. by apply list_elem_of_filter in Hr as [_ Hr]. }
    destruct (filter (overlaps e) table) as [|r0 S] eqn:ES.
    + simpl. rewrite valueOfName_empty; [done|]. intros r Hr.
      apply (Hrow r Hr).
    + rewrite splitOn_concat.
      * f_equal. rewrite map_map. apply map_ext_in. intros r Hr.
        apply valueOfName_known; [done|]. by apply Hsub, list_elem_of_In.
      * done.
      * intros n Hn. change (map Var (r0 :: S)) with (Var <$> r0 :: S) in Hn.
        apply list_elem_of_fmap in Hn as (r & -> & Hr).
        apply (Hrow r), Hsub, Hr.
Qed.

(** X17. In each of the eight tables of masks every row names no bit or a
    single bit, so the name of a mask that has no bit outside the table
    identifies the mask: two such masks of the same name are equal. *)
Theorem mask_names_identify_masks (table : list EnumEntry) (e e' : Z) :
  table ∈ maskTables ->
  Z.land e (tableBits table) = e ->
  Z.land e' (tableBits table) = e' ->
  getMaskEnumName table e = getMaskEnumName table e' ->
  e = e'.
Proof.
  intros Ht He He' E. apply maskTables_bitTable in Ht.
  rewrite <- (maskOfNames_getMaskEnumName table e Ht He),
    <- (maskOfNames_getMaskEnumName table e' Ht He').
  by rewrite E.
Qed.

Lemma mask_names_identify_masks_witness :
  Z.land 66 (tableBits DEF_MemorySemantics) = 66
  /\ getMaskEnumName DEF_MemorySemantics 66
     = getMaskEnumName DEF_MemorySemantics (Z.lor 2 64)
  /\ 66 = Z.lor 2 64.
Proof.
  split; [reflexivity|]. split; [reflexivity|].
  apply (mask_names_identify_masks DEF_MemorySemantics 66 (Z.lor 2 64)).
  - apply (list_elem_of_lookup_2 _ 5%nat). reflexivity.
  - reflexivity.
  - reflexivity.
  - reflexivity.
Defined.

(** ** SPIRVAddRequirementsPass.cpp: faults and what is read *)

Lemma mbind_mret {A B} (a : A) (k : A -> Mapper B) : mbind (mret a) k = k a.
Proof. unfold mbind, mret. by destruct (k a). Qed.

Lemma uint32_uint32 (x : Z) : uint32 (uint32 x) = uint32 x.
Proof. unfold uint32. by rewrite Z.mod_mod. Qed.

(** The opcodes whose rule calls [addVariablePtrInstrReqs]. *)
Definition pointerDefining : list Opcode :=
  [OpSelect; OpPhi; OpFunctionCall; OpPtrAccessChain; OpLoad; OpConstantNull].

(** The opcodes whose rule reads an operand. *)
Definition operandReading : list Opcode :=
  [OpMemoryModel; OpEntryPoint; OpExecutionMode; OpExecutionModeId;
   OpTypeInt; OpTypeFloat; OpTypeVector; OpTypePointer;
   OpDecorate; OpDecorateId; OpDecorateString;
   OpMemberDecorate; OpMemberDecorateString; OpTypeImage]
  ++ pointerDefining.

(** X18. What an instruction asks for depends on the register table only
    through the opcode of the instruction that defines the register at
    operand 1, and only for the six pointer-defining opcodes on a target
    with logical addressing. *)
Theorem addInstrRequirements_frame (MI : MachineInstr)
    (MRI MRI' : MachineRegisterInfo) (ST : SPIRVSubtarget) :
  (isLogicalAddressing ST = true -> getOpcode MI ∈ pointerDefining ->
   forall r, operands MI !! 1%nat = Some (MO_Register r) ->
     getOpcode <$> MRI !! r = getOpcode <$> MRI' !! r) ->
  addInstrRequirements MI MRI ST = addInstrRequirements MI MRI' ST.
Proof.
  intros H.
  assert (getOpcode MI ∈ pointerDefining ->
          addVariablePtrInstrReqs MI MRI ST
          = addVariablePtrInstrReqs MI MRI' ST)
    as Hptr.
  { intros Hop. unfold addVariablePtrInstrReqs.
    destruct (isLogicalAddressing ST) eqn:HL; [|done].
    specialize (H eq_refl Hop). unfold getOperand.
    destruct (operands MI !! 1%nat) as [[r|z]|]; [|done..].
    rewrite !mbind_mret. simpl. specialize (H r eq_refl).
    destruct (MRI !! r) as [def|], (MRI' !! r) as [def'|];
      simplify_eq/=; [|done]. by rewrite H. }
  unfold addInstrRequirements.
  destruct (getOpcode MI); try reflexivity; apply Hptr;
    unfold pointerDefining; set_solver.
Qed.

Lemma addInstrRequirements_frame_witness :
  let MI := mkMachineInstr OpLoad [MO_Register 1%N; MO_Register 2%N] in
  addInstrRequirements MI
    {[ 2%N := mkMachineInstr OpTypePointer [MO_Register 2%N; MO_Immediate 7] ]}
    vulkanSubtarget
  = addInstrRequirements MI
      {[ 2%N := mkMachineInstr OpTypePointer [] ;
         5%N := mkMachineInstr OpTypeInt [MO_Register 5%N; MO_Immediate 32] ]}
      vulkanSubtarget.
Proof.
  apply addInstrRequirements_frame. intros _ _ r [= <-]. vm_compute.
  reflexivity.
Defined.

Lemma dimension_requests (dim : option Dim) (isArrayed isMultisampled
    noSampler : bool) :
  exists l,
    (length l <= 2)%nat
    /\ match dim with
       | Some DIM_1D =>
           addRequirementsReq
             (capabilityRequirements (if noSampler then Image1D else Sampled1D))
       | Some DIM_2D =>
           if isMultisampled && noSampler
           then addRequirementsReq (capabilityRequirements ImageMSArray)
           else mret tt
       | Some DIM_3D => mret tt
       | Some DIM_Cube =>
           addRequirementsReq (capabilityRequirements Shader) ;;
           if isArrayed then
             addRequirementsReq
               (capabilityRequirements
                  (if noSampler then ImageCubeArray else SampledCubeArray))
           else mret tt
       | Some DIM_Rect =>
           addRequirementsReq
             (capabilityRequirements
                (if noSampler then ImageRect else SampledRect))
       | Some DIM_Buffer =>
           addRequirementsReq
             (capabilityRequirements
                (if noSampler then ImageBuffer else SampledBuffer))
       | Some DIM_SubpassData =>
           addRequirementsReq (capabilityRequirements InputAttachment)
       | None => mret tt
       end = (l, inr tt).
Proof.
  destruct dim as [[]|], isArrayed, isMultisampled, noSampler; simpl;
    eexists; (split; [|reflexivity]); simpl; lia.
Qed.

(** The operands the rule of [MI] reads with [getImm], in the order in
    which it reads them as long as each is an immediate. *)
Definition immediatesRead (MI : MachineInstr) (ST : SPIRVSubtarget) :
    list nat :=
  let builtIn (decIndex : nat) :=
    match operands MI !! decIndex with
    | Some (MO_Immediate decOp) =>
        if decOp =? Decoration_BuiltIn then [(decIndex + 1)%nat] else []
    | _ => []
    end in
  match getOpcode MI with
  | OpMemoryModel => [0; 1]%nat
  | OpEntryPoint => [0%nat]
  | OpExecutionMode | OpExecutionModeId => [1%nat]
  | OpTypeInt | OpTypeFloat | OpTypePointer => [1%nat]
  | OpTypeVector => [2%nat]
  | OpDecorate | OpDecorateId | OpDecorateString => 1%nat :: builtIn 1%nat
  | OpMemberDecorate | OpMemberDecorateString => 2%nat :: builtIn 2%nat
  | OpTypeImage =>
      [7; 4; 5; 6; 2]%nat
      ++ (if isKernel ST && (8 <? getNumOperands MI)%nat then [8%nat] else [])
  | _ => []
  end.

(** The fault of reading the operands [reads] in turn with [getImm]: that
    of the first which is not an immediate. *)
Fixpoint firstFault (MI : MachineInstr) (reads : list nat) : option Error :=
  match reads with
  | [] => None
  | i :: rest =>
      match operands MI !! i with
      | None => Some MalformedInstruction
      | Some (MO_Register _) => Some WrongOperandAccessor
      | Some (MO_Immediate _) => firstFault MI rest
      end
  end.

(** The assertion of [addOpTypeImageReqs] fails. *)
Definition tooFewOperands (MI : MachineInstr) : bool :=
  bool_decide (getOpcode MI = OpTypeImage) && (getNumOperands MI <? 8)%nat.

(** The fault of the rule of [MI], read off its operands. *)
Definition faultOfOperands (MI : MachineInstr) (MRI : MachineRegisterInfo)
    (ST : SPIRVSubtarget) : option Error :=
  if bool_decide (getOpcode MI ∈ pointerDefining) then
    if isLogicalAddressing ST then
      match operands MI !! 1%nat with
      | None => Some MalformedInstruction
      | Some (MO_Immediate _) => Some WrongOperandAccessor
      | Some (MO_Register type) =>
          match MRI !! type with
          | None => Some UndefinedRegister
          | Some _ => None
          end
      end
    else None
  else if tooFewOperands MI then Some MalformedInstruction
  else firstFault MI (immediatesRead MI ST).

Lemma firstFault_None MI reads :
  firstFault MI reads = None
  <-> forall i, i ∈ reads -> exists z, operands MI !! i = Some (MO_Immediate z).
Proof.
  induction reads as [|i reads IH]; simpl.
  - split; [|done]. intros _ i Hi. by apply elem_of_nil in Hi.
  - destruct (operands MI !! i) as [[r|z]|] eqn:E.
    + split; [done|]. intros H.
      destruct (H i) as [z Hz]; [apply list_elem_of_here|]. congruence.
    + rewrite IH. split.
      * intros H j [->|Hj]%elem_of_cons; [by exists z|by apply H].
      * intros H j Hj. by apply H, list_elem_of_further.
    + split; [done|]. intros H.
      destruct (H i) as [z Hz]; [apply list_elem_of_here|]. congruence.
Qed.

Lemma firstFault_Some MI reads e :
  firstFault MI reads = Some e ->
  exists pre i post,
    reads = pre ++ i :: post
    /\ (forall j, j ∈ pre -> exists z, operands MI !! j = Some (MO_Immediate z))
    /\ (e = WrongOperandAccessor
        /\ (exists r, operands MI !! i = Some (MO_Register r))
        \/ e = MalformedInstruction /\ operands MI !! i = None).
Proof.
  induction reads as [|i reads IH]; simpl; [done|].
  destruct (operands MI !! i) as [[r|z]|] eqn:E.
  - intros [= <-]. exists [], i, reads. split; [done|].
    split; [intros j Hj; by apply elem_of_nil in Hj|]. left. eauto.
  - intros H. destruct (IH H) as (pre & j & post & -> & Hpre & Hj).
    exists (i :: pre), j, post. split; [done|]. split; [|done].
    intros k [->|Hk]%elem_of_cons; [by exists z|by apply Hpre].
  - intros [= <-]. exists [], i, reads. split; [done|].
    split; [intros j Hj; by apply elem_of_nil in Hj|]. by right.
Qed.

Lemma faultOf_read {B} MI i (k : Z -> Mapper B) rest :
  (forall z, operands MI !! i = Some (MO_Immediate z) ->
     faultOf (k z) = firstFault MI rest) ->
  faultOf (mbind (getImmAt MI i) k) = firstFault MI (i :: rest).
Proof.
  intros H. rewrite faultOf_mbind. unfold getImmAt, getOperand. simpl.
  destruct (operands MI !! i) as [[r|z]|]; simpl; [done| |done].
  by apply H.
Qed.

Lemma faultOf_request {B} r (k : unit -> Mapper B) :
  faultOf (mbind (addRequirementsReq r) k) = faultOf (k tt).
Proof. by rewrite faultOf_mbind. Qed.

Lemma faultOf_addInstrRequirements MI MRI ST :
  faultOf (addInstrRequirements MI MRI ST) = faultOfOperands MI MRI ST.
Proof.
  unfold faultOfOperands, tooFewOperands, immediatesRead, addInstrRequirements.
  destruct (getOpcode MI) eqn:Eop;
    try (rewrite bool_decide_eq_false_2
           by (unfold pointerDefining; set_solver));
    try (rewrite bool_decide_eq_true_2
           by (unfold pointerDefining; set_solver));
    try rewrite (bool_decide_eq_false_2 (_ = OpTypeImage)) by done;
    try rewrite (bool_decide_eq_true_2 (_ = OpTypeImage)) by done;
    simpl andb; cbv iota.
  all: try reflexivity.
  all: try (unfold addVariablePtrInstrReqs, getOperand;
            destruct (isLogicalAddressing ST); [|done];
            destruct (operands MI !! 1%nat) as [[type|z]|]; [|done..];
            simpl; destruct (MRI !! type); [|done];
            by destruct (decide _)).
  all: try (by destruct (isKernel ST)).
  all: unfold addOpDecorateReqs, addOpTypeImageReqs.
  all: try (apply faultOf_read; intros z Hz; rewrite ?Hz;
            try rewrite faultOf_request;
            repeat (destruct (Z.eqb _ _)); try reflexivity;
            apply faultOf_read; intros; reflexivity).
  destruct (Nat.leb_spec 8 (getNumOperands MI)) as [Hge|Hlt].
  2: { by rewrite (proj2 (Nat.ltb_lt _ _) Hlt). }
  rewrite (proj2 (Nat.ltb_ge _ _) Hge). simpl negb. cbv iota. simpl app.
  apply faultOf_read. intros f Hf. rewrite faultOf_request.
  apply faultOf_read. intros a Ha. apply faultOf_read. intros ms Hms.
  apply faultOf_read. intros s Hs. apply faultOf_read. intros d Hd.
  destruct (dimension_requests (toDim (uint32 d)) (a =? 1) (ms =? 1) (s =? 2))
    as (l & _ & ->).
  rewrite faultOf_mbind. simpl snd. cbv iota.
  destruct (isKernel ST); [|reflexivity]. simpl andb.
  destruct (8 <? getNumOperands MI)%nat; [|reflexivity].
  apply faultOf_read. intros q Hq. by destruct (q =? _).
Qed.


Lemma firstFault_Some_iff MI reads e :
  firstFault MI reads = Some e
  <-> exists pre i post,
        reads = pre ++ i :: post
        /\ (forall j, j ∈ pre ->
              exists z, operands MI !! j = Some (MO_Immediate z))
        /\ (e = WrongOperandAccessor
            /\ (exists r, operands MI !! i = Some (MO_Register r))
            \/ e = MalformedInstruction /\ operands MI !! i = None).
Proof.
  split; [apply firstFault_Some|].
  intros (pre & i & post & -> & Hpre & Hi).
  induction pre as [|j pre IH]; simpl.
  - destruct Hi as [[-> [r ->]]|[-> ->]]; done.
  - destruct (Hpre j) as [z ->]; [apply list_elem_of_here|].
    apply IH. intros k Hk. by apply Hpre, list_elem_of_further.
Qed.

Lemma immediatesRead_operandReading MI ST :
  immediatesRead MI ST <> [] -> getOpcode MI ∈ operandReading.
Proof.
  unfold immediatesRead.
  destruct (getOpcode MI); try done; intros _;
    refine (bool_decide_unpack _ _); vm_compute; exact I.
Qed.

Lemma pointerDefining_operandReading op :
  op ∈ pointerDefining -> op ∈ operandReading.
Proof. intros H. unfold operandReading. apply elem_of_app. by right. Qed.

(** X19. The rule of an instruction ends in one of three faults, if in any,
    and only for an opcode whose rule reads an operand.  For an opcode that
    is not pointer-defining it ends without a fault exactly when the
    operand count of an [OpTypeImage] is at least 8 and every operand the
    rule reads is an immediate; it reports a wrong operand accessor exactly
    when the first operand it reads that is not an immediate is a register,
    and a malformed instruction exactly when that operand is missing or an
    [OpTypeImage] has fewer than 8 operands.  For a pointer-defining opcode
    there is no fault without logical addressing; with it the fault is a
    malformed instruction exactly when operand 1 is missing, a wrong operand
    accessor exactly when it is an immediate, and an undefined register
    exactly when it is a register without a definition. *)
Theorem addInstrRequirements_faults (MI : MachineInstr)
    (MRI : MachineRegisterInfo) (ST : SPIRVSubtarget) :
  let m := addInstrRequirements MI MRI ST in
  let reads := immediatesRead MI ST in
  let immediate i := exists z, operands MI !! i = Some (MO_Immediate z) in
  (forall e, faultOf m = Some e ->
     getOpcode MI ∈ operandReading
     /\ e ∈ [MalformedInstruction; WrongOperandAccessor; UndefinedRegister])
  /\ (getOpcode MI ∉ pointerDefining ->
      (faultOf m = None <->
         tooFewOperands MI = false /\ forall i, i ∈ reads -> immediate i)
      /\ (faultOf m = Some WrongOperandAccessor <->
            tooFewOperands MI = false
            /\ exists pre i post r,
                 reads = pre ++ i :: post
                 /\ (forall j, j ∈ pre -> immediate j)
                 /\ operands MI !! i = Some (MO_Register r))
      /\ (faultOf m = Some MalformedInstruction <->
            tooFewOperands MI = true
            \/ exists pre i post,
                 reads = pre ++ i :: post
                 /\ (forall j, j ∈ pre -> immediate j)
                 /\ (getNumOperands MI <= i)%nat)
      /\ faultOf m <> Some UndefinedRegister)
  /\ (getOpcode MI ∈ pointerDefining ->
      (faultOf m = None <->
         isLogicalAddressing ST = false
         \/ exists type def,
              operands MI !! 1%nat = Some (MO_Register type)
              /\ MRI !! type = Some def)
      /\ (faultOf m = Some UndefinedRegister <->
            isLogicalAddressing ST = true
            /\ exists type,
                 operands MI !! 1%nat = Some (MO_Register type)
                 /\ MRI !! type = None)
      /\ (faultOf m = Some WrongOperandAccessor <->
            isLogicalAddressing ST = true
            /\ exists z, operands MI !! 1%nat = Some (MO_Immediate z))
      /\ (faultOf m = Some MalformedInstruction <->
            isLogicalAddressing ST = true /\ (getNumOperands MI <= 1)%nat)).
Proof.
  intros m reads immediate. subst m.
  rewrite faultOf_addInstrRequirements. unfold faultOfOperands.
  fold reads. split; [|split].
  - intros e. destruct (bool_decide_reflect (getOpcode MI ∈ pointerDefining))
      as [Hp|Hp].
    + intros He. split; [by apply pointerDefining_operandReading|].
      destruct (isLogicalAddressing ST); [|done].
      destruct (operands MI !! 1%nat) as [[type|z]|];
        [destruct (MRI !! type); [done|]|..];
        injection He as <-; set_solver.
    + destruct (tooFewOperands MI) eqn:Et.
      * intros [= <-]. split; [|set_solver].
        unfold tooFewOperands in Et. apply andb_true_iff in Et as [Et _].
        apply bool_decide_eq_true in Et. rewrite Et.
        refine (bool_decide_unpack _ _). vm_compute. exact I.
      * intros He. split.
        -- apply (immediatesRead_operandReading MI ST). fold reads.
           intros E. by rewrite E in He.
        -- apply firstFault_Some in He
             as (_ & _ & _ & _ & _ & [[-> _]|[-> _]]); set_solver.
  - intros Hp. rewrite bool_decide_eq_false_2 by done.
    destruct (tooFewOperands MI) eqn:Et.
    + split; [|split; [|split]]; try done.
      * split; [done|]. by intros [? _].
      * split; [done|]. by intros [? _].
      * split; [by left|done].
    + split; [|split; [|split]].
      * rewrite firstFault_None. split; [done|]. by intros [_ ?].
      * rewrite firstFault_Some_iff. split.
        -- intros (pre & i & post & E & Hpre & [[_ [r Hr]]|[? _]]); [|done].
           split; [done|]. by exists pre, i, post, r.
        -- intros (_ & pre & i & post & r & E & Hpre & Hr).
           exists pre, i, post. split; [done|]. split; [done|]. left. eauto.
      * rewrite firstFault_Some_iff. split.
        -- intros (pre & i & post & E & Hpre & [[? _]|[_ Hi]]); [done|].
           right. exists pre, i, post. split; [done|]. split; [done|].
           by apply lookup_ge_None.
        -- intros [?|(pre & i & post & E & Hpre & Hi)]; [done|].
           exists pre, i, post. split; [done|]. split; [done|]. right.
           split; [done|]. by apply lookup_ge_None.
      * intros He. apply firstFault_Some in He
          as (_ & _ & _ & _ & _ & [[? _]|[? _]]); done.
  - intros Hp. rewrite bool_decide_eq_true_2 by done.
    assert ((getNumOperands MI <= 1)%nat <-> operands MI !! 1%nat = None)
      as -> by (symmetry; apply lookup_ge_None).
    destruct (isLogicalAddressing ST);
      [destruct (operands MI !! 1%nat) as [[type|z]|];
         [destruct (MRI !! type) as [def|] eqn:Et|..]|];
      repeat split; naive_solver.
Qed.

Lemma addInstrRequirements_faults_witness :
  let MI := mkMachineInstr OpDecorate
              [MO_Register 4%N; MO_Immediate 11; MO_Register 5%N] in
  faultOf (addInstrRequirements MI ∅ vulkanSubtarget)
  = Some WrongOperandAccessor.
Proof.
  intros MI.
  destruct (addInstrRequirements_faults MI ∅ vulkanSubtarget)
    as (_ & H & _).
  destruct H as (_ & H & _).
  - intros Hp. unfold pointerDefining in Hp.
    repeat (apply elem_of_cons in Hp as [Hp|Hp]; [discriminate|]).
    by apply elem_of_nil in Hp.
  - apply H. split; [reflexivity|].
    exists [1%nat], 2%nat, [], 5%N. split; [reflexivity|].
    split; [|reflexivity].
    intros j Hj. apply list_elem_of_singleton in Hj as ->.
    exists 11. reflexivity.
Defined.

Lemma mbind_request {B} r (k : unit -> Mapper B) :
  mbind (request r) k = (r :: requests (k tt), snd (k tt)).
Proof. unfold mbind, request, requests. by destruct (k tt). Qed.

(** X20. A decorating instruction is mapped without a fault exactly when
    the operand of the decoration is an immediate and, for [BuiltIn], the
    operand after it is one as well.  Without the operand of the decoration,
    or with a register there, nothing is asked for.  A [BuiltIn] whose next
    operand is missing or a register ends in the fault only after the
    requirements of the decoration were asked for. *)
Theorem decoration_faults (ST : SPIRVSubtarget) (MRI : MachineRegisterInfo)
    (MI : MachineInstr) (decIndex : nat) :
  (getOpcode MI ∈ [OpDecorate; OpDecorateId; OpDecorateString]
   /\ decIndex = 1%nat
   \/ getOpcode MI ∈ [OpMemberDecorate; OpMemberDecorateString]
      /\ decIndex = 2%nat) ->
  (faultOf (addInstrRequirements MI MRI ST) = None <->
     exists decOp,
       operands MI !! decIndex = Some (MO_Immediate decOp)
       /\ (decOp = Decoration_BuiltIn ->
           exists builtInOp,
             operands MI !! (decIndex + 1)%nat = Some (MO_Immediate builtInOp)))
  /\ ((getNumOperands MI <= decIndex)%nat ->
      addInstrRequirements MI MRI ST = ([], inl MalformedInstruction))
  /\ (forall r, operands MI !! decIndex = Some (MO_Register r) ->
      addInstrRequirements MI MRI ST = ([], inl WrongOperandAccessor))
  /\ (operands MI !! decIndex = Some (MO_Immediate Decoration_BuiltIn) ->
      ((getNumOperands MI <= decIndex + 1)%nat ->
       addInstrRequirements MI MRI ST
       = ([ReqAddRequirements
             (getDecorationRequirements Decoration_BuiltIn ST)],
          inl MalformedInstruction))
      /\ (forall r,
            operands MI !! (decIndex + 1)%nat = Some (MO_Register r) ->
            addInstrRequirements MI MRI ST
            = ([ReqAddRequirements
                  (getDecorationRequirements Decoration_BuiltIn ST)],
               inl WrongOperandAccessor))).
Proof.
  intros Hop.
  assert (addInstrRequirements MI MRI ST = addOpDecorateReqs MI decIndex ST)
    as ->.
  { unfold addInstrRequirements.
    destruct Hop as [[Hop ->]|[Hop ->]];
      repeat (apply elem_of_cons in Hop as [->|Hop]; [done|]);
      by apply elem_of_nil in Hop. }
  clear Hop. unfold addOpDecorateReqs, getImmAt, getOperand, getNumOperands.
  split; [|split; [|split; [|intros EB; split]]].
  - destruct (operands MI !! decIndex) as [[r|decOp]|] eqn:E; simpl.
    + split; [done|]. by intros (? & [=] & _).
    + destruct (Z.eqb_spec decOp Decoration_BuiltIn) as [->|Hne].
      * destruct (operands MI !! (decIndex + 1)%nat) as [[r|b]|] eqn:E1; simpl.
        -- split; [done|]. intros (? & [= <-] & H).
           by destruct (H eq_refl) as (? & [=]).
        -- split; [|done]. intros _. eexists. split; [done|]. eauto.
        -- split; [done|]. intros (? & [= <-] & H).
           by destruct (H eq_refl) as (? & [=]).
      * split; [|done]. intros _. exists decOp. split; [done|]. by intros ->.
    + split; [done|]. by intros (? & [=] & _).
  - intros Hle. by rewrite (proj2 (lookup_ge_None _ _) Hle).
  - intros r ->. done.
  - intros Hle. rewrite EB. simpl.
    by rewrite (proj2 (lookup_ge_None _ _) Hle).
  - intros r Hr. rewrite EB. simpl. by rewrite Hr.
Qed.

Lemma decoration_faults_witness :
  addInstrRequirements
    (mkMachineInstr OpDecorate [MO_Register 4%N; MO_Immediate 11]) ∅
    vulkanSubtarget
  = ([ReqAddRequirements (getDecorationRequirements Decoration_BuiltIn
                            vulkanSubtarget)],
     inl MalformedInstruction).
Proof.
  destruct (decoration_faults vulkanSubtarget ∅
              (mkMachineInstr OpDecorate [MO_Register 4%N; MO_Immediate 11])
              1%nat) as (_ & _ & _ & H).
  - left. split; [|reflexivity].
    refine (bool_decide_unpack _ _). vm_compute. exact I.
  - apply (H eq_refl). vm_compute. lia.
Defined.

Lemma addOpTypeImageReqs_reads (MI MI' : MachineInstr) (ST : SPIRVSubtarget) :
  (8 <= getNumOperands MI)%nat -> (8 <= getNumOperands MI')%nat ->
  (forall i, i ∈ [2; 4; 5; 6; 7]%nat -> operands MI !! i = operands MI' !! i) ->
  (isKernel ST = true ->
   (8 <? getNumOperands MI)%nat = (8 <? getNumOperands MI')%nat
   /\ operands MI !! 8%nat = operands MI' !! 8%nat) ->
  addOpTypeImageReqs MI ST = addOpTypeImageReqs MI' ST.
Proof.
  intros Hn Hn' Hi Hk. unfold addOpTypeImageReqs, getImmAt, getOperand.
  rewrite (proj2 (Nat.leb_le 8 _) Hn), (proj2 (Nat.leb_le 8 _) Hn').
  rewrite (Hi 7%nat), (Hi 4%nat), (Hi 5%nat), (Hi 6%nat), (Hi 2%nat)
    by (refine (bool_decide_unpack _ _); vm_compute; exact I).
  destruct (isKernel ST); [|done].
  destruct (Hk eq_refl) as [-> ->]. done.
Qed.

(** X21. An [OpTypeImage] with its operands 2, 4, 5, 6 and 7 immediates
    asks first for the requirements of its format, read as an unsigned
    32-bit number, and then for at most two capabilities for its dimension.
    On a target that is no kernel target that is all: nothing from operand
    8 on is read and there is no fault.  On a kernel target one more
    request follows and is the last: for [ImageReadWrite] when there is an
    operand 8 and it is the immediate 2, for [ImageBasic] when it is another
    immediate or there are 8 operands only. *)
Theorem image_type_requests (ST : SPIRVSubtarget) (MRI : MachineRegisterInfo)
    (MI : MachineInstr) (d a ms s f : Z) :
  getOpcode MI = OpTypeImage ->
  (8 <= getNumOperands MI)%nat ->
  operands MI !! 2%nat = Some (MO_Immediate d) ->
  operands MI !! 4%nat = Some (MO_Immediate a) ->
  operands MI !! 5%nat = Some (MO_Immediate ms) ->
  operands MI !! 6%nat = Some (MO_Immediate s) ->
  operands MI !! 7%nat = Some (MO_Immediate f) ->
  let m := addInstrRequirements MI MRI ST in
  head (requests m)
    = Some (ReqAddRequirements (getImageFormatRequirements (uint32 f) ST))
  /\ (isKernel ST = false ->
      faultOf m = None
      /\ (1 <= length (requests m) <= 3)%nat
      /\ m = addInstrRequirements
               (mkMachineInstr OpTypeImage (take 8 (operands MI))) MRI ST)
  /\ (isKernel ST = true ->
      forall access,
        (getNumOperands MI = 8%nat /\ access = None
         \/ exists q, operands MI !! 8%nat = Some (MO_Immediate q)
                      /\ access = Some q) ->
        faultOf m = None
        /\ (2 <= length (requests m) <= 4)%nat
        /\ last (requests m)
           = Some
               (ReqAddRequirements
                  (capabilityRequirements
                     (if bool_decide (access = Some AccessQualifier_ReadWrite)
                      then ImageReadWrite else ImageBasic)))).
Proof.
  intros Hop Hn H2 H4 H5 H6 H7 m.
  assert (m = addOpTypeImageReqs MI ST) as Hm
    by (unfold m, addInstrRequirements; by rewrite Hop).
  assert (exists l access,
            (length l <= 2)%nat
            /\ addOpTypeImageReqs MI ST
               = mbind (request (ReqAddRequirements
                          (getImageFormatRequirements (uint32 f) ST)))
                   (fun _ => mbind (l, inr tt) (fun _ => access))
            /\ access
               = (if isKernel ST then
                    if (8 <? getNumOperands MI)%nat then
                      access <- getImmAt MI 8 ;;
                      if access =? AccessQualifier_ReadWrite
                      then addRequirementsReq
                             (capabilityRequirements ImageReadWrite)
                      else addRequirementsReq
                             (capabilityRequirements ImageBasic)
                    else addRequirementsReq (capabilityRequirements ImageBasic)
                  else mret tt))
    as (l & access & Hl & Hshape & Haccess).
  { unfold addOpTypeImageReqs.
    rewrite (proj2 (Nat.leb_le 8 _) Hn). simpl negb. cbv iota.
    rewrite (getImmAt_immediate _ _ _ H7), (getImmAt_immediate _ _ _ H4),
      (getImmAt_immediate _ _ _ H5), (getImmAt_immediate _ _ _ H6),
      (getImmAt_immediate _ _ _ H2).
    rewrite !mbind_mret, uint32_uint32.
    destruct (dimension_requests (toDim (uint32 d)) (a =? 1) (ms =? 1)
                (s =? 2)) as (l & Hl & ->).
    exists l. eexists. split; [done|]. split; reflexivity. }
  assert (requests m
          = ReqAddRequirements (getImageFormatRequirements (uint32 f) ST)
            :: l ++ requests access
          /\ faultOf m = faultOf access) as [Hreq Hfault].
  { rewrite Hm, Hshape, mbind_request. unfold requests, faultOf.
    simpl. by destruct access. }
  rewrite Hreq, Hfault. split; [done|]. split.
  - intros Hk. rewrite Hk in Haccess. subst access. split; [done|].
    split; [simpl; rewrite app_nil_r; lia|].
    rewrite Hm. unfold addInstrRequirements. simpl getOpcode.
    apply addOpTypeImageReqs_reads.
    + done.
    + unfold getNumOperands in *. simpl. rewrite length_take. lia.
    + intros i Hi. simpl. rewrite lookup_take_lt; [done|].
      repeat (apply elem_of_cons in Hi as [->|Hi]; [lia|]).
      by apply elem_of_nil in Hi.
    + by rewrite Hk.
  - intros Hk acc Hacc. rewrite Hk in Haccess.
    assert (access
            = ([ReqAddRequirements
                  (capabilityRequirements
                     (if bool_decide (acc = Some AccessQualifier_ReadWrite)
                      then ImageReadWrite else ImageBasic))], inr tt))
      as ->.
    { subst access. destruct Hacc as [[Hn8 ->]|(q & Hq & ->)].
      - rewrite Hn8. reflexivity.
      - assert (8 < getNumOperands MI)%nat as Hlt
          by (apply lookup_lt_Some in Hq; exact Hq).
        rewrite (proj2 (Nat.ltb_lt _ _) Hlt).
        rewrite (getImmAt_immediate _ _ _ Hq), mbind_mret.
        destruct (Z.eqb_spec q AccessQualifier_ReadWrite) as [->|Hne].
        + by rewrite bool_decide_eq_true_2.
        + rewrite bool_decide_eq_false_2; [done|]. by intros [= ->]. }
    simpl. split; [done|]. split.
    + rewrite length_app. simpl. lia.
    + change (?x :: l ++ ?y) with ((x :: l) ++ y). apply last_snoc.
Qed.

Lemma image_type_requests_witness :
  let MI := mkMachineInstr OpTypeImage
              [MO_Register 9%N; MO_Register 3%N; MO_Immediate 3;
               MO_Immediate 0; MO_Immediate 1; MO_Immediate 0;
               MO_Immediate 2; MO_Immediate 0; MO_Immediate 2] in
  last (requests (addInstrRequirements MI ∅ openCLSubtarget))
  = Some (ReqAddRequirements (capabilityRequirements ImageReadWrite)).
Proof.
  intros MI.
  assert (8 <= getNumOperands MI)%nat as Hn by (vm_compute; lia).
  destruct (image_type_requests openCLSubtarget ∅ MI 3 1 0 2 0 eq_refl Hn
              eq_refl eq_refl eq_refl eq_refl eq_refl) as (_ & _ & H).
  destruct (H eq_refl (Some 2)) as (_ & _ & Hlast).
  - right. exists 2. split; reflexivity.
  - exact Hlast.
Defined.

(** X22. On a subtarget made without feature flags an [OpTypeForwardPointer]
    asks for [Addresses] when the triple is of the OpenCL environment or has
    no logical addressing, and for [PhysicalStorageBufferAddresses]
    otherwise; the subtarget can use the capability asked for exactly when
    the first is the case and the triple is not of the Vulkan environment. *)
Theorem forward_pointer_capability (depth : nat) (TT : Triple)
    (ST : SPIRVSubtarget) (MRI : MachineRegisterInfo) (MI : MachineInstr) :
  (recursionBound <= depth)%nat ->
  newSPIRVSubtarget depth TT ∅ = Some ST ->
  getOpcode MI = OpTypeForwardPointer ->
  let c := if isOpenCLEnvironment TT || negb (isSPIRVLogical TT)
           then Addresses else PhysicalStorageBufferAddresses in
  addInstrRequirements MI MRI ST = ([ReqAddCapability c], inr tt)
  /\ canUseCapability ST c
     = negb (isVulkanEnvironment TT)
       && (isOpenCLEnvironment TT || negb (isSPIRVLogical TT)).
Proof.
  intros Hd E Hop c.
  destruct (newSPIRVSubtarget_flavours depth TT ∅ ST E) as (Hk & _).
  pose proof (newSPIRVSubtarget_default depth TT ST Hd E) as Hcaps.
  unfold addInstrRequirements, canUseCapability. rewrite Hop, Hk, Hcaps.
  subst c.
  destruct (isOpenCLEnvironment TT), (isSPIRVLogical TT),
    (isVulkanEnvironment TT); vm_compute; done.
Qed.

Lemma forward_pointer_capability_witness :
  canUseCapability vulkanSubtarget PhysicalStorageBufferAddresses = false.
Proof.
  exact (proj2 (forward_pointer_capability recursionBound vulkanTriple
                  vulkanSubtarget ∅ (mkMachineInstr OpTypeForwardPointer [])
                  (Nat.le_refl _) newSPIRVSubtarget_vulkan eq_refl)).
Defined.
